(** * STRING_old and STRING::split of tesseract's ccutil/strngs.cpp

    A shallow embedding of the header-plus-data string buffer of
    [src/ccutil/strngs.cpp] and [include/tesseract/strngs.h], and the
    properties of its allocation policy, lazy length, mutators and
    serialisation.

    Modelling conventions.
    - [int]/[int32_t] values are [Z]; every arithmetic result that the source
      stores in an [int] goes through [wrap32] (two's complement wrap-around),
      conversions to [uint32_t] and [size_t] through [to_uint32] and
      [to_size_t].
    - A [char] is a [Byte.byte]; a block of memory is a [list byte]; an access
      outside the block is the fault [OutOfBounds].
    - [malloc] takes the address and the (arbitrary) initial bytes of the new
      block from a supply carried by the heap state, so every statement holds
      for all contents of uninitialised memory.
    - A [const char*] argument is [option (list byte)]: [None] is [nullptr],
      [Some m] points at the first byte of the array [m], an array apart from
      the blocks of the string objects.
    - A [const STRING_old&] argument is passed as the object it refers to;
      methods that repair the (mutable) header of a const object return the
      repaired object next to their result.  The argument of [operator+=] is
      read after the block of the receiver may have been replaced, so it is a
      [reference]: another object, or the receiver itself, for which the code
      reads a freed block or copies between overlapping ranges (the faults
      [UseAfterFree] and [Overlap]). *)

From Stdlib Require Import ZArith Lia List Strings.Byte String.
From stdpp Require Import base list.

Open Scope Z_scope.

Abbreviation byte := Byte.byte.

#[global] Instance byte_eq_dec : EqDecision byte := Byte.byte_eq_dec.

(** ** Machine integers *)

Definition INT32_MAX : Z := 2147483647.
Definition UINT16_MAX : Z := 65535.
Definition PTRDIFF_MAX : Z := 9223372036854775807.

(** Conversion to [int] (32 bits, two's complement). *)
Definition wrap32 (z : Z) : Z := (z + 2147483648) mod 4294967296 - 2147483648.

(** Conversion to [uint32_t]. *)
Definition to_uint32 (z : Z) : Z := z mod 4294967296.

(** Conversion to [size_t] (64 bits). *)
Definition to_size_t (z : Z) : Z := z mod 18446744073709551616.

(** [sizeof(STRING_HEADER)]: two [int] fields. *)
Definition sizeof_STRING_HEADER : Z := 8.

(** Smallest string to allocate by default. *)
Definition kMinCapacity : Z := 16.

(** ** Faults, heap state and the monad of the embedding *)

Inductive fault : Type :=
| AssertFailed   (* ASSERT_HOST aborted the program *)
| OutOfBounds    (* access outside an allocated block *)
| BadAlloc       (* malloc returned a null pointer that is then used *)
| UseAfterFree   (* access to a block that was freed *)
| Overlap.       (* memcpy between ranges that overlap *)

Inductive outcome (A : Type) : Type :=
| Done (a : A)
| Crash (f : fault).
Arguments Done {A} a.
Arguments Crash {A} f.

(** The allocator: [allocs] counts the calls of malloc so far, [supply n] is
    the address and the initial content of the block the [n]-th call returns,
    [freed] logs the addresses given to free. *)
Record heap : Type := mkHeap {
  allocs : nat;
  supply : nat -> Z * (nat -> byte);
  freed : list Z
}.

Definition M (A : Type) : Type := heap -> outcome (A * heap).

#[global] Instance M_ret : MRet M := fun A a h => Done (a, h).

#[global] Instance M_bind : MBind M := fun A B k m h =>
  match m h with
  | Done (a, h') => k a h'
  | Crash f => Crash f
  end.

Definition crash {A : Type} (f : fault) : M A := fun _ => Crash f.

(** ** Memory primitives *)

Definition NUL : byte := x00.

Definition in_bounds (i : Z) (m : list byte) : bool :=
  (0 <=? i) && (i <? Z.of_nat (length m)).

(** [p[i]] read. *)
Definition load (m : list byte) (i : Z) : M byte :=
  if in_bounds i m then
    match m !! Z.to_nat i with
    | Some b => mret b
    | None => crash OutOfBounds
    end
  else crash OutOfBounds.

(** [p[i] = b]. *)
Definition store (m : list byte) (i : Z) (b : byte) : M (list byte) :=
  if in_bounds i m then mret (<[Z.to_nat i := b]> m) else crash OutOfBounds.

(** [memcpy(dst + doff, src + soff, n)], [n] a [size_t]. *)
Definition memcpy (dst : list byte) (doff : Z) (src : list byte) (soff : Z)
    (n : Z) : M (list byte) :=
  if (0 <=? doff) && (0 <=? soff) && (0 <=? n)
     && (doff + n <=? Z.of_nat (length dst))
     && (soff + n <=? Z.of_nat (length src))
  then mret (take (Z.to_nat doff) dst
             ++ take (Z.to_nat n) (drop (Z.to_nat soff) src)
             ++ drop (Z.to_nat (doff + n)) dst)
  else crash OutOfBounds.

(** [memcpy(p + doff, p + soff, n)] with both ranges in the block [p]: the
    call is undefined when the ranges overlap; only a range copied onto
    itself, which every implementation leaves as it is, is let through. *)
Definition memcpy_within (m : list byte) (doff soff n : Z) : M (list byte) :=
  if (0 <=? doff) && (0 <=? soff) && (0 <=? n)
     && (doff + n <=? Z.of_nat (length m))
     && (soff + n <=? Z.of_nat (length m))
  then
    if (n =? 0) || (doff =? soff) then mret m
    else if (doff + n <=? soff) || (soff + n <=? doff) then
      mret (take (Z.to_nat doff) m
            ++ take (Z.to_nat n) (drop (Z.to_nat soff) m)
            ++ drop (Z.to_nat (doff + n)) m)
    else crash Overlap
  else crash OutOfBounds.

(** Position of the first [NUL] of a block, if it has one. *)
Fixpoint find_nul (m : list byte) : option nat :=
  match m with
  | [] => None
  | b :: m' => if decide (b = NUL) then Some 0%nat else S <$> find_nul m'
  end.

(** [strlen(p)]: scans up to the first [NUL]; runs off the block if there is
    none. *)
Definition strlen (m : list byte) : M Z :=
  match find_nul m with
  | Some n => mret (Z.of_nat n)
  | None => crash OutOfBounds
  end.

(** [strchr(p, c) != nullptr]: scans up to and including the first [NUL]. *)
Fixpoint strchr_found (m : list byte) (c : byte) : M bool :=
  match m with
  | [] => crash OutOfBounds
  | b :: m' =>
      if decide (b = c) then mret true
      else if decide (b = NUL) then mret false
      else strchr_found m' c
  end.

(** [memcmp(p, q, n) == 0]. *)
Definition memcmp_eq (p q : list byte) (n : Z) : M bool :=
  if (0 <=? n) && (n <=? Z.of_nat (length p)) && (n <=? Z.of_nat (length q))
  then mret (bool_decide (take (Z.to_nat n) p = take (Z.to_nat n) q))
  else crash OutOfBounds.

(** [malloc(size)], [size] a [size_t]: a request above [PTRDIFF_MAX] fails;
    otherwise the supply decides where the block lies and what it holds. *)
Definition malloc (size : Z) : M (Z * list byte) := fun h =>
  if (0 <=? size) && (size <=? PTRDIFF_MAX) then
    let '(addr, fill) := supply h (allocs h) in
    Done ((addr, map fill (seq 0 (Z.to_nat size))),
          mkHeap (S (allocs h)) (supply h) (freed h))
  else Crash BadAlloc.

(** [free(p)]. *)
Definition free (addr : Z) : M unit := fun h =>
  Done (tt, mkHeap (allocs h) (supply h) (addr :: freed h)).

(** A block for a header and its data: [static_cast<STRING_HEADER*>(malloc(size))]
    whose header is written afterwards.  The result is the address and the
    bytes that follow the header. *)
Definition malloc_block (size : Z) : M (Z * list byte) :=
  '(addr, raw) ← malloc size;
  if sizeof_STRING_HEADER <=? Z.of_nat (length raw)
  then mret (addr, drop (Z.to_nat sizeof_STRING_HEADER) raw)
  else crash OutOfBounds.

(** What a [const char*] points at; a null pointer points at nothing. *)
Definition pointee (p : option (list byte)) : list byte := default [] p.

(** The bytes [strncpy(dst, src, n)] writes: the characters of [src] up to its
    terminator, then terminators up to [n] bytes in all; [src] is read no
    further than its terminator or [n] bytes. *)
Fixpoint strncpy_bytes (src : list byte) (n : nat) : option (list byte) :=
  match n with
  | O => Some []
  | S n' =>
      match src with
      | [] => None
      | b :: src' =>
          if decide (b = NUL) then Some (replicate (S n') NUL)
          else cons b <$> strncpy_bytes src' n'
      end
  end.

(** [strncpy(dst, src, n)], [n] a [size_t]. *)
Definition strncpy (dst src : list byte) (n : Z) : M (list byte) :=
  if (0 <=? n) && (n <=? Z.of_nat (length dst)) then
    match strncpy_bytes src (Z.to_nat n) with
    | Some w => mret (w ++ drop (Z.to_nat n) dst)
    | None => crash OutOfBounds
    end
  else crash OutOfBounds.

(** [new char[n]], [n] a [size_t]: storage from the same allocator; a request
    that cannot be served throws. *)
Definition new_char_array (n : Z) : M (Z * list byte) := malloc n.

(** ** Byte channels *)

(** Byte order of the machine: how a [uint32_t] lies in memory. *)
Inductive byte_order : Type := LittleEndian | BigEndian.

Definition byte_of_Z (z : Z) : byte :=
  default x00 (Byte.of_N (Z.to_N (z mod 256))).

Definition Z_of_byte (b : byte) : Z := Z.of_N (Byte.to_N b).

(** The four bytes of a [uint32_t] object. *)
Definition bytes_of_uint32 (host : byte_order) (v : Z) : list byte :=
  let le := [byte_of_Z v; byte_of_Z (v / 256); byte_of_Z (v / 65536);
             byte_of_Z (v / 16777216)] in
  match host with LittleEndian => le | BigEndian => rev le end.

(** The [uint32_t] value that four bytes of memory hold. *)
Definition uint32_of_bytes (host : byte_order) (bs : list byte) : Z :=
  match (match host with LittleEndian => bs | BigEndian => rev bs end) with
  | [b0; b1; b2; b3] =>
      Z_of_byte b0 + 256 * Z_of_byte b1 + 65536 * Z_of_byte b2
      + 16777216 * Z_of_byte b3
  | _ => 0
  end.

(** Modelled from the spec: [ReverseN] of tesseract/helpers.h, which is not
    among the sources; it reverses the byte order of an object in memory. *)
Definition ReverseN (bs : list byte) : list byte := rev bs.

(** Modelled from the spec: the raw file handle ([FILE*]) behind
    [tesseract::Serialize] and [tesseract::DeSerialize] of
    tesseract/serialis.h, which are not among the sources.  A channel is the
    bytes of the file, the position of the next transfer and the size the
    device can hold; a transfer that cannot be completed is short and makes
    the operation return [false]. *)
Record FILE : Type := mkFILE {
  f_bytes : list byte;
  f_pos : nat;
  f_limit : nat
}.

(** [fwrite]: the bytes that fit are written at the position; the result tells
    whether all of them were. *)
Definition fwrite (data : list byte) (fp : FILE) : bool * FILE :=
  let room := (f_limit fp - f_pos fp)%nat in
  let part := take room data in
  (bool_decide (length data ≤ room)%nat,
   mkFILE (resize (f_pos fp) NUL (f_bytes fp) ++ part
           ++ drop (f_pos fp + length part) (f_bytes fp))
          (f_pos fp + length part) (f_limit fp)).

(** [fread]: the bytes that are there, at most [n], and the advanced
    channel. *)
Definition fread (n : nat) (fp : FILE) : list byte * FILE :=
  let got := take n (drop (f_pos fp) (f_bytes fp)) in
  (got, mkFILE (f_bytes fp) (f_pos fp + length got) (f_limit fp)).

(** Modelled from the spec: [tesseract::TFile] of tesseract/serialis.h, which
    is not among the sources: a channel with the same read, write and skip
    contract that handles the byte order of the values it reads itself. *)
Record TFile : Type := mkTFile {
  tf_file : FILE;
  tf_swap : bool
}.

Module TFileOps.

(** [TFile::Serialize]: write [data]. *)
Definition Serialize (data : list byte) (fp : TFile) : bool * TFile :=
  let '(ok, f) := fwrite data (tf_file fp) in (ok, mkTFile f (tf_swap fp)).

(** [TFile::DeSerialize(char* buffer, size_t count)]: read [count] bytes. *)
Definition DeSerialize (count : nat) (fp : TFile) : list byte * TFile :=
  let '(got, f) := fread count (tf_file fp) in (got, mkTFile f (tf_swap fp)).

(** [TFile::DeSerialize(uint32_t* data)]: read one value, reversing its bytes
    when the channel swaps. *)
Definition DeSerialize_uint32 (fp : TFile) : list byte * TFile :=
  let '(got, f) := fread 4 (tf_file fp) in
  (if tf_swap fp then ReverseN got else got, mkTFile f (tf_swap fp)).

(** [TFile::Skip(size_t count)]. *)
Definition Skip (count : nat) (fp : TFile) : bool * TFile :=
  let '(got, f) := fread count (tf_file fp) in
  (bool_decide (length got = count), mkTFile f (tf_swap fp)).

End TFileOps.

(** ** STRING_old *)

(** Metadata about the allocated buffer: total capacity and how much is used
    (strlen with the terminator). *)
Record STRING_HEADER : Type := mkHeader {
  capacity_ : Z;
  used_ : Z
}.

Module STRING_old.

(** The object holds the one pointer [data_]; [header] and [cstr] are the
    content of the block it points at: the header and the bytes after it. *)
Record t : Type := mk {
  data_ : Z;
  header : STRING_HEADER;
  cstr : list byte
}.

Definition GetHeader (s : t) : STRING_HEADER := header s.

Definition GetCStr (s : t) : Z := data_ s + sizeof_STRING_HEADER.

Definition set_used (u : Z) (s : t) : t :=
  mk (data_ s) (mkHeader (capacity_ (header s)) u) (cstr s).

Definition set_cstr (m : list byte) (s : t) : t :=
  mk (data_ s) (header s) m.

Definition AllocData (used capacity : Z) : M t :=
  '(addr, m) ← malloc_block (to_size_t (capacity + sizeof_STRING_HEADER));
  mret (mk addr (mkHeader capacity used) m).

Definition DiscardData (s : t) : M unit := free (data_ s).

Definition ensure_cstr (min_capacity : Z) (s : t) : M (Z * t) :=
  let orig_header := GetHeader s in
  if min_capacity <=? capacity_ orig_header then mret (GetCStr s, s)
  else
    let min_capacity :=
      if min_capacity <? wrap32 (2 * capacity_ orig_header)
      then wrap32 (2 * capacity_ orig_header) else min_capacity in
    let alloc := wrap32 (sizeof_STRING_HEADER + min_capacity) in
    '(addr, m) ← malloc_block (to_size_t alloc);
    m ← memcpy m 0 (cstr s) 0 (to_size_t (used_ orig_header));
    _ ← DiscardData s;
    let s' := mk addr (mkHeader min_capacity (used_ orig_header)) m in
    mret (GetCStr s', s').

Definition FixHeader (s : t) : M t :=
  if used_ (GetHeader s) <? 0 then
    n ← strlen (cstr s);
    mret (set_used (wrap32 (n + 1)) s)
  else mret s.

(** [STRING_old()]. *)
Definition new : M t :=
  s ← AllocData 1 kMinCapacity;
  m ← memcpy (cstr s) 0 [NUL] 0 1;
  mret (set_cstr m s).

(** [STRING_old(const STRING_old& str)]; also returns [str] with its header
    repaired. *)
Definition new_copy (str : t) : M (t * t) :=
  str ← FixHeader str;
  let str_used := used_ (GetHeader str) in
  this ← AllocData str_used str_used;
  m ← memcpy (cstr this) 0 (cstr str) 0 (to_size_t str_used);
  mret (set_cstr m this, str).

(** [STRING_old(const char* cstr)]. *)
Definition new_cstr (p : option (list byte)) : M t :=
  match p with
  | None =>
      s ← AllocData 1 kMinCapacity;
      m ← memcpy (cstr s) 0 [NUL] 0 1;
      mret (set_cstr m s)
  | Some src =>
      n ← strlen src;
      let len := wrap32 (n + 1) in
      this ← AllocData len len;
      m ← memcpy (cstr this) 0 src 0 (to_size_t len);
      mret (set_cstr m this)
  end.

(** [STRING_old(const char* data, int length)]. *)
Definition new_data (p : option (list byte)) (length : Z) : M t :=
  match p with
  | None =>
      s ← AllocData 1 kMinCapacity;
      m ← memcpy (cstr s) 0 [NUL] 0 1;
      mret (set_cstr m s)
  | Some src =>
      this ← AllocData (wrap32 (length + 1)) (wrap32 (length + 1));
      m ← memcpy (cstr this) 0 src 0 (to_size_t length);
      m ← store m length NUL;
      mret (set_cstr m this)
  end.

Definition contains (c : byte) (s : t) : M bool :=
  if decide (c = NUL) then mret false
  else strchr_found (cstr s) c.

Definition length (s : t) : M (Z * t) :=
  s ← FixHeader s;
  mret (wrap32 (used_ (GetHeader s) - 1), s).

(** [c_str()]: a null pointer for [used_ == 0], otherwise the data pointer,
    with the header marked unreliable. *)
Definition c_str (s : t) : M (option Z * t) :=
  if used_ (GetHeader s) =? 0 then mret (None, s)
  else mret (Some (GetCStr s), set_used (-1) s).

Definition truncate_at (index : Z) (s : t) : M t :=
  if index <? 0 then crash AssertFailed
  else
    s ← FixHeader s;
    '(_, s) ← ensure_cstr (wrap32 (index + 1)) s;
    m ← store (cstr s) index NUL;
    mret (set_used (wrap32 (index + 1)) (set_cstr m s)).

(** [operator[]]: the reference it returns is the offset [index] into the data
    of the returned object; [ref_read] and [ref_write] go through it. *)
Definition operator_index (index : Z) (s : t) : M (Z * t) :=
  mret (index, set_used (-1) s).

Definition ref_read (r : Z) (s : t) : M byte := load (cstr s) r.

Definition ref_write (r : Z) (b : byte) (s : t) : M t :=
  m ← store (cstr s) r b;
  mret (set_cstr m s).

(** [operator==(const STRING_old&)]. *)
Definition operator_eq (this str : t) : M (bool * t * t) :=
  this ← FixHeader this;
  str ← FixHeader str;
  let this_used := used_ (GetHeader this) in
  let str_used := used_ (GetHeader str) in
  if this_used =? str_used then
    b ← memcmp_eq (cstr this) (cstr str) (to_size_t this_used);
    mret (b, this, str)
  else mret (false, this, str).

(** [operator!=(const STRING_old&)]. *)
Definition operator_ne (this str : t) : M (bool * t * t) :=
  this ← FixHeader this;
  str ← FixHeader str;
  let this_used := used_ (GetHeader this) in
  let str_used := used_ (GetHeader str) in
  if negb (this_used =? str_used) then mret (true, this, str)
  else
    b ← memcmp_eq (cstr this) (cstr str) (to_size_t this_used);
    mret (negb b, this, str).

(** [operator!=(const char* cstr)]. *)
Definition operator_ne_cstr (this : t) (p : option (list byte)) : M (bool * t) :=
  this ← FixHeader this;
  match p with
  | None => mret (1 <? used_ (GetHeader this), this)
  | Some src =>
      n ← strlen src;
      let length := wrap32 (n + 1) in
      if negb (used_ (GetHeader this) =? length) then mret (true, this)
      else
        b ← memcmp_eq (cstr this) src (to_size_t length);
        mret (negb b, this)
  end.

(** [operator=(const STRING_old&)]. *)
Definition operator_assign (str : t) (this : t) : M (t * t) :=
  str ← FixHeader str;
  let str_used := used_ (GetHeader str) in
  let this := set_used 0 this in
  '(_, this) ← ensure_cstr str_used this;
  m ← memcpy (cstr this) 0 (cstr str) 0 (to_size_t str_used);
  mret (set_used str_used (set_cstr m this), str).

(** What the argument [str] of [operator+=(const STRING_old& str)] refers to:
    another object, with a block of its own, or the receiver itself. *)
Inductive reference : Type :=
| Other (str : t)
| Self.

(** [operator+=(const STRING_old&)]: the receiver and the argument afterwards.
    The pointer [str_cstr] is taken before [ensure_cstr]: when [str] is the
    receiver and the block is replaced, [memcpy] reads the block that was
    freed; when it is kept, source and destination lie in the same block. *)
Definition operator_add_assign (str : reference) (this : t) : M (t * t) :=
  this ← FixHeader this;
  match str with
  | Other str =>
      str ← FixHeader str;
      let str_used := used_ (GetHeader str) in
      let this_used := used_ (GetHeader this) in
      '(_, this) ← ensure_cstr (wrap32 (this_used + str_used)) this;
      if 1 <? this_used then
        m ← memcpy (cstr this) (this_used - 1) (cstr str) 0 (to_size_t str_used);
        mret (set_used (wrap32 (used_ (GetHeader this) + wrap32 (str_used - 1)))
                       (set_cstr m this), str)
      else
        m ← memcpy (cstr this) 0 (cstr str) 0 (to_size_t str_used);
        mret (set_used str_used (set_cstr m this), str)
  | Self =>
      let str_used := used_ (GetHeader this) in
      let this_used := used_ (GetHeader this) in
      let moved :=
        negb (wrap32 (this_used + str_used) <=? capacity_ (GetHeader this)) in
      '(_, this) ← ensure_cstr (wrap32 (this_used + str_used)) this;
      if moved then crash UseAfterFree
      else if 1 <? this_used then
        m ← memcpy_within (cstr this) (this_used - 1) 0 (to_size_t str_used);
        let this :=
          set_used (wrap32 (used_ (GetHeader this) + wrap32 (str_used - 1)))
                   (set_cstr m this) in
        mret (this, this)
      else
        m ← memcpy_within (cstr this) 0 0 (to_size_t str_used);
        let this := set_used str_used (set_cstr m this) in
        mret (this, this)
  end.

(** [operator=(const char* cstr)]. *)
Definition operator_assign_cstr (p : option (list byte)) (this : t) : M t :=
  match p with
  | Some src =>
      n ← strlen src;
      let len := wrap32 (n + 1) in
      let this := set_used 0 this in
      '(_, this) ← ensure_cstr len this;
      m ← memcpy (cstr this) 0 src 0 (to_size_t len);
      mret (set_used len (set_cstr m this))
  | None =>
      _ ← DiscardData this;
      s ← AllocData 1 kMinCapacity;
      m ← memcpy (cstr s) 0 [NUL] 0 1;
      mret (set_cstr m s)
  end.

(** [assign(const char* cstr, int len)]. *)
Definition assign (p : option (list byte)) (len : Z) (this : t) : M t :=
  let this := set_used 0 this in
  '(_, this) ← ensure_cstr (wrap32 (len + 1)) this;
  m ← memcpy (cstr this) 0 (pointee p) 0 (to_size_t len);
  m ← store m len NUL;
  mret (set_used (wrap32 (len + 1)) (set_cstr m this)).

(** [operator+(const STRING_old&)]: the result, then [this] and [str] with
    their headers repaired. *)
Definition operator_add (this str : t) : M (t * t * t) :=
  '(result, this) ← new_copy this;
  '(result, str) ← operator_add_assign (Other str) result;
  mret (result, this, str).

(** [operator+(char)]. *)
Definition operator_add_char (this : t) (ch : byte) : M (t * t) :=
  result ← new;
  this ← FixHeader this;
  let this_used := used_ (GetHeader this) in
  '(_, result) ← ensure_cstr (wrap32 (this_used + 1)) result;
  let result_used := used_ (GetHeader result) in
  m ← memcpy (cstr result) 0 (cstr this) 0 (to_size_t this_used);
  m ← store m result_used ch;
  m ← store m (wrap32 (result_used + 1)) NUL;
  mret (set_used (wrap32 (used_ (GetHeader result) + 1)) (set_cstr m result),
        this).

(** [operator+=(const char* cstr)]. *)
Definition operator_add_assign_cstr (p : option (list byte)) (this : t) : M t :=
  match p with
  | None => mret this
  | Some src =>
      b ← load src 0;
      if decide (b = NUL) then mret this
      else
        this ← FixHeader this;
        n ← strlen src;
        let len := wrap32 (n + 1) in
        let this_used := used_ (GetHeader this) in
        '(_, this) ← ensure_cstr (wrap32 (this_used + len)) this;
        if 0 <? this_used then
          m ← memcpy (cstr this) (this_used - 1) src 0 (to_size_t len);
          mret (set_used (wrap32 (used_ (GetHeader this) + wrap32 (len - 1)))
                         (set_cstr m this))
        else
          m ← memcpy (cstr this) 0 src 0 (to_size_t len);
          mret (set_used len (set_cstr m this))
  end.

(** [operator+=(char)]. *)
Definition operator_add_assign_char (ch : byte) (this : t) : M t :=
  if decide (ch = NUL) then mret this
  else
    this ← FixHeader this;
    let this_used := used_ (GetHeader this) in
    '(_, this) ← ensure_cstr (wrap32 (this_used + 1)) this;
    let this_used := if 0 <? this_used then wrap32 (this_used - 1) else this_used in
    m ← store (cstr this) this_used ch;
    let this_used := wrap32 (this_used + 1) in
    m ← store m this_used NUL;
    let this_used := wrap32 (this_used + 1) in
    mret (set_used this_used (set_cstr m this)).

(** [InvariantOk()] as it is compiled under [STRING_IS_PROTECTED]; without
    that macro it is [true] and the [assert]s of the source check nothing. *)
Definition InvariantOk (s : t) : bool :=
  if used_ (GetHeader s) =? 0 then true
  else
    match find_nul (cstr s) with
    | Some n => used_ (GetHeader s) =? Z.of_nat n + 1
    | None => false
    end.

(** [p[0..n)] read for a transfer, [n] a [size_t]. *)
Definition memread (m : list byte) (n : Z) : M (list byte) :=
  if (0 <=? n) && (n <=? Z.of_nat (List.length m))
  then mret (take (Z.to_nat n) m) else crash OutOfBounds.

Section Serialization.

Variable host : byte_order.

(** [Serialize(FILE* fp)]: the result, the channel, and the object with its
    header repaired by [length()]. *)
Definition Serialize (fp : FILE) (s : t) : M (bool * FILE * t) :=
  '(n, s) ← length s;
  let len := to_uint32 n in
  let '(ok, fp) := fwrite (bytes_of_uint32 host len) fp in
  if ok then
    data ← memread (cstr s) len;
    let '(ok, fp) := fwrite data fp in
    mret (ok, fp, s)
  else mret (false, fp, s).

(** [Serialize(TFile* fp)]. *)
Definition Serialize_TFile (fp : TFile) (s : t) : M (bool * TFile * t) :=
  '(n, s) ← length s;
  let len := to_uint32 n in
  let '(ok, fp) := TFileOps.Serialize (bytes_of_uint32 host len) fp in
  if ok then
    data ← memread (cstr s) len;
    let '(ok, fp) := TFileOps.Serialize data fp in
    mret (ok, fp, s)
  else mret (false, fp, s).

(** [DeSerialize(bool swap, FILE* fp)]. *)
Definition DeSerialize (swap : bool) (fp : FILE) (s : t) : M (bool * FILE * t) :=
  let '(got, fp) := fread 4 fp in
  if negb (bool_decide (List.length got = 4%nat)) then mret (false, fp, s)
  else
    let got := if swap then ReverseN got else got in
    let len := uint32_of_bytes host got in
    if UINT16_MAX <? len then mret (false, fp, s)
    else
      s ← truncate_at (wrap32 len) s;
      let '(got, fp) := fread (Z.to_nat len) fp in
      m ← memcpy (cstr s) 0 got 0 (Z.of_nat (List.length got));
      mret (bool_decide (List.length got = Z.to_nat len), fp, set_cstr m s).

(** [DeSerialize(TFile* fp)]. *)
Definition DeSerialize_TFile (fp : TFile) (s : t) : M (bool * TFile * t) :=
  let '(got, fp) := TFileOps.DeSerialize_uint32 fp in
  if negb (bool_decide (List.length got = 4%nat)) then mret (false, fp, s)
  else
    let len := uint32_of_bytes host got in
    s ← truncate_at (wrap32 len) s;
    let '(got, fp) := TFileOps.DeSerialize (Z.to_nat len) fp in
    m ← memcpy (cstr s) 0 got 0 (Z.of_nat (List.length got));
    mret (bool_decide (List.length got = Z.to_nat len), fp, set_cstr m s).

(** [SkipDeSerialize(TFile* fp)]. *)
Definition SkipDeSerialize (fp : TFile) : bool * TFile :=
  let '(got, fp) := TFileOps.DeSerialize_uint32 fp in
  if negb (bool_decide (List.length got = 4%nat)) then (false, fp)
  else TFileOps.Skip (Z.to_nat (uint32_of_bytes host got)) fp.

End Serialization.

(** [ensure(min_capacity)]: ensure capacity but keep the pointer
    encapsulated. *)
Definition ensure (min_capacity : Z) (s : t) : M t :=
  '(_, s) ← ensure_cstr min_capacity s;
  mret s.

(** [size()]. *)
Definition size (s : t) : M (Z * t) := length s.

(** [unsigned_size()]: the [assert] of <cassert> aborts when it fails, unless
    the code is compiled with [NDEBUG], where it checks nothing. *)
Definition unsigned_size (ndebug : bool) (s : t) : M (Z * t) :=
  '(len, s) ← length s;
  if ndebug || (0 <=? len) then mret (to_uint32 len, s)
  else crash AssertFailed.

(** [strdup()]: the address and the content of the new array, and the object
    with its header repaired. *)
Definition strdup (s : t) : M (Z * list byte * t) :=
  '(n, s) ← length s;
  let len := wrap32 (n + 1) in
  '(addr, a) ← new_char_array (to_size_t len);
  a ← strncpy a (cstr s) (to_size_t len);
  mret (addr, a, s).

End STRING_old.

(** ** Formatted output *)

(** Size of buffer needed to host the decimal representation of the maximum
    possible length of an int (in 64 bits), being -<20 digits>. *)
Definition kMaxIntSize : Z := 22.

(** The decimal digits of a number from 0 to [10 ^ fuel - 1], the most
    significant first, as characters. *)
Fixpoint digits (fuel : nat) (n : Z) : list byte :=
  match fuel with
  | O => []
  | S fuel =>
      (if n <? 10 then [] else digits fuel (n / 10))
      ++ [byte_of_Z (48 + n mod 10)]
  end.

(** The characters that the conversion ["%d"] produces for an [int]: a minus
    sign for a negative number, and at most ten digits. *)
Definition format_d (number : Z) : list byte :=
  if number <? 0 then "-"%byte :: digits 10 (- number) else digits 10 number.

(** [snprintf(buf, size, "%d", number)]: of the characters of the number at
    most [size - 1] are written, and then a terminator; the result is the
    number of characters the number has. *)
Definition snprintf_d (buf : list byte) (size : Z) (number : Z)
    : M (Z * list byte) :=
  if size =? 0 then mret (Z.of_nat (length (format_d number)), buf)
  else if (0 <? size) && (size <=? Z.of_nat (length buf)) then
    let out := take (Z.to_nat (size - 1)) (format_d number) ++ [NUL] in
    mret (Z.of_nat (length (format_d number)), out ++ drop (length out) buf)
  else crash OutOfBounds.

(** ** STRING::split *)

Module STRING.

(** [STRING] derives from [std::string]; its value is the sequence of its
    characters. [c_str()] is that sequence followed by a terminator. *)
Definition c_str (s : list byte) : list byte := s ++ [NUL].

(** [std::string(const char* s, size_type n)] applied to [buf + off]: the [n]
    characters starting there. *)
Definition from_data (buf : list byte) (off n : Z) : M (list byte) :=
  if (0 <=? off) && (0 <=? n) && (off + n <=? Z.of_nat (length buf))
  then mret (take (Z.to_nat n) (drop (Z.to_nat off) buf))
  else crash OutOfBounds.

(** The [for] loop of [split]: [fuel] iterations starting at index [i].  The
    loop runs while [i < len] with [len] an [int], so [i + 1] does not
    overflow. *)
Fixpoint split_loop (fuel : nat) (c : byte) (i start_index : Z)
    (this : list byte) (splited : list (list byte))
    : M (Z * list byte * list (list byte)) :=
  match fuel with
  | O => mret (start_index, this, splited)
  | S fuel =>
      b ← load this i;
      if decide (b = c) then
        '(this, splited) ←
          (if negb (i =? start_index) then
             this ← store this i NUL;
             piece ← from_data (c_str this) start_index
                       (to_size_t (wrap32 (i - start_index)));
             this ← store this i c;
             mret (this, splited ++ [piece])
           else mret (this, splited));
        split_loop fuel c (i + 1) (i + 1) this splited
      else split_loop fuel c (i + 1) start_index this splited
  end.

(** [split(c, splited)]: the string after the call and the vector with the
    pieces pushed at its back. *)
Definition split (c : byte) (this : list byte) (splited : list (list byte))
    : M (list byte * list (list byte)) :=
  let len := wrap32 (Z.of_nat (length this)) in
  '(start_index, this, splited) ←
    split_loop (Z.to_nat len) c 0 0 this splited;
  if negb (len =? start_index) then
    piece ← from_data (c_str this) start_index
              (to_size_t (wrap32 (len - start_index)));
    mret (this, splited ++ [piece])
  else mret (this, splited).

(** [std::string::operator+=(const char* s)]: the characters of [s] up to its
    terminator are appended. *)
Definition append_cstr (this s : list byte) : M (list byte) :=
  n ← strlen s;
  mret (this ++ take (Z.to_nat n) s).

(** [add_str_int(str, number)]; [num_buffer] is what the local array holds
    when the function is entered. *)
Definition add_str_int (p : option (list byte)) (number : Z)
    (num_buffer this : list byte) : M (list byte) :=
  this ← match p with
         | Some str => append_cstr this str
         | None => mret this
         end;
  '(_, num_buffer) ← snprintf_d num_buffer (kMaxIntSize - 1) number;
  num_buffer ← store num_buffer (kMaxIntSize - 1) NUL;
  append_cstr this num_buffer.

End STRING.

(** The runs of [split] as the specification words them: the maximal runs of
    characters between separators ([fields]), of which the empty ones are
    dropped. *)
Fixpoint fields (c : byte) (s : list byte) : list (list byte) :=
  match s with
  | [] => [[]]
  | b :: s' =>
      if decide (b = c) then [] :: fields c s'
      else match fields c s' with
           | r :: rs => (b :: r) :: rs
           | [] => [[b]]
           end
  end.

Definition nonempty_runs (c : byte) (s : list byte) : list (list byte) :=
  filter (λ r, r ≠ []) (fields c s).

(** Runs put back together with the separator between them. *)
Fixpoint join_with (c : byte) (rs : list (list byte)) : list byte :=
  match rs with
  | [] => []
  | [r] => r
  | r :: rs' => r ++ c :: join_with c rs'
  end.

(** The number that a sequence of decimal digits, and a decimal numeral with
    an optional minus sign, stand for. *)
Definition digits_value (ds : list byte) : Z :=
  fold_left (λ acc d, 10 * acc + (Z_of_byte d - 48)) ds 0.

Definition decimal_value (bs : list byte) : Z :=
  match bs with
  | b :: ds => if decide (b = "-"%byte) then - digits_value ds else digits_value bs
  | [] => 0
  end.

(** ** Predicates on objects and heaps *)

Definition capacity (s : STRING_old.t) : Z := capacity_ (STRING_old.header s).

Definition used (s : STRING_old.t) : Z := used_ (STRING_old.header s).

(** The object points at a block of [capacity_] data bytes. *)
Definition block_ok (s : STRING_old.t) : Prop :=
  Z.of_nat (length (STRING_old.cstr s)) = capacity s.

(** ... and the block is small enough that twice the capacity plus the header
    is an [int], so that growing it does not overflow. *)
Definition well_formed (s : STRING_old.t) : Prop :=
  block_ok s /\ 2 * capacity s + sizeof_STRING_HEADER <= INT32_MAX.

(** [used_ > 0] and it is [strlen() + 1]. *)
Definition clean (s : STRING_old.t) : Prop :=
  exists n : nat, find_nul (STRING_old.cstr s) = Some n /\ used s = Z.of_nat n + 1.

(** [used_ < 0]: the length needs to be computed, and can be. *)
Definition dirty (s : STRING_old.t) : Prop :=
  used s < 0 /\ is_Some (find_nul (STRING_old.cstr s)).

(** [used_ > 0], within the block, and the byte at offset [used_ - 1] is the
    terminator. *)
Definition terminated (s : STRING_old.t) : Prop :=
  0 < used s <= capacity s
  /\ STRING_old.cstr s !! Z.to_nat (used s - 1) = Some NUL.

(** A valid header: [used_] is a count within the block, or the dirty
    sentinel over a buffer that has a terminator. *)
Definition header_ok (s : STRING_old.t) : Prop :=
  well_formed s /\ (0 < used s <= capacity s \/ dirty s).

(** A valid header over a buffer that is terminated where the header says,
    or where scanning will find it. *)
Definition terminated_ok (s : STRING_old.t) : Prop :=
  well_formed s /\ (terminated s \/ dirty s).

(** The strings the header comment of [used_] describes: [used_] is
    [strlen() + 1], or negative and the length needs to be computed. *)
Definition valid (s : STRING_old.t) : Prop :=
  well_formed s /\ (clean s \/ dirty s).

(** Address and data bytes of the block the next malloc returns, for [n] data
    bytes after the header. *)
Definition next_addr (h : heap) : Z := fst (supply h (allocs h)).

Definition next_data (h : heap) (n : Z) : list byte :=
  drop (Z.to_nat sizeof_STRING_HEADER)
    (map (snd (supply h (allocs h)))
       (seq 0 (Z.to_nat (n + sizeof_STRING_HEADER)))).

Definition after_malloc (h : heap) : heap :=
  mkHeap (S (allocs h)) (supply h) (freed h).

Definition after_free (addr : Z) (h : heap) : heap :=
  mkHeap (allocs h) (supply h) (addr :: freed h).

(** The object [STRING_old::ensure_cstr] leaves, and the heap after it. *)
Definition ensured (n : Z) (s : STRING_old.t) (h : heap) : STRING_old.t :=
  if n <=? capacity s then s
  else
    let c := Z.max n (2 * capacity s) in
    STRING_old.mk (next_addr h) (mkHeader c (used s))
      (take (Z.to_nat (used s)) (STRING_old.cstr s)
       ++ drop (Z.to_nat (used s)) (next_data h c)).

Definition ensured_heap (n : Z) (s : STRING_old.t) (h : heap) : heap :=
  if n <=? capacity s then h
  else after_free (STRING_old.data_ s) (after_malloc h).

(** The object [STRING_old::FixHeader] leaves. *)
Definition fixed (s : STRING_old.t) : STRING_old.t :=
  if used s <? 0 then
    match find_nul (STRING_old.cstr s) with
    | Some n => STRING_old.set_used (Z.of_nat n + 1) s
    | None => s
    end
  else s.

(** The object [STRING_old::truncate_at] leaves. *)
Definition truncated (k : Z) (x : STRING_old.t) (h : heap) : STRING_old.t :=
  let e := ensured (k + 1) (fixed x) h in
  STRING_old.set_used (k + 1)
    (STRING_old.set_cstr (<[Z.to_nat k := NUL]> (STRING_old.cstr e)) e).

(** Setting the position of a channel ([fseek]). *)
Definition rewind (pos : nat) (fp : FILE) : FILE :=
  mkFILE (f_bytes fp) pos (f_limit fp).

(** The other byte order: that of a machine whose files need swapping. *)
Definition opposite (host : byte_order) : byte_order :=
  match host with LittleEndian => BigEndian | BigEndian => LittleEndian end.

(** ** Sample objects *)

(** A heap that has served two blocks, at 4096 and 8192, and fills the blocks
    it serves with the byte 255. *)
Definition heap0 : heap :=
  mkHeap 2 (fun n => (4096 * Z.of_nat (S n), fun _ => xff)) [].

(** A C string literal. *)
Definition literal (s : string) : list byte := list_byte_of_string s ++ [NUL].

(** The object [STRING_old("abc")] builds. *)
Definition abc : STRING_old.t :=
  STRING_old.mk 4096 (mkHeader 4 4) (literal "abc").

(** The object [STRING_old("hello")] builds. *)
Definition hello : STRING_old.t :=
  STRING_old.mk 8192 (mkHeader 6 6) (literal "hello").

(** A string of 70000 characters, more than [DeSerialize(bool swap, FILE* fp)]
    accepts. *)
Definition long_string : STRING_old.t :=
  STRING_old.mk 4096 (mkHeader 70001 70001)
    (replicate (Z.to_nat 70000) "x"%byte ++ [NUL]).

(** ** The public operations that produce or modify a string *)

(** Constructors, assignments, appends, [operator+] on strings and
    [truncate_at], each with its arguments and, for a mutator, the receiver
    [this].  ([operator+(char)] is treated on its own.) *)
Inductive operation : Type :=
| Construct
| ConstructCopy (str : STRING_old.t)
| ConstructCStr (p : option (list byte))
| ConstructData (p : option (list byte)) (length : Z)
| Assign (str this : STRING_old.t)
| AssignCStr (p : option (list byte)) (this : STRING_old.t)
| AssignData (p : option (list byte)) (len : Z) (this : STRING_old.t)
| Append (str : STRING_old.reference) (this : STRING_old.t)
| AppendCStr (p : option (list byte)) (this : STRING_old.t)
| AppendChar (ch : byte) (this : STRING_old.t)
| Concat (this str : STRING_old.t)
| Truncate (index : Z) (this : STRING_old.t).

(** The string an operation produces or leaves. *)
Definition perform (op : operation) : M STRING_old.t :=
  match op with
  | Construct => STRING_old.new
  | ConstructCopy str => '(r, _) ← STRING_old.new_copy str; mret r
  | ConstructCStr p => STRING_old.new_cstr p
  | ConstructData p length => STRING_old.new_data p length
  | Assign str this => '(r, _) ← STRING_old.operator_assign str this; mret r
  | AssignCStr p this => STRING_old.operator_assign_cstr p this
  | AssignData p len this => STRING_old.assign p len this
  | Append str this => '(r, _) ← STRING_old.operator_add_assign str this; mret r
  | AppendCStr p this => STRING_old.operator_add_assign_cstr p this
  | AppendChar ch this => STRING_old.operator_add_assign_char ch this
  | Concat this str => '(r, _, _) ← STRING_old.operator_add this str; mret r
  | Truncate index this => STRING_old.truncate_at index this
  end.

(** A size that can be doubled, and given a header, within an [int]. *)
Definition fits (n : Z) : Prop :=
  0 <= n /\ 2 * n + sizeof_STRING_HEADER <= INT32_MAX.

(** A C string argument: a null pointer, or an array with a terminator whose
    length with the terminator [fits]. *)
Definition cstring_ok (p : option (list byte)) : Prop :=
  match p with
  | None => True
  | Some src => exists n : nat, find_nul src = Some n /\ fits (Z.of_nat n + 1)
  end.

(** A pointer and length argument: an array of at least [len] bytes, with
    [len + 1] a size that [fits]. *)
Definition data_ok (p : option (list byte)) (len : Z) : Prop :=
  0 <= len <= Z.of_nat (length (pointee p)) /\ fits (len + 1).

(** The invariant of the strings the interface builds: the block matches the
    header, its size with the header is an [int], and [used_] is positive with
    the terminator at offset [used_ - 1], or it is the dirty sentinel over a
    buffer that has a terminator. *)
Definition sound (s : STRING_old.t) : Prop :=
  block_ok s
  /\ capacity s + sizeof_STRING_HEADER <= INT32_MAX
  /\ (terminated s \/ dirty s).

(** The bytes a string holds: the [length()] bytes in front of the terminator
    that the header points at.  They can hold a ['\0'] themselves. *)
Definition content (s : STRING_old.t) : list byte :=
  take (Z.to_nat (used (fixed s) - 1)) (STRING_old.cstr s).

(** The string is terminated and holds the bytes [bs]: the header counts them
    and the terminator that stands behind them. *)
Definition holds (s : STRING_old.t) (bs : list byte) : Prop :=
  block_ok s
  /\ capacity s + sizeof_STRING_HEADER <= INT32_MAX
  /\ used s = Z.of_nat (length bs) + 1
  /\ take (length bs) (STRING_old.cstr s) = bs
  /\ STRING_old.cstr s !! length bs = Some NUL.

(** [ensure_cstr(n)] stays within [int]: the block is kept, or the new size
    with its header is an [int]. *)
Definition room (n : Z) (this : STRING_old.t) : Prop :=
  n <= capacity this
  \/ Z.max n (2 * capacity this) + sizeof_STRING_HEADER <= INT32_MAX.

(** A C string argument: a null pointer, or an array with a terminator whose
    length with terminator and header is an [int]. *)
Definition c_string (p : option (list byte)) : Prop :=
  match p with
  | None => True
  | Some src =>
      exists n : nat,
        find_nul src = Some n
        /\ Z.of_nat n + 1 + sizeof_STRING_HEADER <= INT32_MAX
  end.

(** The receiver of a mutator. *)
Definition receiver (op : operation) : option STRING_old.t :=
  match op with
  | Assign _ this | AssignCStr _ this | AssignData _ _ this | Append _ this
  | AppendCStr _ this | AppendChar _ this | Truncate _ this => Some this
  | _ => None
  end.

(** What an operation asks of its arguments other than the receiver: strings
    are [sound], C strings terminated, data as long as its length says, the
    argument of [operator+=] another object than the receiver, and the sizes
    that the operation computes within [int]. *)
Definition arguments_ok (op : operation) : Prop :=
  match op with
  | Construct => True
  | ConstructCopy str => sound str
  | ConstructCStr p => c_string p
  | ConstructData p length =>
      p = None
      \/ (0 <= length <= Z.of_nat (List.length (pointee p))
          /\ length + 1 + sizeof_STRING_HEADER <= INT32_MAX)
  | Assign str this => sound str /\ room (used (fixed str)) this
  | AssignCStr p this =>
      c_string p
      /\ (forall src, p = Some src ->
          room (Z.of_nat (default 0%nat (find_nul src)) + 1) this)
  | AssignData p len this =>
      0 <= len <= Z.of_nat (List.length (pointee p)) /\ room (len + 1) this
  | Append (STRING_old.Other str) this =>
      sound str
      /\ STRING_old.data_ str <> STRING_old.data_ this
      /\ room (used (fixed this) + used (fixed str)) this
  | Append STRING_old.Self _ => False
  | AppendCStr p this =>
      c_string p
      /\ (forall src, p = Some src ->
          find_nul src = Some 0%nat
          \/ room (used (fixed this)
                   + (Z.of_nat (default 0%nat (find_nul src)) + 1)) this)
  | AppendChar ch this => ch = NUL \/ room (used (fixed this) + 1) this
  | Concat this str =>
      sound this /\ sound str
      /\ Z.max (used (fixed this) + used (fixed str)) (2 * used (fixed this))
         + sizeof_STRING_HEADER <= INT32_MAX
  | Truncate index this => 0 <= index /\ room (index + 1) this
  end.

(** The strings that the interface produces: the result of an operation on
    arguments that are in order, applied, if it is a mutator, to a receiver
    that was produced the same way; [c_str()] and [length()] in between change
    the header only. *)
Inductive produced : STRING_old.t -> Prop :=
| produced_by (op : operation) (h h' : heap) (r : STRING_old.t) :
    (forall this, receiver op = Some this -> produced this) ->
    arguments_ok op ->
    perform op h = Done (r, h') ->
    produced r
| produced_c_str (s s' : STRING_old.t) (h h' : heap) (p : option Z) :
    produced s ->
    STRING_old.c_str s h = Done ((p, s'), h') ->
    produced s'
| produced_length (s s' : STRING_old.t) (h h' : heap) (n : Z) :
    produced s ->
    STRING_old.length s h = Done ((n, s'), h') ->
    produced s'.

(** A bound from below on the capacity after an operation: [kMinCapacity] for
    the default state, the exact size for the other constructors, the capacity
    of the receiver for a mutator. *)
Definition capacity_floor (op : operation) : Z :=
  match op with
  | Construct => kMinCapacity
  | ConstructCopy str => used (fixed str)
  | ConstructCStr None => kMinCapacity
  | ConstructCStr (Some src) => Z.of_nat (default 0%nat (find_nul src)) + 1
  | ConstructData None _ => kMinCapacity
  | ConstructData (Some _) length => length + 1
  | Assign _ this => capacity this
  | AssignCStr None _ => kMinCapacity
  | AssignCStr (Some _) this => capacity this
  | AssignData _ _ this => capacity this
  | Append _ this => capacity this
  | AppendCStr _ this => capacity this
  | AppendChar _ this => capacity this
  | Concat this _ => used (fixed this)
  | Truncate _ this => capacity this
  end.

(** The operations that allocate exactly [capacity_floor] bytes. *)
Definition allocates_exactly (op : operation) : bool :=
  match op with
  | Construct | ConstructCopy _ | ConstructCStr _ | ConstructData _ _
  | AssignCStr None _ => true
  | _ => false
  end.

(** A channel that declares 70000 data bytes and holds them. *)
Definition oversized : TFile :=
  mkTFile (mkFILE (bytes_of_uint32 LittleEndian 70000
                   ++ replicate (Z.to_nat 70000) "x"%byte)
            0 (Z.to_nat 70004)) false.

(** A channel that declares 70000 data bytes and holds none. *)
Definition oversized_short : TFile :=
  mkTFile (mkFILE (bytes_of_uint32 LittleEndian 70000) 0 4) false.

(** What a deserialisation reports: its result, and [used_], [capacity_] and
    [data_] of the receiver afterwards. *)
Definition report {C : Type} (r : outcome (bool * C * STRING_old.t * heap))
    : option (bool * Z * Z * Z) :=
  match r with
  | Done ((ok, _, x), _) => Some (ok, used x, capacity x, STRING_old.data_ x)
  | Crash _ => None
  end.

(** The object [STRING_old("a\0b", 3)] is built from: three bytes of data with
    a ['\0'] among them. *)
Definition a0b : list byte := ["a"; NUL; "b"]%byte.

(** The object [STRING_old("a\0b", 3)] builds on [heap0]. *)
Definition a0b_string : STRING_old.t :=
  STRING_old.mk 12288 (mkHeader 4 4) (a0b ++ [NUL]).

(** The operations that build a new string object: the constructors and
    [operator+]. *)
Definition constructs (op : operation) : bool :=
  match op with
  | Construct | ConstructCopy _ | ConstructCStr _ | ConstructData _ _
  | Concat _ _ => true
  | _ => false
  end.

(** ** Content *)

(** The characters of a C string: the bytes before its first terminator. *)
Definition chars (m : list byte) : list byte :=
  take (default 0%nat (find_nul m)) m.

(** The characters of a string object. *)
Definition text (s : STRING_old.t) : list byte := chars (STRING_old.cstr s).

(** A string that can be read: the block matches the header, its size is an
    [int], and [used_] is [strlen() + 1] or the dirty sentinel over a buffer
    with a terminator.  (A [valid] string can moreover grow.) *)
Definition readable (s : STRING_old.t) : Prop :=
  block_ok s
  /\ capacity s + sizeof_STRING_HEADER <= INT32_MAX
  /\ (clean s \/ dirty s).

(** Blocks allocated less blocks freed between two heap states. *)
Definition live_blocks (h h' : heap) : Z :=
  (Z.of_nat (allocs h') - Z.of_nat (allocs h))
  - (Z.of_nat (length (freed h')) - Z.of_nat (length (freed h))).

(** A computation that, when it returns, has changed the number of live
    blocks by [k]. *)
Definition allocates {A : Type} (k : Z) (m : M A) : Prop :=
  forall h a h', m h = Done (a, h') -> live_blocks h h' = k.

(** The bytes an operation leaves in the string: those of its arguments, put
    together as the operation says.  After [truncate_at(index)] beyond the
    length they are the old bytes, the old terminator and what the block held
    behind it. *)
Definition yields (op : operation) (bs : list byte) : Prop :=
  match op with
  | Construct => bs = []
  | ConstructCopy str => bs = content str
  | ConstructCStr p => bs = chars (pointee p)
  | ConstructData None _ => bs = []
  | ConstructData (Some src) length => bs = take (Z.to_nat length) src
  | Assign str _ => bs = content str
  | AssignCStr p _ => bs = chars (pointee p)
  | AssignData p len _ => bs = take (Z.to_nat len) (pointee p)
  | Append (STRING_old.Other str) this => bs = content this ++ content str
  | Append STRING_old.Self _ => False
  | AppendCStr p this => bs = content this ++ chars (pointee p)
  | AppendChar ch this =>
      bs = content this ++ (if decide (ch = NUL) then [] else [ch])
  | Concat this str => bs = content this ++ content str
  | Truncate index this =>
      List.length bs = Z.to_nat index
      /\ take (List.length (content this) + 1) bs
         = take (Z.to_nat index) (content this ++ [NUL])
  end.

(** * Proofs *)

(** ** Tactics *)

(** Side conditions on sizes: linear arithmetic over the constants. *)
Ltac sizes :=
  unfold sizeof_STRING_HEADER, INT32_MAX, PTRDIFF_MAX, UINT16_MAX in *; lia.

(** A guard of the code, a conjunction of comparisons, that holds. *)
Ltac guard_holds :=
  symmetry; repeat (apply andb_true_intro; split);
  first [apply Z.leb_le | apply Z.ltb_lt]; lia.

(** ** Machine integers in range *)

Lemma wrap32_id z : -2147483648 <= z <= INT32_MAX -> wrap32 z = z.
Proof.
  unfold wrap32, INT32_MAX. intros H.
  rewrite Z.mod_small by lia. lia.
Qed.

Lemma to_size_t_id z : 0 <= z <= PTRDIFF_MAX -> to_size_t z = z.
Proof. unfold to_size_t, PTRDIFF_MAX. intros H. apply Z.mod_small. lia. Qed.

Lemma to_uint32_id z : 0 <= z <= INT32_MAX -> to_uint32 z = z.
Proof. unfold to_uint32, INT32_MAX. intros H. apply Z.mod_small. lia. Qed.

(** ** The monad *)

Lemma bind_done {A B} (m : M A) (k : A -> M B) h a h' :
  m h = Done (a, h') -> (m ≫= k) h = k a h'.
Proof. unfold mbind, M_bind. intros ->. reflexivity. Qed.

Lemma bind_crash {A B} (m : M A) (k : A -> M B) h f :
  m h = Crash f -> (m ≫= k) h = Crash f.
Proof. unfold mbind, M_bind. intros ->. reflexivity. Qed.

(** ** Memory primitives *)

Lemma in_bounds_true i (m : list byte) :
  0 <= i < Z.of_nat (length m) -> in_bounds i m = true.
Proof.
  unfold in_bounds. intros H. apply andb_true_intro.
  split; [apply Z.leb_le|apply Z.ltb_lt]; lia.
Qed.

Lemma store_done (m : list byte) i b h :
  0 <= i < Z.of_nat (length m) ->
  store m i b h = Done (<[Z.to_nat i := b]> m, h).
Proof. intros H. unfold store. rewrite in_bounds_true by done. reflexivity. Qed.

Lemma load_done (m : list byte) i b h :
  0 <= i -> m !! Z.to_nat i = Some b -> load m i h = Done (b, h).
Proof.
  intros H0 H. unfold load. rewrite in_bounds_true, H; [done|].
  apply lookup_lt_Some in H. lia.
Qed.

Lemma memcpy_done (dst src : list byte) doff soff n h :
  0 <= doff -> 0 <= soff -> 0 <= n ->
  doff + n <= Z.of_nat (length dst) -> soff + n <= Z.of_nat (length src) ->
  memcpy dst doff src soff n h =
    Done (take (Z.to_nat doff) dst ++ take (Z.to_nat n) (drop (Z.to_nat soff) src)
          ++ drop (Z.to_nat (doff + n)) dst, h).
Proof.
  intros. unfold memcpy.
  replace (_ && _) with true; [done|].
  guard_holds.
Qed.

Lemma find_nul_app (pre post : list byte) :
  NUL ∉ pre -> find_nul (pre ++ NUL :: post) = Some (length pre).
Proof.
  induction pre as [|b pre IH]; intros Hn; simpl.
  - reflexivity.
  - apply not_elem_of_cons in Hn as [Hb Hn].
    rewrite decide_False by done. rewrite IH by done. reflexivity.
Qed.

Lemma find_nul_Some (m : list byte) n :
  find_nul m = Some n ->
  m !! n = Some NUL /\ (NUL ∉ take n m) /\ (n < length m)%nat.
Proof.
  revert n. induction m as [|b m IH]; intros n; simpl; [done|].
  destruct (decide (b = NUL)) as [->|Hb].
  - intros [= <-]. simpl. split; [done|]. split; [apply not_elem_of_nil|lia].
  - destruct (find_nul m) as [k|] eqn:E; [|done].
    intros [= <-]. destruct (IH k eq_refl) as (H1 & H2 & H3).
    simpl. split; [done|]. split; [|lia].
    apply not_elem_of_cons. split; [congruence|done].
Qed.

Lemma find_nul_intro (m : list byte) n :
  m !! n = Some NUL -> NUL ∉ take n m -> find_nul m = Some n.
Proof.
  intros H1 H2. rewrite <- (take_drop_middle m n NUL) by done.
  rewrite find_nul_app by done. rewrite length_take.
  apply lookup_lt_Some in H1. f_equal. lia.
Qed.

Lemma strlen_done (m : list byte) n h :
  find_nul m = Some n -> strlen m h = Done (Z.of_nat n, h).
Proof. unfold strlen. intros ->. reflexivity. Qed.

(** ** Allocation *)

Lemma next_data_length h n : 0 <= n -> Z.of_nat (length (next_data h n)) = n.
Proof.
  intros H. unfold next_data, sizeof_STRING_HEADER.
  rewrite length_drop, length_map, length_seq. lia.
Qed.

Lemma malloc_block_done n h :
  0 <= n -> n + sizeof_STRING_HEADER <= PTRDIFF_MAX ->
  malloc_block (n + sizeof_STRING_HEADER) h
  = Done ((next_addr h, next_data h n), after_malloc h).
Proof.
  intros H0 H1. unfold malloc_block, malloc, mbind, M_bind, next_addr, next_data.
  replace (_ && _) with true
    by (symmetry; apply andb_true_intro; split; apply Z.leb_le;
        unfold sizeof_STRING_HEADER in *; lia).
  destruct (supply h (allocs h)) as [addr fill]. simpl fst. simpl snd.
  rewrite length_map, length_seq.
  replace (_ <=? _) with true
    by (symmetry; apply Z.leb_le; unfold sizeof_STRING_HEADER in *; lia).
  reflexivity.
Qed.

Lemma AllocData_done u c h :
  0 <= c <= INT32_MAX ->
  STRING_old.AllocData u c h
  = Done (STRING_old.mk (next_addr h) (mkHeader c u) (next_data h c), after_malloc h).
Proof.
  intros H. unfold STRING_old.AllocData.
  rewrite to_size_t_id by sizes.
  erewrite bind_done
    by (apply malloc_block_done; unfold sizeof_STRING_HEADER, PTRDIFF_MAX, INT32_MAX in *; lia).
  reflexivity.
Qed.

Lemma ensure_cstr_done n s h :
  well_formed s -> 0 <= used s <= capacity s ->
  n + sizeof_STRING_HEADER <= INT32_MAX ->
  STRING_old.ensure_cstr n s h
  = Done ((STRING_old.GetCStr (ensured n s h), ensured n s h), ensured_heap n s h).
Proof.
  intros [Hlen Hcap] Hu Hn. unfold block_ok in Hlen.
  unfold STRING_old.ensure_cstr, ensured, ensured_heap, STRING_old.GetHeader.
  fold (capacity s). fold (used s).
  destruct (n <=? capacity s) eqn:E; [reflexivity|].
  apply Z.leb_gt in E.
  unfold sizeof_STRING_HEADER, INT32_MAX in *.
  rewrite (wrap32_id (2 * capacity s)) by sizes.
  assert (Hmax : (if n <? 2 * capacity s then 2 * capacity s else n)
                 = Z.max n (2 * capacity s)).
  { destruct (n <? 2 * capacity s) eqn:E2;
      [apply Z.ltb_lt in E2|apply Z.ltb_ge in E2]; lia. }
  rewrite Hmax. set (c := Z.max n (2 * capacity s)).
  assert (Hc : capacity s < c /\ c + 8 <= 2147483647) by lia.
  rewrite (wrap32_id (8 + c)) by sizes.
  rewrite (to_size_t_id (8 + c)) by sizes.
  replace (8 + c) with (c + sizeof_STRING_HEADER) by (unfold sizeof_STRING_HEADER; lia).
  erewrite bind_done
    by (apply malloc_block_done; unfold sizeof_STRING_HEADER, PTRDIFF_MAX; lia).
  cbn beta iota.
  rewrite (to_size_t_id (used s)) by sizes.
  pose proof (next_data_length h c ltac:(lia)) as Hnd.
  erewrite bind_done by (apply memcpy_done; lia).
  unfold STRING_old.DiscardData.
  reflexivity.
Qed.

(** ** Projections of updated objects *)

Lemma capacity_mk a c u m : capacity (STRING_old.mk a (mkHeader c u) m) = c.
Proof. reflexivity. Qed.

Lemma used_mk a c u m : used (STRING_old.mk a (mkHeader c u) m) = u.
Proof. reflexivity. Qed.

Lemma capacity_set_used u s : capacity (STRING_old.set_used u s) = capacity s.
Proof. reflexivity. Qed.

Lemma used_set_used u s : used (STRING_old.set_used u s) = u.
Proof. reflexivity. Qed.

Lemma cstr_set_used u s :
  STRING_old.cstr (STRING_old.set_used u s) = STRING_old.cstr s.
Proof. reflexivity. Qed.

Lemma data_set_used u s :
  STRING_old.data_ (STRING_old.set_used u s) = STRING_old.data_ s.
Proof. reflexivity. Qed.

Lemma capacity_set_cstr m s : capacity (STRING_old.set_cstr m s) = capacity s.
Proof. reflexivity. Qed.

Lemma used_set_cstr m s : used (STRING_old.set_cstr m s) = used s.
Proof. reflexivity. Qed.

Lemma cstr_set_cstr m s : STRING_old.cstr (STRING_old.set_cstr m s) = m.
Proof. reflexivity. Qed.

Lemma data_set_cstr m s :
  STRING_old.data_ (STRING_old.set_cstr m s) = STRING_old.data_ s.
Proof. reflexivity. Qed.

Lemma used_header s : used_ (STRING_old.GetHeader s) = used s.
Proof. reflexivity. Qed.

Lemma capacity_header s : capacity_ (STRING_old.GetHeader s) = capacity s.
Proof. reflexivity. Qed.

Create Rewrite HintDb obj.
#[global] Hint Rewrite capacity_mk used_mk capacity_set_used used_set_used
  cstr_set_used data_set_used capacity_set_cstr used_set_cstr cstr_set_cstr
  data_set_cstr used_header capacity_header : obj.

Lemma ensured_used n s h : used (ensured n s h) = used s.
Proof. unfold ensured. destruct (n <=? capacity s); reflexivity. Qed.

Lemma ensured_capacity n s h :
  n <= capacity (ensured n s h) /\ capacity s <= capacity (ensured n s h).
Proof.
  unfold ensured. destruct (n <=? capacity s) eqn:E.
  - apply Z.leb_le in E. lia.
  - apply Z.leb_gt in E. rewrite capacity_mk. lia.
Qed.

Lemma ensured_block_ok n s h :
  block_ok s -> 0 <= used s <= capacity s -> block_ok (ensured n s h).
Proof.
  unfold block_ok, ensured. intros Hb Hu.
  destruct (n <=? capacity s) eqn:E; [done|].
  apply Z.leb_gt in E. rewrite capacity_mk.
  cbn [STRING_old.cstr].
  assert (H0 : 0 <= Z.max n (2 * capacity s)) by lia.
  pose proof (next_data_length h _ H0).
  rewrite length_app, length_take, length_drop. lia.
Qed.

Lemma ensured_take n s h (k : nat) :
  block_ok s -> 0 <= used s <= capacity s -> Z.of_nat k <= used s ->
  take k (STRING_old.cstr (ensured n s h)) = take k (STRING_old.cstr s).
Proof.
  unfold block_ok, ensured. intros Hb Hu Hk.
  destruct (n <=? capacity s) eqn:E; [done|]. simpl.
  rewrite take_app_le by (rewrite length_take; lia).
  rewrite take_take. f_equal. lia.
Qed.

Lemma ensured_lookup n s h (i : nat) :
  block_ok s -> 0 <= used s <= capacity s -> Z.of_nat i < used s ->
  STRING_old.cstr (ensured n s h) !! i = STRING_old.cstr s !! i.
Proof.
  intros Hb Hu Hi.
  rewrite <- (lookup_take_lt (STRING_old.cstr (ensured n s h)) (S i) i) by lia.
  rewrite ensured_take by (done || lia).
  apply lookup_take_lt. lia.
Qed.

Lemma ensured_keep n s h :
  n <= capacity s -> ensured n s h = s /\ ensured_heap n s h = h.
Proof.
  intros H. unfold ensured, ensured_heap.
  apply Z.leb_le in H. rewrite H. done.
Qed.

(** ** Repairing the header *)

Lemma FixHeader_done s h :
  header_ok s -> STRING_old.FixHeader s h = Done (fixed s, h).
Proof.
  intros [[Hb Hr] Hu]. unfold STRING_old.FixHeader, fixed, STRING_old.GetHeader.
  fold (used s). destruct (used s <? 0) eqn:E; [|reflexivity].
  apply Z.ltb_lt in E. destruct Hu as [Hu|[_ [n Hn]]]; [lia|].
  rewrite Hn. erewrite bind_done by (apply strlen_done; exact Hn).
  apply find_nul_Some in Hn as (_ & _ & Hlt).
  unfold block_ok, sizeof_STRING_HEADER, INT32_MAX in *.
  rewrite wrap32_id by sizes. reflexivity.
Qed.

Lemma fixed_cstr s : STRING_old.cstr (fixed s) = STRING_old.cstr s.
Proof.
  unfold fixed. destruct (used s <? 0); [|done].
  destruct (find_nul _); done.
Qed.

Lemma fixed_capacity s : capacity (fixed s) = capacity s.
Proof.
  unfold fixed. destruct (used s <? 0); [|done].
  destruct (find_nul _); done.
Qed.

Lemma fixed_well_formed s : well_formed s -> well_formed (fixed s).
Proof.
  unfold well_formed, block_ok. rewrite fixed_cstr, fixed_capacity. done.
Qed.

Lemma fixed_used s :
  header_ok s -> 0 < used (fixed s) <= capacity s.
Proof.
  intros [[Hb Hr] Hu]. unfold fixed.
  destruct (used s <? 0) eqn:E.
  - apply Z.ltb_lt in E. destruct Hu as [Hu|[_ [n Hn]]]; [lia|].
    rewrite Hn. apply find_nul_Some in Hn as (_ & _ & Hlt).
    unfold block_ok in Hb. rewrite used_set_used. lia.
  - apply Z.ltb_ge in E. destruct Hu as [Hu|[Hu _]]; lia.
Qed.

Lemma fixed_positive s : 0 < used s -> fixed s = s.
Proof.
  intros H. unfold fixed. destruct (used s <? 0) eqn:E; [|done].
  apply Z.ltb_lt in E. lia.
Qed.

Lemma fixed_dirty s n :
  used s < 0 -> find_nul (STRING_old.cstr s) = Some n ->
  fixed s = STRING_old.set_used (Z.of_nat n + 1) s.
Proof.
  intros H Hn. unfold fixed. rewrite Hn.
  destruct (used s <? 0) eqn:E; [done|]. apply Z.ltb_ge in E. lia.
Qed.

Lemma fixed_clean s : valid s -> clean (fixed s).
Proof.
  intros [Hw [Hc|[Hd [n Hn]]]].
  - destruct Hc as (n & Hn & Hu). rewrite fixed_positive by lia. exists n. done.
  - rewrite (fixed_dirty s n) by done. exists n. done.
Qed.

Lemma clean_terminated s : block_ok s -> clean s -> terminated s.
Proof.
  intros Hb (n & Hn & Hu). apply find_nul_Some in Hn as (H1 & _ & Hlt).
  unfold terminated, block_ok in *. rewrite Hu. split; [lia|].
  replace (Z.to_nat (Z.of_nat n + 1 - 1)) with n by lia. done.
Qed.

Lemma valid_header_ok s : valid s -> header_ok s.
Proof.
  intros [Hw [Hc|Hd]]; split; try done; [left|by right].
  apply clean_terminated in Hc as [Hc _]; [done|apply Hw].
Qed.

(** ** Length *)

Lemma length_done s h :
  header_ok s ->
  STRING_old.length s h = Done ((used (fixed s) - 1, fixed s), h).
Proof.
  intros Hs. unfold STRING_old.length.
  erewrite bind_done by (apply FixHeader_done; exact Hs).
  pose proof (fixed_used s Hs) as Hu. destruct Hs as [[Hb Hr] _].
  unfold block_ok, sizeof_STRING_HEADER, INT32_MAX in *.
  rewrite used_header, wrap32_id by sizes. reflexivity.
Qed.

Lemma length_positive s h :
  0 < used s <= INT32_MAX ->
  STRING_old.length s h = Done ((used s - 1, s), h).
Proof.
  intros Hu. unfold STRING_old.length, STRING_old.FixHeader.
  rewrite used_header. destruct (used s <? 0) eqn:E; [apply Z.ltb_lt in E; lia|].
  erewrite bind_done by reflexivity.
  rewrite used_header, wrap32_id by (unfold INT32_MAX in *; lia). reflexivity.
Qed.

(** ** C5: ensure_cstr *)

(** C5. For a buffer whose [used_] is a count within the block, with sizes
    in the range of [int]:
    when [min_capacity <= capacity_], [ensure_cstr] returns the existing data
    pointer and changes neither the object nor the heap; otherwise the new
    capacity is [max(min_capacity, 2 * capacity_)], the first [used_] bytes of
    the data are those of the old block, [used_] is unchanged, one block has
    been allocated and the old one freed. *)
Theorem ensure_cstr_spec (s : STRING_old.t) (min_capacity : Z) (h : heap)
    (Hwf : well_formed s) (Hused : 0 <= used s <= capacity s)
    (Hfit : min_capacity + sizeof_STRING_HEADER <= INT32_MAX) :
  (min_capacity <= capacity s ->
   STRING_old.ensure_cstr min_capacity s h
   = Done ((STRING_old.GetCStr s, s), h))
  /\ (capacity s < min_capacity ->
      exists s' h',
        STRING_old.ensure_cstr min_capacity s h
        = Done ((STRING_old.GetCStr s', s'), h')
        /\ capacity s' = Z.max min_capacity (2 * capacity s)
        /\ block_ok s'
        /\ take (Z.to_nat (used s)) (STRING_old.cstr s')
           = take (Z.to_nat (used s)) (STRING_old.cstr s)
        /\ used s' = used s
        /\ allocs h' = S (allocs h)
        /\ freed h' = STRING_old.data_ s :: freed h).
Proof.
  split; intros Hc.
  - rewrite ensure_cstr_done by done.
    destruct (ensured_keep min_capacity s h Hc) as [-> ->]. reflexivity.
  - exists (ensured min_capacity s h), (ensured_heap min_capacity s h).
    split; [by apply ensure_cstr_done|].
    split.
    { unfold ensured. destruct (min_capacity <=? capacity s) eqn:E;
        [apply Z.leb_le in E; lia|]. apply capacity_mk. }
    split; [apply ensured_block_ok; [apply Hwf|done]|].
    split; [apply ensured_take; [apply Hwf|done|lia]|].
    split; [apply ensured_used|].
    unfold ensured_heap. destruct (min_capacity <=? capacity s) eqn:E;
      [apply Z.leb_le in E; lia|]. done.
Qed.

Lemma abc_well_formed : well_formed abc.
Proof. split; [reflexivity|]. vm_compute. discriminate. Qed.

Lemma ensure_cstr_spec_witness :
  STRING_old.ensure_cstr 3 abc heap0 = Done ((STRING_old.GetCStr abc, abc), heap0)
  /\ exists s' h',
       STRING_old.ensure_cstr 10 abc heap0 = Done ((STRING_old.GetCStr s', s'), h')
       /\ capacity s' = 10
       /\ take 4 (STRING_old.cstr s') = literal "abc".
Proof.
  split.
  - apply (ensure_cstr_spec abc 3 heap0 abc_well_formed); vm_compute; try split; congruence.
  - destruct (ensure_cstr_spec abc 10 heap0 abc_well_formed) as [_ H];
      [vm_compute; split; congruence|vm_compute; congruence|].
    destruct H as (s' & h' & H1 & H2 & _ & H4 & _); [reflexivity|].
    exists s', h'. split; [exact H1|]. split; [exact H2|exact H4].
Defined.

(** ** Byte order *)

Lemma Z_of_byte_of_Z z : Z_of_byte (byte_of_Z z) = z mod 256.
Proof.
  unfold Z_of_byte, byte_of_Z.
  assert (Hm : 0 <= z mod 256 < 256) by (apply Z.mod_pos_bound; lia).
  destruct (Byte.of_N (Z.to_N (z mod 256))) as [b|] eqn:E.
  - apply Byte.to_of_N in E. simpl. rewrite E. lia.
  - apply Byte.of_N_None_iff in E. lia.
Qed.

Lemma bytes_of_uint32_length host v : length (bytes_of_uint32 host v) = 4%nat.
Proof. destruct host; reflexivity. Qed.

Lemma uint32_of_bytes_of_uint32 host v :
  0 <= v < 4294967296 -> uint32_of_bytes host (bytes_of_uint32 host v) = v.
Proof.
  intros Hv.
  assert (E : Z_of_byte (byte_of_Z v) + 256 * Z_of_byte (byte_of_Z (v / 256))
              + 65536 * Z_of_byte (byte_of_Z (v / 65536))
              + 16777216 * Z_of_byte (byte_of_Z (v / 16777216)) = v).
  { rewrite !Z_of_byte_of_Z.
    pose proof (Z.div_mod v 256 ltac:(lia)).
    pose proof (Z.div_mod (v / 256) 256 ltac:(lia)).
    pose proof (Z.div_mod (v / 256 / 256) 256 ltac:(lia)).
    pose proof (Z.mod_pos_bound v 256 ltac:(lia)).
    pose proof (Z.mod_pos_bound (v / 256) 256 ltac:(lia)).
    pose proof (Z.mod_pos_bound (v / 256 / 256) 256 ltac:(lia)).
    replace (v / 65536) with (v / 256 / 256) by (rewrite Z.div_div by lia; done).
    replace (v / 16777216) with (v / 256 / 256 / 256)
      by (rewrite !Z.div_div by lia; done).
    assert (0 <= v / 256 / 256 / 256 < 256).
    { split; [repeat apply Z.div_pos; lia|].
      rewrite !Z.div_div by lia. apply Z.div_lt_upper_bound; lia. }
    rewrite (Z.mod_small (v / 256 / 256 / 256)) by lia. lia. }
  destruct host; exact E.
Qed.

(** ** Channels *)

Lemma fwrite_done (data : list byte) (fp : FILE) :
  (f_pos fp + length data <= f_limit fp)%nat ->
  fwrite data fp
  = (true, mkFILE (resize (f_pos fp) NUL (f_bytes fp) ++ data
                   ++ drop (f_pos fp + length data) (f_bytes fp))
                  (f_pos fp + length data) (f_limit fp)).
Proof.
  intros H. unfold fwrite.
  rewrite take_ge by lia. rewrite bool_decide_eq_true_2 by lia. reflexivity.
Qed.

Lemma fread_at (pre data post : list byte) (n pos limit : nat) :
  length pre = pos -> length data = n ->
  fread n (mkFILE (pre ++ data ++ post) pos limit)
  = (data, mkFILE (pre ++ data ++ post) (pos + n) limit).
Proof.
  intros <- <-. unfold fread. simpl.
  rewrite drop_app_length, take_app_length. reflexivity.
Qed.

Lemma FixHeader_nonneg s h : 0 <= used s -> STRING_old.FixHeader s h = Done (s, h).
Proof.
  intros H. unfold STRING_old.FixHeader. rewrite used_header.
  destruct (used s <? 0) eqn:E; [apply Z.ltb_lt in E; lia|reflexivity].
Qed.

Lemma memcmp_eq_done (p q : list byte) n h :
  0 <= n -> n <= Z.of_nat (length p) -> n <= Z.of_nat (length q) ->
  memcmp_eq p q n h = Done (bool_decide (take (Z.to_nat n) p = take (Z.to_nat n) q), h).
Proof.
  intros. unfold memcmp_eq. replace (_ && _) with true; [done|].
  guard_holds.
Qed.

Lemma memread_done (m : list byte) n h :
  0 <= n -> n <= Z.of_nat (length m) ->
  STRING_old.memread m n h = Done (take (Z.to_nat n) m, h).
Proof.
  intros. unfold STRING_old.memread. replace (_ && _) with true; [done|].
  guard_holds.
Qed.

(** ** Truncation, as a function *)

Lemma truncate_at_done x k h :
  header_ok x -> 0 <= k -> k + 1 + sizeof_STRING_HEADER <= INT32_MAX ->
  STRING_old.truncate_at k x h
  = Done (truncated k x h, ensured_heap (k + 1) (fixed x) h).
Proof.
  intros Hx Hk Hfit.
  pose proof (fixed_used x Hx) as Hu.
  pose proof (fixed_well_formed x (proj1 Hx)) as Hw.
  assert (Hu' : 0 <= used (fixed x) <= capacity (fixed x))
    by (rewrite fixed_capacity; lia).
  pose proof (ensured_capacity (k + 1) (fixed x) h) as [Hc1 _].
  pose proof (ensured_block_ok (k + 1) (fixed x) h (proj1 Hw) Hu') as Hb.
  unfold block_ok in Hb.
  unfold STRING_old.truncate_at, truncated.
  destruct (k <? 0) eqn:E; [apply Z.ltb_lt in E; lia|].
  erewrite bind_done by (apply FixHeader_done; exact Hx).
  unfold sizeof_STRING_HEADER in *.
  rewrite wrap32_id by lia.
  erewrite bind_done
    by (apply ensure_cstr_done; [exact Hw|exact Hu'|sizes]).
  cbn beta iota.
  erewrite bind_done by (apply store_done; lia).
  reflexivity.
Qed.

Lemma truncated_used k x h : used (truncated k x h) = k + 1.
Proof. reflexivity. Qed.

Lemma truncated_capacity k x h :
  k + 1 <= capacity (truncated k x h) /\ capacity x <= capacity (truncated k x h).
Proof.
  unfold truncated. autorewrite with obj.
  rewrite <- (fixed_capacity x) at 1. apply ensured_capacity.
Qed.

Lemma ensured_capacity_le n s h :
  block_ok s -> 2 * capacity s + 8 <= 2147483647 -> n + 8 <= 2147483647 ->
  capacity (ensured n s h) + 8 <= 2147483647.
Proof.
  unfold block_ok, ensured. intros Hb Hr Hn.
  destruct (n <=? capacity s); [lia|]. rewrite capacity_mk. lia.
Qed.

Lemma truncated_block_ok k x h : header_ok x -> block_ok (truncated k x h).
Proof.
  intros Hx. pose proof (fixed_used x Hx) as Hu.
  pose proof (fixed_well_formed x (proj1 Hx)) as Hw.
  unfold block_ok, truncated.
  autorewrite with obj.
  rewrite length_insert. apply ensured_block_ok; [apply Hw|].
  rewrite fixed_capacity. lia.
Qed.

Lemma truncated_terminator k x h :
  header_ok x -> 0 <= k ->
  STRING_old.cstr (truncated k x h) !! Z.to_nat k = Some NUL.
Proof.
  intros Hx Hk. pose proof (truncated_block_ok k x h Hx) as Hb.
  pose proof (truncated_capacity k x h) as [Hc _].
  unfold block_ok in Hb. revert Hb Hc. unfold truncated.
  autorewrite with obj.
  rewrite length_insert. intros Hb Hc.
  apply list_lookup_insert_eq. lia.
Qed.

Lemma truncated_take k x h :
  header_ok x -> 0 <= k -> k <= used (fixed x) - 1 ->
  take (Z.to_nat k) (STRING_old.cstr (truncated k x h))
  = take (Z.to_nat k) (STRING_old.cstr x).
Proof.
  intros Hx Hk Hkn. pose proof (fixed_used x Hx) as Hu.
  pose proof (fixed_well_formed x (proj1 Hx)) as Hw.
  unfold truncated. autorewrite with obj.
  rewrite take_insert_ge by lia.
  rewrite ensured_take; [by rewrite fixed_cstr|apply Hw|rewrite fixed_capacity; lia|lia].
Qed.

(** ** C4: truncate_at *)

(** C4. For a string [x] with a valid header whose [length()] is [n], and an
    index [k >= 0] (with [k + 1] and the header together an [int]):
    [truncate_at(k)] returns, [length()] of the result is [k] and the byte
    at offset [k] is the terminator, whether [k <= n] or [k > n]; when
    [k <= n] the first [k] bytes are those [x] had. *)
Theorem truncate_at_spec (x : STRING_old.t) (k : Z) (h : heap)
    (Hx : header_ok x) (Hk : 0 <= k)
    (Hfit : k + 1 + sizeof_STRING_HEADER <= INT32_MAX) :
  exists n x0 x' h',
    STRING_old.length x h = Done ((n, x0), h)
    /\ STRING_old.truncate_at k x h = Done (x', h')
    /\ STRING_old.length x' h' = Done ((k, x'), h')
    /\ STRING_old.cstr x' !! Z.to_nat k = Some NUL
    /\ (k <= n ->
        take (Z.to_nat k) (STRING_old.cstr x')
        = take (Z.to_nat k) (STRING_old.cstr x)).
Proof.
  exists (used (fixed x) - 1), (fixed x), (truncated k x h),
    (ensured_heap (k + 1) (fixed x) h).
  split; [by apply length_done|].
  split; [by apply truncate_at_done|].
  split.
  { rewrite length_positive
      by (rewrite truncated_used; unfold sizeof_STRING_HEADER in *; lia).
    rewrite truncated_used. do 3 f_equal. lia. }
  split; [by apply truncated_terminator|].
  intros Hkn. by apply truncated_take.
Qed.

Lemma truncate_at_spec_witness :
  exists n x0 x' h',
    STRING_old.length abc heap0 = Done ((n, x0), heap0)
    /\ STRING_old.truncate_at 2 abc heap0 = Done (x', h')
    /\ STRING_old.length x' h' = Done ((2, x'), h')
    /\ STRING_old.cstr x' !! Z.to_nat 2 = Some NUL
    /\ (2 <= n ->
        take (Z.to_nat 2) (STRING_old.cstr x')
        = take (Z.to_nat 2) (STRING_old.cstr abc)).
Proof.
  apply (truncate_at_spec abc 2 heap0).
  - split; [exact abc_well_formed|]. left. vm_compute. split; congruence.
  - lia.
  - vm_compute. congruence.
Defined.

(** ** A terminator written into the data *)

Lemma find_nul_insert (m : list byte) (n j : nat) :
  find_nul m = Some n -> (j <= n)%nat -> find_nul (<[j := NUL]> m) = Some j.
Proof.
  intros Hn Hj. apply find_nul_Some in Hn as (H1 & H2 & H3).
  apply find_nul_intro.
  - apply list_lookup_insert_eq. lia.
  - rewrite take_insert_ge by lia. intros Hin. apply H2.
    rewrite <- (take_drop j (take n m)). apply elem_of_app. left.
    rewrite take_take. by replace (j `min` n)%nat with j by lia.
Qed.

Lemma abc_valid : valid abc.
Proof. split; [exact abc_well_formed|]. left. exists 3%nat. split; reflexivity. Qed.

(** ** C8: appending nothing *)

(** C8. Appending a null C-string pointer, an empty C string (whatever
    follows its terminator) or the character ['\0'] with [operator+=] returns
    at once: the object and the heap are the ones before the call, so content
    and length are the same and nothing was allocated. *)
Theorem append_nothing_is_identity (x : STRING_old.t) (rest : list byte) (h : heap) :
  STRING_old.operator_add_assign_cstr None x h = Done (x, h)
  /\ STRING_old.operator_add_assign_cstr (Some (NUL :: rest)) x h = Done (x, h)
  /\ STRING_old.operator_add_assign_char NUL x h = Done (x, h).
Proof. repeat split; reflexivity. Qed.

(** ** C10: contains *)

Lemma strchr_found_spec (m : list byte) (c : byte) (n : nat) (h : heap) :
  find_nul m = Some n -> c <> NUL ->
  strchr_found m c h = Done (bool_decide (c ∈ take n m), h).
Proof.
  revert n. induction m as [|b m IH]; intros n; simpl; [done|].
  destruct (decide (b = NUL)) as [->|Hb].
  - intros [= <-] Hc. rewrite decide_False by congruence.
    rewrite bool_decide_eq_false_2; [done|]. apply not_elem_of_nil.
  - destruct (find_nul m) as [k|] eqn:E; [|done].
    intros [= <-] Hc. simpl. destruct (decide (b = c)) as [->|Hbc].
    + rewrite bool_decide_eq_true_2; [done|]. apply elem_of_cons. by left.
    + rewrite (IH k) by done. do 2 f_equal.
      apply bool_decide_ext. rewrite elem_of_cons.
      split; [by right|]. intros [->|Hin]; [done|exact Hin].
Qed.

(** C10. For a string whose buffer has its first terminator at offset [n]:
    [contains(c)] is [false] when [c] is ['\0'], and otherwise [true] exactly
    when [c] is one of the [n] bytes before the terminator. *)
Theorem contains_spec (s : STRING_old.t) (c : byte) (n : nat) (h : heap)
    (Hn : find_nul (STRING_old.cstr s) = Some n) :
  STRING_old.contains c s h
  = Done (bool_decide (c <> NUL /\ c ∈ take n (STRING_old.cstr s)), h)
  /\ (c = NUL -> STRING_old.contains c s h = Done (false, h)).
Proof.
  unfold STRING_old.contains. destruct (decide (c = NUL)) as [->|Hc].
  - split; [|done]. rewrite bool_decide_eq_false_2; [done|]. by intros [? _].
  - split; [|done]. rewrite (strchr_found_spec _ _ n) by done.
    do 2 f_equal. apply bool_decide_ext. split; [done|]. by intros [_ Hin].
Qed.

Lemma contains_spec_witness :
  STRING_old.contains "b"%byte abc heap0
  = Done (bool_decide ("b"%byte <> NUL /\ "b"%byte ∈ take 3 (STRING_old.cstr abc)), heap0)
  /\ ("b"%byte = NUL -> STRING_old.contains "b"%byte abc heap0 = Done (false, heap0)).
Proof. apply (contains_spec abc "b"%byte 3 heap0). reflexivity. Defined.

(** ** C7: split *)

Lemma fields_no_sep (c : byte) (cur : list byte) :
  c ∉ cur -> fields c cur = [cur].
Proof.
  induction cur as [|b cur IH]; intros Hc; [done|].
  apply not_elem_of_cons in Hc as [Hb Hc]. simpl.
  rewrite decide_False by congruence. by rewrite IH.
Qed.

Lemma fields_app_sep (c : byte) (cur suf : list byte) :
  c ∉ cur -> fields c (cur ++ c :: suf) = cur :: fields c suf.
Proof.
  induction cur as [|b cur IH]; intros Hc; simpl.
  - by rewrite decide_True.
  - apply not_elem_of_cons in Hc as [Hb Hc].
    rewrite decide_False by congruence. by rewrite IH.
Qed.

Lemma nonempty_runs_no_sep (c : byte) (cur : list byte) :
  c ∉ cur -> nonempty_runs c cur = if decide (cur = []) then [] else [cur].
Proof.
  intros Hc. unfold nonempty_runs. rewrite fields_no_sep by done.
  destruct (decide (cur = [])) as [->|Hne]; [done|].
  rewrite filter_cons_True by done. done.
Qed.

Lemma nonempty_runs_app_sep (c : byte) (cur suf : list byte) :
  c ∉ cur ->
  nonempty_runs c (cur ++ c :: suf)
  = (if decide (cur = []) then [] else [cur]) ++ nonempty_runs c suf.
Proof.
  intros Hc. unfold nonempty_runs. rewrite fields_app_sep by done.
  destruct (decide (cur = [])) as [->|Hne].
  - rewrite filter_cons_False by (intros H; by apply H). done.
  - rewrite filter_cons_True by done. done.
Qed.

Lemma from_data_done (buf : list byte) off n h :
  0 <= off -> 0 <= n -> off + n <= Z.of_nat (length buf) ->
  STRING.from_data buf off n h
  = Done (take (Z.to_nat n) (drop (Z.to_nat off) buf), h).
Proof.
  intros. unfold STRING.from_data.
  replace (_ && _) with true; [done|].
  guard_holds.
Qed.

Lemma slice_insert_after (l k : list byte) (st n i : nat) (x : byte) :
  (st + n <= i)%nat -> (i <= length l)%nat ->
  take n (drop st (<[i := x]> l ++ k)) = take n (drop st l).
Proof.
  intros H1 H2. rewrite !take_drop_commute.
  rewrite take_app_le by (rewrite length_insert; lia).
  by rewrite take_insert_ge by lia.
Qed.

Lemma split_loop_spec (c : byte) (suf pre cur : list byte)
    (acc : list (list byte)) (h : heap) :
  c ∉ cur ->
  Z.of_nat (length (pre ++ cur ++ suf)) <= INT32_MAX ->
  exists (st : nat) (acc' : list (list byte)),
    STRING.split_loop (length suf) c (Z.of_nat (length pre + length cur))
      (Z.of_nat (length pre)) (pre ++ cur ++ suf) acc h
    = Done ((Z.of_nat st, pre ++ cur ++ suf, acc'), h)
    /\ (st <= length (pre ++ cur ++ suf))%nat
    /\ acc' ++ (if decide (st = length (pre ++ cur ++ suf)) then []
                else [drop st (pre ++ cur ++ suf)])
       = acc ++ nonempty_runs c (cur ++ suf).
Proof.
  revert pre cur acc. induction suf as [|b suf IH]; intros pre cur acc Hc Hlen.
  - exists (length pre), acc. simpl. rewrite !app_nil_r.
    split; [done|]. split; [rewrite length_app; lia|].
    rewrite nonempty_runs_no_sep by done. rewrite drop_app_length.
    f_equal. destruct cur as [|b cur].
    + rewrite app_nil_r. rewrite decide_True by done. by rewrite decide_True.
    + rewrite decide_False by (rewrite length_app; simpl; lia).
      by rewrite decide_False.
  - set (this := pre ++ cur ++ b :: suf) in *.
    assert (Hthis : this !! (length pre + length cur)%nat = Some b).
    { unfold this. rewrite app_assoc.
      rewrite lookup_app_r by (rewrite length_app; lia).
      rewrite length_app. by replace (_ - _)%nat with 0%nat by lia. }
    assert (Hl : length this = (length pre + length cur + S (length suf))%nat).
    { unfold this. rewrite !length_app. simpl. lia. }
    cbn [STRING.split_loop length].
    erewrite bind_done
      by (apply load_done; [lia|by rewrite Nat2Z.id]).
    destruct (decide (b = c)) as [->|Hbc].
    + (* a separator *)
      assert (Hnext : pre ++ cur ++ c :: suf = (pre ++ cur ++ [c]) ++ [] ++ suf).
      { rewrite <- !app_assoc. done. }
      destruct (IH (pre ++ cur ++ [c]) []
                  (acc ++ if decide (cur = []) then [] else [cur]))
        as (st & acc' & Hrun & Hst & Hres).
      { apply not_elem_of_nil. }
      { rewrite <- Hnext. done. }
      rewrite <- Hnext in Hrun, Hst, Hres. fold this in Hrun, Hst, Hres.
      replace (Z.of_nat (length (pre ++ cur ++ [c]) + length (@nil byte)))
        with (Z.of_nat (length pre + length cur) + 1) in Hrun
        by (rewrite !length_app; simpl; lia).
      replace (Z.of_nat (length (pre ++ cur ++ [c])))
        with (Z.of_nat (length pre + length cur) + 1) in Hrun
        by (rewrite !length_app; simpl; lia).
      exists st, acc'. split; [|split; [done|]].
      * destruct (decide (cur = [])) as [->|Hne].
        -- change (length (@nil byte)) with 0%nat in *.
           rewrite Nat.add_0_r in Hrun. rewrite Nat.add_0_r.
           rewrite Z.eqb_refl. cbn [negb].
           erewrite bind_done by reflexivity. cbn beta iota.
           rewrite app_nil_r in Hrun. exact Hrun.
        -- assert (Hcl : (0 < length cur)%nat) by (destruct cur; [done|simpl; lia]).
           replace (Z.of_nat (length pre + length cur) =? Z.of_nat (length pre))
             with false by (symmetry; apply Z.eqb_neq; lia).
           cbn [negb].
           erewrite bind_done.
           2:{ erewrite bind_done by (apply store_done; lia).
               rewrite wrap32_id by (unfold INT32_MAX in *; lia).
               rewrite to_size_t_id by (unfold INT32_MAX, PTRDIFF_MAX in *; lia).
               erewrite bind_done.
               2:{ apply from_data_done; [lia|lia|].
                   unfold STRING.c_str. rewrite length_app, length_insert. simpl. lia. }
               erewrite bind_done
                 by (apply store_done; rewrite length_insert; lia).
               reflexivity. }
           cbn beta iota.
           rewrite list_insert_insert_eq, list_insert_id
             by (by rewrite Nat2Z.id).
           unfold STRING.c_str.
           replace (Z.to_nat (Z.of_nat (length pre + length cur) - Z.of_nat (length pre)))
             with (length cur) by lia.
           rewrite Nat2Z.id, Nat2Z.id.
           rewrite slice_insert_after by lia.
           unfold this at 2. rewrite drop_app_length, take_app_length.
           exact Hrun.
      * rewrite Hres. rewrite nonempty_runs_app_sep by done.
        by rewrite <- app_assoc.
    + (* an ordinary character *)
      assert (Hnext : pre ++ cur ++ b :: suf = pre ++ (cur ++ [b]) ++ suf).
      { rewrite <- !app_assoc. done. }
      destruct (IH pre (cur ++ [b]) acc) as (st & acc' & Hrun & Hst & Hres).
      { rewrite not_elem_of_app. split; [done|].
        apply not_elem_of_cons. split; [congruence|apply not_elem_of_nil]. }
      { rewrite <- Hnext. done. }
      rewrite <- Hnext in Hrun, Hst, Hres. fold this in Hrun, Hst, Hres.
      replace (Z.of_nat (length pre + length (cur ++ [b])))
        with (Z.of_nat (length pre + length cur) + 1) in Hrun
        by (rewrite !length_app; simpl; lia).
      exists st, acc'. split; [exact Hrun|]. split; [done|].
      rewrite Hres. by rewrite <- app_assoc.
Qed.

(** [fields] cuts at the separators and nowhere else: no run holds a
    separator, and the runs joined by separators are the string. *)
Lemma fields_sep_free (c : byte) (s : list byte) :
  Forall (λ r, c ∉ r) (fields c s).
Proof.
  induction s as [|b s IH]; simpl.
  - constructor; [apply not_elem_of_nil|constructor].
  - destruct (decide (b = c)) as [->|Hb].
    + constructor; [apply not_elem_of_nil|exact IH].
    + destruct (fields c s) as [|r rs].
      { constructor; [|constructor].
        apply not_elem_of_cons. split; [congruence|apply not_elem_of_nil]. }
      inversion IH as [|? ? Hr Hrs]; subst.
      constructor; [|exact Hrs].
      apply not_elem_of_cons. split; [congruence|exact Hr].
Qed.

Lemma fields_nonnil (c : byte) (s : list byte) : fields c s <> [].
Proof.
  destruct s as [|b s]; simpl; [done|].
  destruct (decide (b = c)); [done|]. by destruct (fields c s).
Qed.

Lemma fields_join (c : byte) (s : list byte) :
  join_with c (fields c s) = s.
Proof.
  induction s as [|b s IH]; [done|]. cbn [fields].
  destruct (fields c s) as [|r rs] eqn:E.
  { exfalso. by apply (fields_nonnil c s). }
  destruct (decide (b = c)) as [->|Hb].
  - change (join_with c ([] :: r :: rs)) with (c :: join_with c (r :: rs)).
    by rewrite IH.
  - destruct rs as [|r' rs].
    + cbn [join_with] in *. by rewrite IH.
    + change (join_with c ((b :: r) :: r' :: rs))
        with (b :: (r ++ c :: join_with c (r' :: rs))).
      change (join_with c (r :: r' :: rs))
        with (r ++ c :: join_with c (r' :: rs)) in IH.
      by rewrite IH.
Qed.

(** C7. For every string [s] short enough for its length to be an [int],
    [split(c, splited)] leaves [s] as it was and pushes at the back of
    [splited] exactly the non-empty maximal runs of characters between
    separators, in order; ["a,,b,"] split on [','] gives [["a"; "b"]] and
    ["abc"] gives [["abc"]]. *)
Theorem split_spec (c : byte) (s : list byte) (splited : list (list byte))
    (h : heap) (Hlen : Z.of_nat (length s) <= INT32_MAX) :
  STRING.split c s splited h = Done ((s, splited ++ nonempty_runs c s), h)
  /\ STRING.split "," (list_byte_of_string "a,,b,") [] h
     = Done ((list_byte_of_string "a,,b,",
              [list_byte_of_string "a"; list_byte_of_string "b"]), h)
  /\ STRING.split "," (list_byte_of_string "abc") [] h
     = Done ((list_byte_of_string "abc", [list_byte_of_string "abc"]), h).
Proof.
  split; [|split; reflexivity].
  unfold STRING.split.
  rewrite wrap32_id by (unfold INT32_MAX in *; lia).
  destruct (split_loop_spec c s [] [] splited h) as (st & acc' & Hrun & Hst & Hres).
  { apply not_elem_of_nil. }
  { done. }
  simpl in Hrun, Hst, Hres. rewrite Nat2Z.id.
  erewrite bind_done by exact Hrun. cbn beta iota.
  destruct (decide (st = length s)) as [->|Hne].
  - rewrite Z.eqb_refl. cbn [negb]. rewrite app_nil_r in Hres. by rewrite Hres.
  - replace (Z.of_nat (length s) =? Z.of_nat st) with false
      by (symmetry; apply Z.eqb_neq; lia).
    cbn [negb].
    rewrite wrap32_id by (unfold INT32_MAX in *; lia).
    rewrite to_size_t_id by (unfold INT32_MAX, PTRDIFF_MAX in *; lia).
    erewrite bind_done.
    2:{ apply from_data_done; [lia|lia|].
        unfold STRING.c_str. rewrite length_app. simpl. lia. }
    rewrite <- Hres. unfold STRING.c_str.
    rewrite Nat2Z.id. rewrite drop_app_le by lia.
    rewrite take_app_le by (rewrite length_drop; lia).
    rewrite take_ge by (rewrite length_drop; lia). reflexivity.
Qed.

Lemma split_spec_witness :
  STRING.split "," (list_byte_of_string ",ab,,c") [] heap0
  = Done ((list_byte_of_string ",ab,,c",
           [] ++ nonempty_runs "," (list_byte_of_string ",ab,,c")), heap0)
  /\ STRING.split "," (list_byte_of_string "a,,b,") [] heap0
     = Done ((list_byte_of_string "a,,b,",
              [list_byte_of_string "a"; list_byte_of_string "b"]), heap0)
  /\ STRING.split "," (list_byte_of_string "abc") [] heap0
     = Done ((list_byte_of_string "abc", [list_byte_of_string "abc"]), heap0).
Proof.
  apply (split_spec "," (list_byte_of_string ",ab,,c") [] heap0).
  vm_compute. congruence.
Defined.

(** ** C3: serialisation round trip *)

Lemma fixed_terminated s : terminated_ok s -> terminated (fixed s).
Proof.
  intros [Hw [Ht|[Hd [n Hn]]]].
  - destruct Ht as [Hu Ht]. rewrite fixed_positive by lia. done.
  - apply clean_terminated.
    + apply fixed_well_formed, Hw.
    + rewrite (fixed_dirty s n) by done. exists n. done.
Qed.

Lemma terminated_ok_header_ok s : terminated_ok s -> header_ok s.
Proof.
  intros [Hw [[Hu _]|Hd]]; split; try done; [by left|by right].
Qed.

(** C3. For a string [original] that is terminated where its header says
    (or dirty), whose [length()] is [n <= 65535], and a channel with room for
    [4 + n] bytes: [Serialize] returns [true] and writes the four bytes of
    [n] followed by the first [n] data bytes; [DeSerialize] with
    [swap = false] at the position where that was written, into any string
    [x] with a valid header, returns [true], consumes exactly those bytes, and
    leaves an [x] for which [x == original] is [true].  ([o'] is [original]
    as [length()] and [Serialize] leave it, with its header repaired.) *)
Theorem serialize_round_trip (host : byte_order)
    (original o' x : STRING_old.t) (fp : FILE) (n : Z) (h hx : heap)
    (Ho : terminated_ok original) (Hx : header_ok x)
    (Hn : STRING_old.length original h = Done ((n, o'), h))
    (Hmax : n <= UINT16_MAX)
    (Hroom : (f_pos fp + 4 + Z.to_nat n <= f_limit fp)%nat) :
  exists fp1,
    STRING_old.Serialize host fp original h = Done ((true, fp1, o'), h)
    /\ take (4 + Z.to_nat n) (drop (f_pos fp) (f_bytes fp1))
       = bytes_of_uint32 host n ++ take (Z.to_nat n) (STRING_old.cstr original)
    /\ exists fp2 x' hx',
         STRING_old.DeSerialize host false (rewind (f_pos fp) fp1) x hx
         = Done ((true, fp2, x'), hx')
         /\ f_pos fp2 = f_pos fp1
         /\ STRING_old.operator_eq x' o' hx' = Done ((true, x', o'), hx').
Proof.
  pose proof (terminated_ok_header_ok _ Ho) as Hoh.
  pose proof (fixed_terminated _ Ho) as [Hou Hot].
  rewrite fixed_capacity in Hou.
  rewrite length_done in Hn by done. injection Hn as Hn Ho'. subst o'.
  destruct Ho as [[Hob Hor] _]. unfold block_ok in Hob.
  rewrite fixed_cstr in Hot. rewrite Hn in Hot.
  assert (Hn0 : 0 <= n) by lia.
  set (hdr := bytes_of_uint32 host n).
  set (data := take (Z.to_nat n) (STRING_old.cstr original)).
  assert (Hhdr : length hdr = 4%nat) by apply bytes_of_uint32_length.
  assert (Hdata : length data = Z.to_nat n) by (unfold data; rewrite length_take; lia).
  set (pre := resize (f_pos fp) NUL (f_bytes fp)).
  assert (Hpre : length pre = f_pos fp) by apply length_resize.
  set (post := drop (f_pos fp + 4 + length data)
                 (pre ++ hdr ++ drop (f_pos fp + length hdr) (f_bytes fp))).
  set (fp1 := mkFILE (pre ++ hdr ++ data ++ post) (f_pos fp + 4 + length data)
                (f_limit fp)).
  unfold UINT16_MAX in Hmax.
  assert (Hser : STRING_old.Serialize host fp original h
                 = Done ((true, fp1, fixed original), h)).
  { unfold STRING_old.Serialize.
    erewrite bind_done by (by apply length_done). cbn beta iota.
    rewrite Hn. rewrite to_uint32_id by sizes. fold hdr.
    rewrite fwrite_done by lia. fold pre.
    erewrite bind_done
      by (apply memread_done; rewrite ?fixed_cstr; lia).
    rewrite fixed_cstr. fold data.
    rewrite fwrite_done by (cbn [f_pos f_limit]; lia).
    cbn [f_pos f_limit f_bytes]. unfold fp1, post.
    rewrite Hhdr.
    replace (resize (f_pos fp + 4) NUL
               (pre ++ hdr ++ drop (f_pos fp + 4) (f_bytes fp)))
      with (pre ++ hdr).
    2:{ rewrite resize_le by (rewrite !length_app; lia).
        rewrite (app_assoc pre hdr). symmetry.
        apply take_app_length'. rewrite length_app. lia. }
    rewrite <- app_assoc. reflexivity. }
  exists fp1. split; [exact Hser|]. split.
  { unfold fp1. cbn [f_bytes]. rewrite drop_app_length' by done.
    rewrite (app_assoc hdr data post).
    apply take_app_length'. rewrite length_app. lia. }
  (* reading back *)
  pose proof (truncated_block_ok n x hx Hx) as Hb. unfold block_ok in Hb.
  pose proof (truncated_capacity n x hx) as [Hc _].
  pose proof (truncated_terminator n x hx Hx Hn0) as Ht.
  set (x1 := truncated n x hx) in *.
  set (x' := STRING_old.set_cstr
               (data ++ drop (Z.to_nat n) (STRING_old.cstr x1)) x1).
  exists (mkFILE (f_bytes fp1) (f_pos fp + 4 + length data) (f_limit fp1)),
    x', (ensured_heap (n + 1) (fixed x) hx).
  split.
  { unfold STRING_old.DeSerialize, rewind, fp1. cbn [f_bytes f_limit].
    rewrite (fread_at pre hdr) by done.
    rewrite Hhdr. rewrite bool_decide_eq_true_2 by done. cbn [negb].
    assert (Hdec : uint32_of_bytes host hdr = n)
      by (apply uint32_of_bytes_of_uint32; lia).
    rewrite !Hdec.
    replace (UINT16_MAX <? n) with false
      by (symmetry; apply Z.ltb_ge; unfold UINT16_MAX; lia).
    rewrite wrap32_id by sizes.
    erewrite bind_done
      by (apply truncate_at_done;
          [done|done|sizes]).
    fold x1.
    rewrite (app_assoc pre hdr (data ++ post)).
    rewrite (fread_at (pre ++ hdr) data) by (rewrite ?length_app; lia).
    erewrite bind_done by (apply memcpy_done; lia).
    rewrite bool_decide_eq_true_2 by done.
    change (Z.to_nat 0) with 0%nat.
    rewrite Z.add_0_l, Nat2Z.id, take_0, drop_0, app_nil_l.
    rewrite (take_ge data) by lia. rewrite Hdata.
    rewrite <- (app_assoc pre hdr).
    reflexivity. }
  split; [reflexivity|].
  unfold STRING_old.operator_eq.
  erewrite bind_done
    by (apply FixHeader_nonneg; unfold x', x1;
        rewrite used_set_cstr, truncated_used; lia).
  erewrite bind_done by (apply FixHeader_nonneg; lia).
  rewrite !used_header.
  assert (Hxu : used x' = n + 1) by reflexivity.
  assert (Hfu : used (fixed original) = n + 1) by lia.
  rewrite !Hxu, Hfu, Z.eqb_refl.
  rewrite to_size_t_id by sizes.
  assert (Hxl : length (STRING_old.cstr x') = length (STRING_old.cstr x1)).
  { unfold x'. rewrite cstr_set_cstr, length_app, length_drop. lia. }
  erewrite bind_done
    by (apply memcmp_eq_done; rewrite ?fixed_cstr; lia).
  rewrite bool_decide_eq_true_2; [reflexivity|].
  replace (Z.to_nat (n + 1)) with (S (Z.to_nat n)) by lia.
  rewrite fixed_cstr.
  rewrite (take_S_r (STRING_old.cstr original) _ NUL)
    by (rewrite <- Hot; f_equal; lia).
  rewrite (take_S_r (STRING_old.cstr x') _ NUL).
  2:{ unfold x'. rewrite cstr_set_cstr.
      rewrite lookup_app_r by lia. rewrite Hdata, Nat.sub_diag.
      rewrite lookup_drop, Nat.add_0_r. exact Ht. }
  f_equal. unfold x'. rewrite cstr_set_cstr.
  rewrite take_app_length' by done. reflexivity.
Qed.

Lemma abc_terminated_ok : terminated_ok abc.
Proof.
  split; [exact abc_well_formed|]. left. split; [|reflexivity].
  vm_compute. split; congruence.
Qed.

Lemma hello_header_ok : header_ok hello.
Proof.
  split; [split; [reflexivity|vm_compute; congruence]|].
  left. vm_compute. split; congruence.
Qed.

Lemma serialize_round_trip_witness :
  exists fp1,
    STRING_old.Serialize LittleEndian (mkFILE [] 0 100) abc heap0
    = Done ((true, fp1, abc), heap0)
    /\ take (4 + Z.to_nat 3) (drop (f_pos (mkFILE [] 0 100)) (f_bytes fp1))
       = bytes_of_uint32 LittleEndian 3 ++ take (Z.to_nat 3) (STRING_old.cstr abc)
    /\ exists fp2 x' hx',
         STRING_old.DeSerialize LittleEndian false
           (rewind (f_pos (mkFILE [] 0 100)) fp1) hello heap0
         = Done ((true, fp2, x'), hx')
         /\ f_pos fp2 = f_pos fp1
         /\ STRING_old.operator_eq x' abc hx' = Done ((true, x', abc), hx').
Proof.
  apply (serialize_round_trip LittleEndian abc abc hello (mkFILE [] 0 100) 3
           heap0 heap0 abc_terminated_ok hello_header_ok).
  - reflexivity.
  - vm_compute. congruence.
  - vm_compute. lia.
Defined.

(** ** C2: the ceiling on the declared length *)

(** The [FILE] entry point refuses a declared length above 65535 before it
    touches the receiver. *)
Lemma DeSerialize_rejects_oversized (host : byte_order) (swap : bool)
    (fp fp' : FILE) (got : list byte) (x : STRING_old.t) (h : heap) :
  fread 4 fp = (got, fp') -> length got = 4%nat ->
  UINT16_MAX < uint32_of_bytes host (if swap then ReverseN got else got) ->
  STRING_old.DeSerialize host swap fp x h = Done ((false, fp', x), h).
Proof.
  intros Hread Hlen Hbig. unfold STRING_old.DeSerialize. rewrite Hread.
  rewrite bool_decide_eq_true_2 by done. cbn [negb].
  apply Z.ltb_lt in Hbig. rewrite Hbig. reflexivity.
Qed.

(** C2. The [TFile] entry point has no ceiling: on a channel that declares
    70000 bytes, the receiver ["hello"] ([used_ = 6], [capacity_ = 6], block
    at 8192) is truncated to 70000 characters in a new block (at 12288) before
    anything is read; the call returns [true] when the channel holds the
    bytes, and [false] with the receiver already changed when it does not. *)
Theorem DeSerialize_TFile_accepts_oversized :
  report (STRING_old.DeSerialize_TFile LittleEndian oversized hello heap0)
  = Some (true, 70001, 70001, 12288)
  /\ report (STRING_old.DeSerialize_TFile LittleEndian oversized_short hello heap0)
     = Some (false, 70001, 70001, 12288)
  /\ (used hello, capacity hello, STRING_old.data_ hello) = (6, 6, 8192).
Proof. split; [|split]; vm_compute; reflexivity. Qed.

(** ** The operations, one by one *)

Lemma clean_intro (r : STRING_old.t) (n : nat) :
  find_nul (STRING_old.cstr r) = Some n -> used r = Z.of_nat n + 1 -> clean r.
Proof. intros H1 H2. exists n. done. Qed.

Lemma find_nul_memcpy (E src rest : list byte) (a n : nat) :
  NUL ∉ take a E -> find_nul src = Some n -> (a <= length E)%nat ->
  find_nul (take a E ++ take (S n) src ++ rest) = Some (a + n)%nat.
Proof.
  intros Ha Hn Hl. apply find_nul_Some in Hn as (H1 & H2 & H3).
  rewrite (take_S_r src n NUL) by done.
  rewrite <- (app_assoc (take n src)). rewrite app_assoc. cbn [app].
  rewrite find_nul_app.
  - rewrite length_app, !length_take. f_equal. lia.
  - rewrite not_elem_of_app. done.
Qed.

Lemma ensured_find_nul m s h (n : nat) :
  block_ok s -> find_nul (STRING_old.cstr s) = Some n ->
  Z.of_nat n + 1 <= used s <= capacity s ->
  find_nul (STRING_old.cstr (ensured m s h)) = Some n.
Proof.
  intros Hb Hn Hu. apply find_nul_Some in Hn as (H1 & H2 & H3).
  apply find_nul_intro.
  - rewrite ensured_lookup by (done || lia). done.
  - rewrite ensured_take by (done || lia). done.
Qed.

Lemma new_done h :
  STRING_old.new h
  = Done (STRING_old.mk (next_addr h) (mkHeader kMinCapacity 1)
            (NUL :: drop 1 (next_data h kMinCapacity)), after_malloc h).
Proof.
  unfold STRING_old.new, kMinCapacity.
  erewrite bind_done by (apply AllocData_done; vm_compute; split; congruence).
  pose proof (next_data_length h 16 ltac:(lia)) as Hl.
  erewrite bind_done by (apply memcpy_done; cbn [STRING_old.cstr length]; lia).
  reflexivity.
Qed.

(** The default state: an empty string in a block of [kMinCapacity] bytes. *)
Lemma default_state_spec h :
  let r := STRING_old.mk (next_addr h) (mkHeader kMinCapacity 1)
             (NUL :: drop 1 (next_data h kMinCapacity)) in
  block_ok r /\ clean r /\ capacity r = kMinCapacity.
Proof.
  pose proof (next_data_length h kMinCapacity ltac:(vm_compute; congruence)) as Hl.
  unfold kMinCapacity in *. cbn zeta. split; [|split; [|reflexivity]].
  - unfold block_ok. rewrite capacity_mk. cbn [STRING_old.cstr length].
    rewrite length_drop. lia.
  - exists 0%nat. split; reflexivity.
Qed.

Lemma valid_fixed s (Hs : valid s) :
  exists n : nat,
    find_nul (STRING_old.cstr s) = Some n
    /\ used (fixed s) = Z.of_nat n + 1
    /\ Z.of_nat n + 1 <= capacity s
    /\ block_ok s
    /\ 2 * capacity s + 8 <= 2147483647.
Proof.
  destruct (fixed_clean s Hs) as (n & Hn & Hu). rewrite fixed_cstr in Hn.
  exists n. split; [done|]. split; [done|].
  pose proof (find_nul_Some _ _ Hn) as (_ & _ & Hlt).
  destruct Hs as [[Hb Hr] _]. unfold block_ok in *. split; [lia|].
  split; [done|]. exact Hr.
Qed.

Lemma terminated_intro (r : STRING_old.t) (k : Z) :
  0 <= k -> used r = k + 1 -> k + 1 <= capacity r ->
  STRING_old.cstr r !! Z.to_nat k = Some NUL -> terminated r.
Proof.
  intros Hk Hu Hc Hl. unfold terminated. rewrite Hu. split; [lia|].
  by replace (k + 1 - 1) with k by lia.
Qed.

Lemma well_formed_set_used u s : well_formed s -> well_formed (STRING_old.set_used u s).
Proof. done. Qed.

Lemma operator_assign_null_done this h :
  STRING_old.operator_assign_cstr None this h
  = Done (STRING_old.mk (next_addr h) (mkHeader kMinCapacity 1)
            (NUL :: drop 1 (next_data h kMinCapacity)),
          after_malloc (after_free (STRING_old.data_ this) h)).
Proof.
  unfold STRING_old.operator_assign_cstr, STRING_old.DiscardData.
  erewrite bind_done by reflexivity.
  pose proof (new_done (after_free (STRING_old.data_ this) h)) as Hnew.
  exact Hnew.
Qed.

(** Appending a C string of length [n] to a string of length [a], as the
    appends do once the headers are repaired and the sizes computed. *)
Lemma appended_spec (this : STRING_old.t) (src : list byte) (a n : nat) h :
  well_formed this -> find_nul (STRING_old.cstr this) = Some a ->
  used this = Z.of_nat a + 1 ->
  find_nul src = Some n -> fits (Z.of_nat n + 1) ->
  let E := ensured (Z.of_nat a + 1 + (Z.of_nat n + 1)) this h in
  let r := STRING_old.set_used (Z.of_nat a + 1 + Z.of_nat n)
             (STRING_old.set_cstr
                (take a (STRING_old.cstr E) ++ take (S n) src
                 ++ drop (a + S n) (STRING_old.cstr E)) E) in
  STRING_old.ensure_cstr (Z.of_nat a + 1 + (Z.of_nat n + 1)) this h
  = Done ((STRING_old.GetCStr E, E),
          ensured_heap (Z.of_nat a + 1 + (Z.of_nat n + 1)) this h)
  /\ used E = Z.of_nat a + 1
  /\ Z.of_nat a + 1 + (Z.of_nat n + 1) <= Z.of_nat (length (STRING_old.cstr E))
  /\ block_ok r /\ clean r /\ capacity this <= capacity r
  /\ capacity r + 8 <= 2147483647.
Proof.
  intros Hw Ha Hu Hn [_ Hf] E r. unfold sizeof_STRING_HEADER, INT32_MAX in Hf.
  pose proof (find_nul_Some _ _ Ha) as (_ & Ha2 & Halt).
  pose proof (find_nul_Some _ _ Hn) as (_ & _ & Hlt).
  destruct Hw as [Hb Hr]. unfold sizeof_STRING_HEADER, INT32_MAX in Hr.
  assert (Hu' : 0 <= used this <= capacity this)
    by (unfold block_ok in Hb; lia).
  pose proof (ensured_capacity (Z.of_nat a + 1 + (Z.of_nat n + 1)) this h)
    as [Hc1 Hc2]. fold E in Hc1, Hc2.
  pose proof (ensured_block_ok _ _ h Hb Hu' : block_ok E) as HbE.
  unfold block_ok in HbE, Hb.
  split.
  { apply ensure_cstr_done; [done|done|sizes]. }
  split; [unfold E; by rewrite ensured_used|].
  split; [lia|].
  split; [|split; [|split]].
  - unfold block_ok, r.
    autorewrite with obj.
    rewrite !length_app, !length_take, length_drop. lia.
  - apply (clean_intro _ (a + n)); [|unfold r; rewrite used_set_used; lia].
    unfold r. autorewrite with obj.
    apply find_nul_memcpy; [|done|lia].
    unfold E. rewrite ensured_take by (done || lia). done.
  - unfold r. by autorewrite with obj.
  - unfold r. autorewrite with obj.
    apply ensured_capacity_le; [done|lia|lia].
Qed.

(** ** operator+(char) and the terminator *)

(** [STRING_old("abc") + 'd']: the result has [used_ = 2], the byte at offset
    [used_ - 1] is ['d'] and the content is ["ad"], not ["abcd"]: the
    character is stored at the offset taken from the header of the fresh
    empty result instead of the length of [this]. *)
Lemma operator_add_char_breaks_invariant :
  exists r h',
    STRING_old.operator_add_char abc "d" heap0 = Done ((r, abc), h')
    /\ used r = 2
    /\ STRING_old.cstr r !! Z.to_nat (used r - 1) = Some ("d"%byte)
    /\ take 4 (STRING_old.cstr r) = ["a"; "d"; NUL; NUL]%byte
    /\ STRING_old.InvariantOk r = false.
Proof. eexists _, _. repeat split; vm_compute; reflexivity. Qed.

(** * Further properties *)

(** ** Content *)

Lemma chars_app (pre post : list byte) :
  NUL ∉ pre -> chars (pre ++ NUL :: post) = pre.
Proof.
  intros H. unfold chars. rewrite find_nul_app by done.
  cbn [default from_option id]. apply take_app_length.
Qed.

Lemma chars_find (m : list byte) (n : nat) :
  find_nul m = Some n -> chars m = take n m.
Proof. intros H. unfold chars. by rewrite H. Qed.

Lemma chars_length (m : list byte) (n : nat) :
  find_nul m = Some n -> length (chars m) = n.
Proof.
  intros H. rewrite (chars_find m n H). apply find_nul_Some in H as (_ & _ & Hlt).
  rewrite length_take. lia.
Qed.

Lemma chars_no_nul (m : list byte) : NUL ∉ chars m.
Proof.
  unfold chars. destruct (find_nul m) as [n|] eqn:E.
  - apply find_nul_Some in E as (_ & H & _). exact H.
  - cbn. apply not_elem_of_nil.
Qed.

Lemma take_S_chars (m : list byte) (n : nat) :
  find_nul m = Some n -> take (S n) m = chars m ++ [NUL].
Proof.
  intros H. rewrite (chars_find m n H).
  apply find_nul_Some in H as (H1 & _ & _). by apply take_S_r.
Qed.

Lemma text_fixed s : text (fixed s) = text s.
Proof. unfold text. by rewrite fixed_cstr. Qed.

(** ** Readable strings *)

Lemma valid_readable s : valid s -> readable s.
Proof.
  intros [[Hb Hr] Hc]. unfold block_ok in *. split; [done|]. split; [sizes|done].
Qed.

Lemma FixHeader_readable s h :
  readable s -> STRING_old.FixHeader s h = Done (fixed s, h).
Proof.
  intros (Hb & Hr & Hu). unfold STRING_old.FixHeader, fixed, STRING_old.GetHeader.
  fold (used s). destruct (used s <? 0) eqn:E; [|reflexivity].
  apply Z.ltb_lt in E. destruct Hu as [(n & _ & Hu)|[_ [n Hn]]]; [lia|].
  rewrite Hn. erewrite bind_done by (apply strlen_done; exact Hn).
  apply find_nul_Some in Hn as (_ & _ & Hlt). unfold block_ok in Hb.
  rewrite wrap32_id by sizes. reflexivity.
Qed.

Lemma readable_fixed s (Hs : readable s) :
  exists n : nat,
    find_nul (STRING_old.cstr s) = Some n
    /\ used (fixed s) = Z.of_nat n + 1
    /\ Z.of_nat n + 1 <= capacity s
    /\ Z.of_nat (length (STRING_old.cstr s)) = capacity s
    /\ capacity s + 8 <= 2147483647.
Proof.
  destruct Hs as (Hb & Hr & Hc). unfold block_ok in Hb.
  assert (exists n, find_nul (STRING_old.cstr s) = Some n
                    /\ used (fixed s) = Z.of_nat n + 1) as (n & Hn & Hu).
  { destruct Hc as [(n & Hn & Hu)|[Hd [n Hn]]].
    - exists n. rewrite fixed_positive by lia. done.
    - exists n. by rewrite (fixed_dirty s n). }
  exists n. pose proof (find_nul_Some _ _ Hn) as (_ & _ & Hlt).
  repeat split; try done; sizes.
Qed.

(** ** Comparison *)

Lemma operator_eq_text (x y : STRING_old.t) (h : heap) :
  readable x -> readable y ->
  STRING_old.operator_eq x y h
  = Done ((bool_decide (text x = text y), fixed x, fixed y), h).
Proof.
  intros Hx Hy.
  destruct (readable_fixed x Hx) as (a & Ha & Hxu & Hxc & Hxb & Hxr).
  destruct (readable_fixed y Hy) as (b & Hb & Hyu & Hyc & Hyb & Hyr).
  unfold STRING_old.operator_eq.
  erewrite bind_done by (by apply FixHeader_readable).
  erewrite bind_done by (by apply FixHeader_readable).
  rewrite !used_header, Hxu, Hyu, !fixed_cstr.
  pose proof (chars_length _ _ Ha) as Hla. pose proof (chars_length _ _ Hb) as Hlb.
  destruct (Z.of_nat a + 1 =? Z.of_nat b + 1) eqn:E.
  - apply Z.eqb_eq in E. assert (a = b) as -> by lia.
    rewrite to_size_t_id by sizes.
    erewrite bind_done by (apply memcmp_eq_done; lia).
    replace (Z.to_nat (Z.of_nat b + 1)) with (S b) by lia.
    rewrite (take_S_chars _ _ Ha), (take_S_chars _ _ Hb).
    replace (bool_decide (text x = text y))
      with (bool_decide (chars (STRING_old.cstr x) ++ [NUL]
                         = chars (STRING_old.cstr y) ++ [NUL])); [reflexivity|].
    apply bool_decide_ext. unfold text.
    split; [by intros ?%(inj (.++ [NUL]))|by intros ->].
  - apply Z.eqb_neq in E. rewrite bool_decide_eq_false_2; [done|].
    unfold text. intros Heq. rewrite Heq in Hla. lia.
Qed.

(** X1. [operator==] on readable strings decides equality of their
    characters (and repairs both headers). *)
Theorem operator_eq_decides_text (x y : STRING_old.t) (h : heap)
    (Hx : readable x) (Hy : readable y) :
  STRING_old.operator_eq x y h
  = Done ((bool_decide (text x = text y), fixed x, fixed y), h).
Proof. by apply operator_eq_text. Qed.

Lemma abc_readable : readable abc.
Proof.
  split; [reflexivity|]. split; [vm_compute; congruence|].
  left. exists 3%nat. split; reflexivity.
Qed.

Lemma hello_readable : readable hello.
Proof.
  split; [reflexivity|]. split; [vm_compute; congruence|].
  left. exists 5%nat. split; reflexivity.
Qed.

Lemma operator_eq_decides_text_witness :
  STRING_old.operator_eq abc hello heap0
  = Done ((bool_decide (text abc = text hello), fixed abc, fixed hello), heap0).
Proof.
  apply (operator_eq_decides_text abc hello heap0 abc_readable hello_readable).
Defined.

(** X2. On strings with valid headers [operator!=] returns, and returns the
    negation of [operator==]. *)
Theorem operator_ne_negates_eq (x y : STRING_old.t) (h : heap)
    (Hx : header_ok x) (Hy : header_ok y) :
  exists b : bool,
    STRING_old.operator_eq x y h = Done ((b, fixed x, fixed y), h)
    /\ STRING_old.operator_ne x y h = Done ((negb b, fixed x, fixed y), h).
Proof.
  pose proof (fixed_used x Hx) as Hxu. pose proof (fixed_used y Hy) as Hyu.
  destruct Hx as [[Hxb Hxr] Hx']. destruct Hy as [[Hyb Hyr] Hy'].
  assert (Hx : header_ok x) by done. assert (Hy : header_ok y) by done.
  unfold block_ok in Hxb, Hyb.
  unfold STRING_old.operator_eq, STRING_old.operator_ne.
  erewrite !bind_done by (apply FixHeader_done; done).
  rewrite !used_header, !fixed_cstr.
  destruct (used (fixed x) =? used (fixed y)) eqn:E; cbn [negb].
  - apply Z.eqb_eq in E. rewrite to_size_t_id by sizes.
    erewrite !bind_done by (apply memcmp_eq_done; lia).
    eexists. split; reflexivity.
  - exists false. split; reflexivity.
Qed.

Lemma operator_ne_negates_eq_witness :
  exists b : bool,
    STRING_old.operator_eq abc hello heap0 = Done ((b, fixed abc, fixed hello), heap0)
    /\ STRING_old.operator_ne abc hello heap0
       = Done ((negb b, fixed abc, fixed hello), heap0).
Proof.
  apply (operator_ne_negates_eq abc hello heap0).
  - split; [split; [reflexivity|vm_compute; congruence]|].
    left. vm_compute. split; congruence.
  - split; [split; [reflexivity|vm_compute; congruence]|].
    left. vm_compute. split; congruence.
Defined.

Lemma operator_ne_cstr_text (this : STRING_old.t)
    (p : option (list byte)) (h : heap) :
  readable this -> cstring_ok p ->
  STRING_old.operator_ne_cstr this p h
  = Done ((negb (bool_decide (text this = chars (pointee p))), fixed this), h).
Proof.
  intros Ht Hp.
  destruct (readable_fixed this Ht) as (a & Ha & Htu & Htc & Htb & Htr).
  pose proof (chars_length _ _ Ha) as Hla.
  unfold STRING_old.operator_ne_cstr.
  erewrite bind_done by (by apply FixHeader_readable).
  rewrite !used_header, Htu, !fixed_cstr.
  destruct p as [src|]; cbn [cstring_ok] in Hp.
  - destruct Hp as (n & Hn & [_ Hf]). change (pointee (Some src)) with src.
    pose proof (chars_length _ _ Hn) as Hln.
    pose proof (find_nul_Some _ _ Hn) as (_ & _ & Hlt).
    erewrite bind_done by (apply strlen_done; exact Hn).
    rewrite wrap32_id by sizes.
    destruct (Z.of_nat a + 1 =? Z.of_nat n + 1) eqn:E; cbn [negb].
    + apply Z.eqb_eq in E. assert (a = n) as -> by lia.
      rewrite to_size_t_id by sizes.
      erewrite bind_done by (apply memcmp_eq_done; lia).
      replace (Z.to_nat (Z.of_nat n + 1)) with (S n) by lia.
      rewrite (take_S_chars _ _ Ha), (take_S_chars _ _ Hn).
      replace (bool_decide (text this = chars src))
        with (bool_decide (chars (STRING_old.cstr this) ++ [NUL]
                           = chars src ++ [NUL])); [reflexivity|].
      apply bool_decide_ext. unfold text.
      split; [by intros ?%(inj (.++ [NUL]))|by intros ->].
    + apply Z.eqb_neq in E. rewrite bool_decide_eq_false_2; [done|].
      unfold text. intros Heq. rewrite Heq in Hla. lia.
  - assert (Hb : forall q : option (list byte), q = None ->
                (1 <? Z.of_nat a + 1)
                = negb (bool_decide (text this = chars (pointee q)))).
    { intros q ->. unfold text.
      change (chars (pointee None)) with (@nil byte).
      destruct (chars (STRING_old.cstr this)) as [|c cs].
      - simpl in Hla. subst a. reflexivity.
      - simpl in Hla. rewrite bool_decide_eq_false_2 by done. cbn [negb].
        apply Z.ltb_lt. lia. }
    rewrite (Hb None eq_refl). reflexivity.
Qed.

(** X3. [operator!=(const char* cstr)] on a readable string returns [false]
    exactly when the characters of the string are those of the C string; a
    null pointer counts as the empty C string. *)
Theorem operator_ne_cstr_decides_text (this : STRING_old.t)
    (p : option (list byte)) (h : heap)
    (Ht : readable this) (Hp : cstring_ok p) :
  STRING_old.operator_ne_cstr this p h
  = Done ((negb (bool_decide (text this = chars (pointee p))), fixed this), h).
Proof. by apply operator_ne_cstr_text. Qed.

Lemma operator_ne_cstr_decides_text_witness :
  STRING_old.operator_ne_cstr abc (Some (literal "abc")) heap0
  = Done ((negb (bool_decide (text abc = chars (pointee (Some (literal "abc"))))),
           fixed abc), heap0).
Proof.
  apply (operator_ne_cstr_decides_text abc (Some (literal "abc")) heap0).
  - exact abc_readable.
  - exists 3%nat. split; [reflexivity|]. vm_compute. split; congruence.
Defined.

(** ** Content after the operations *)

Lemma chars_memcpy (E src rest : list byte) (a n : nat) :
  NUL ∉ take a E -> find_nul src = Some n -> (a <= length E)%nat ->
  chars (take a E ++ take (S n) src ++ rest) = take a E ++ chars src.
Proof.
  intros Ha Hn Hl. rewrite (take_S_chars _ _ Hn).
  rewrite <- (app_assoc (chars src)). rewrite app_assoc. cbn [app].
  apply chars_app. rewrite not_elem_of_app. split; [done|apply chars_no_nul].
Qed.

Lemma chars_copy (src rest : list byte) (n : nat) :
  find_nul src = Some n -> chars (take (S n) src ++ rest) = chars src.
Proof.
  intros Hn.
  apply (chars_memcpy [] src rest 0 n); [apply not_elem_of_nil|done|simpl; lia].
Qed.

Lemma clean_valid r :
  block_ok r -> capacity r + 8 <= 2147483647 -> clean r ->
  2 * capacity r + 8 <= 2147483647 -> valid r.
Proof. intros Hb _ Hc Hr. split; [split; done|by left]. Qed.

Lemma fixed_data s : STRING_old.data_ (fixed s) = STRING_old.data_ s.
Proof.
  unfold fixed. destruct (used s <? 0); [|done].
  destruct (find_nul _); done.
Qed.

Lemma clean_fixed r : clean r -> fixed r = r.
Proof. intros (n & _ & Hu). apply fixed_positive. lia. Qed.

(** The result of an append of [n >= 0] characters of [src] to a repaired
    [this] of length [a], with what it means for content, block and heap. *)
Lemma ensured_grow n s h :
  capacity s < n ->
  STRING_old.data_ (ensured n s h) = next_addr h
  /\ capacity (ensured n s h) = Z.max n (2 * capacity s)
  /\ ensured_heap n s h = after_free (STRING_old.data_ s) (after_malloc h).
Proof.
  intros Hn. unfold ensured, ensured_heap.
  replace (n <=? capacity s) with false by (symmetry; apply Z.leb_gt; lia).
  done.
Qed.

Lemma appended_text (this : STRING_old.t) (src : list byte) (a n : nat) h :
  well_formed this -> find_nul (STRING_old.cstr this) = Some a ->
  used this = Z.of_nat a + 1 ->
  find_nul src = Some n -> fits (Z.of_nat n + 1) ->
  let E := ensured (Z.of_nat a + 1 + (Z.of_nat n + 1)) this h in
  let r := STRING_old.set_used (Z.of_nat a + 1 + Z.of_nat n)
             (STRING_old.set_cstr
                (take a (STRING_old.cstr E) ++ take (S n) src
                 ++ drop (a + S n) (STRING_old.cstr E)) E) in
  text r = text this ++ chars src
  /\ (Z.of_nat a + 1 + (Z.of_nat n + 1) <= capacity this ->
      STRING_old.data_ r = STRING_old.data_ this
      /\ capacity r = capacity this
      /\ ensured_heap (Z.of_nat a + 1 + (Z.of_nat n + 1)) this h = h)
  /\ (capacity this < Z.of_nat a + 1 + (Z.of_nat n + 1) ->
      STRING_old.data_ r = next_addr h
      /\ capacity r
         = Z.max (Z.of_nat a + 1 + (Z.of_nat n + 1)) (2 * capacity this)
      /\ ensured_heap (Z.of_nat a + 1 + (Z.of_nat n + 1)) this h
         = after_free (STRING_old.data_ this) (after_malloc h)).
Proof.
  intros Hw Ha Hu Hn Hf E r.
  pose proof (find_nul_Some _ _ Ha) as (_ & Ha2 & Halt).
  destruct Hw as [Hb Hr].
  assert (Hu' : 0 <= used this <= capacity this) by (unfold block_ok in Hb; lia).
  pose proof (ensured_block_ok (Z.of_nat a + 1 + (Z.of_nat n + 1)) this h Hb Hu'
              : block_ok E) as HbE.
  pose proof (ensured_capacity (Z.of_nat a + 1 + (Z.of_nat n + 1)) this h)
    as [Hc1 _]. fold E in Hc1.
  assert (HEa : take a (STRING_old.cstr E) = take a (STRING_old.cstr this))
    by (unfold E; rewrite ensured_take by (done || lia); done).
  unfold block_ok in HbE, Hb.
  split.
  - unfold text, r. autorewrite with obj.
    rewrite chars_memcpy; [|by rewrite HEa|done|lia].
    rewrite HEa. by rewrite (chars_find _ _ Ha).
  - split.
    + intros Hfit. destruct (ensured_keep _ this h Hfit) as [HE Hh].
      fold E in HE. unfold r. autorewrite with obj. rewrite HE. done.
    + intros Hgrow.
      destruct (ensured_grow _ this h Hgrow) as (Hd & Hc & Hh). fold E in Hd, Hc.
      unfold r. autorewrite with obj. done.
Qed.

Lemma clean_length r h :
  block_ok r -> capacity r + 8 <= 2147483647 -> clean r ->
  STRING_old.length r h = Done ((Z.of_nat (length (text r)), r), h).
Proof.
  intros Hb Hle (n & Hn & Hu). unfold block_ok in Hb.
  pose proof (find_nul_Some _ _ Hn) as (_ & _ & Hlt).
  rewrite length_positive by sizes.
  unfold text. rewrite (chars_length _ _ Hn). do 3 f_equal. lia.
Qed.



Lemma operator_add_assign_full str this h :
  valid str -> valid this ->
  exists r h',
    STRING_old.operator_add_assign (STRING_old.Other str) this h
    = Done ((r, fixed str), h')
    /\ block_ok r /\ clean r /\ capacity r + 8 <= 2147483647
    /\ capacity this <= capacity r
    /\ text r = text this ++ text str
    /\ (used (fixed this) + used (fixed str) <= capacity this ->
        STRING_old.data_ r = STRING_old.data_ this
        /\ capacity r = capacity this /\ h' = h)
    /\ (capacity this < used (fixed this) + used (fixed str) ->
        STRING_old.data_ r = next_addr h
        /\ capacity r
           = Z.max (used (fixed this) + used (fixed str)) (2 * capacity this)
        /\ h' = after_free (STRING_old.data_ this) (after_malloc h)).
Proof.
  intros Hs Ht.
  destruct (valid_fixed str Hs) as (n & Hn & Hsu & Hsc & Hsb & Hsr).
  destruct (valid_fixed this Ht) as (a & Ha & Htu & Htc & Htb & Htr).
  unfold block_ok in Hsb, Htb.
  assert (Hw : well_formed (fixed this)) by (apply fixed_well_formed, Ht).
  rewrite <- fixed_cstr in Ha.
  assert (Hf : fits (Z.of_nat n + 1)) by (split; [lia|sizes]).
  destruct (appended_spec (fixed this) (STRING_old.cstr str) a n h Hw Ha Htu Hn Hf)
    as (Hens & HEu & HEl & Hb & Hc & Hcap & Hle).
  destruct (appended_text (fixed this) (STRING_old.cstr str) a n h Hw Ha Htu Hn Hf)
    as (Htext & Hkeep & Hgrow).
  rewrite fixed_capacity in Hcap, Hkeep, Hgrow. rewrite fixed_data in Hkeep, Hgrow.
  rewrite text_fixed in Htext.
  eexists _, _.
  split; [|split; [exact Hb|split; [exact Hc|split; [exact Hle|split;
    [exact Hcap|split; [exact Htext|split]]]]]].
  - unfold STRING_old.operator_add_assign.
    erewrite bind_done by (apply FixHeader_done; by apply valid_header_ok).
    erewrite bind_done by (apply FixHeader_done; by apply valid_header_ok).
    rewrite !used_header, Hsu, Htu.
    rewrite (wrap32_id (Z.of_nat a + 1 + (Z.of_nat n + 1))) by sizes.
    erewrite bind_done by exact Hens. cbn beta iota.
    rewrite used_header, HEu, fixed_cstr.
    rewrite to_size_t_id by sizes.
    rewrite (wrap32_id (Z.of_nat n + 1 - 1)) by sizes.
    rewrite (wrap32_id (Z.of_nat a + 1 + (Z.of_nat n + 1 - 1))) by sizes.
    destruct (1 <? Z.of_nat a + 1) eqn:E.
    + erewrite bind_done by (apply memcpy_done; lia).
      change (Z.to_nat 0) with 0%nat. rewrite drop_0.
      replace (Z.to_nat (Z.of_nat a + 1 - 1)) with a by lia.
      replace (Z.to_nat (Z.of_nat n + 1)) with (S n) by lia.
      replace (Z.to_nat (Z.of_nat a + 1 - 1 + (Z.of_nat n + 1))) with (a + S n)%nat by lia.
      replace (Z.of_nat a + 1 + (Z.of_nat n + 1 - 1)) with (Z.of_nat a + 1 + Z.of_nat n) by lia.
      reflexivity.
    + apply Z.ltb_ge in E. assert (a = 0%nat) as -> by lia.
      erewrite bind_done by (apply memcpy_done; lia).
      change (Z.to_nat 0) with 0%nat. rewrite drop_0.
      replace (Z.to_nat (Z.of_nat n + 1)) with (S n) by lia.
      replace (Z.to_nat (0 + (Z.of_nat n + 1))) with (0 + S n)%nat by lia.
      replace (Z.of_nat 0 + 1 + Z.of_nat n) with (Z.of_nat n + 1) by lia.
      reflexivity.
  - intros Hfit. apply Hkeep. lia.
  - intros Hbig. rewrite Htu, Hsu in *. by apply Hgrow.
Qed.

(** [x += x]: the argument is the receiver itself. *)
Lemma operator_add_assign_self this h :
  valid this ->
  (capacity this < 2 * used (fixed this) ->
   STRING_old.operator_add_assign STRING_old.Self this h = Crash UseAfterFree)
  /\ (2 * used (fixed this) <= capacity this -> 1 < used (fixed this) ->
      STRING_old.operator_add_assign STRING_old.Self this h = Crash Overlap).
Proof.
  intros Ht.
  destruct (valid_fixed this Ht) as (a & Ha & Htu & Htc & Htb & Htr).
  unfold block_ok in Htb.
  assert (Hw : well_formed (fixed this)) by (apply fixed_well_formed, Ht).
  assert (Hu : 0 <= used (fixed this) <= capacity (fixed this))
    by (rewrite fixed_capacity; lia).
  assert (Hrun : forall k : STRING_old.t -> M (STRING_old.t * STRING_old.t),
    (this ← STRING_old.FixHeader this; k this) h = k (fixed this) h).
  { intros k. by erewrite bind_done
      by (apply FixHeader_done; by apply valid_header_ok). }
  unfold STRING_old.operator_add_assign. rewrite Hrun.
  rewrite !used_header, capacity_header, fixed_capacity, Htu.
  rewrite (wrap32_id (Z.of_nat a + 1 + (Z.of_nat a + 1))) by sizes.
  erewrite bind_done by (apply ensure_cstr_done; [done|done|sizes]).
  cbn beta iota.
  split.
  - intros Hbig.
    replace (Z.of_nat a + 1 + (Z.of_nat a + 1) <=? capacity this) with false
      by (symmetry; apply Z.leb_gt; lia).
    reflexivity.
  - intros Hfit Hone.
    replace (Z.of_nat a + 1 + (Z.of_nat a + 1) <=? capacity this) with true
      by (symmetry; apply Z.leb_le; lia).
    cbn [negb].
    replace (1 <? Z.of_nat a + 1) with true by (symmetry; apply Z.ltb_lt; lia).
    destruct (ensured_keep (Z.of_nat a + 1 + (Z.of_nat a + 1)) (fixed this) h)
      as [-> _]; [rewrite fixed_capacity; lia|].
    rewrite fixed_cstr. apply bind_crash.
    unfold memcpy_within. rewrite to_size_t_id by sizes.
    replace ((0 <=? Z.of_nat a + 1 - 1) && (0 <=? 0) && (0 <=? Z.of_nat a + 1)
             && (Z.of_nat a + 1 - 1 + (Z.of_nat a + 1)
                 <=? Z.of_nat (length (STRING_old.cstr this)))
             && (0 + (Z.of_nat a + 1) <=? Z.of_nat (length (STRING_old.cstr this))))
      with true by guard_holds.
    replace ((Z.of_nat a + 1 =? 0) || (Z.of_nat a + 1 - 1 =? 0)) with false
      by (symmetry; apply orb_false_intro; apply Z.eqb_neq; lia).
    replace ((Z.of_nat a + 1 - 1 + (Z.of_nat a + 1) <=? 0)
             || (0 + (Z.of_nat a + 1) <=? Z.of_nat a + 1 - 1)) with false
      by (symmetry; apply orb_false_intro; apply Z.leb_gt; lia).
    reflexivity.
Qed.

(** X5. [operator+=(const STRING_old& str)] on valid strings, [str] another
    object than the receiver: the characters afterwards are those of the
    receiver followed by those of the argument and [length()] is the sum of
    the lengths; the block is kept, and nothing allocated, when both [used_]
    counts together (one byte more than the result needs) are within the
    capacity, and otherwise the string moves to a new block of
    [max(used_ + str.used_, 2 * capacity)] bytes and the old one is freed.
    With the receiver itself as [str] the call has no defined result: when
    the block has to grow, [memcpy] reads the block that [ensure_cstr] has
    just freed, and when it is kept, source and destination of [memcpy]
    overlap in the terminator. *)
Theorem append_str_text (str this : STRING_old.t) (h : heap)
    (Hs : valid str) (Ht : valid this)
    (Hother : STRING_old.data_ str <> STRING_old.data_ this) :
  (exists r h',
     STRING_old.operator_add_assign (STRING_old.Other str) this h
     = Done ((r, fixed str), h')
     /\ text r = text this ++ text str
     /\ STRING_old.length r h'
        = Done ((Z.of_nat (length (text this) + length (text str)), r), h')
     /\ (used (fixed this) + used (fixed str) <= capacity this ->
         STRING_old.data_ r = STRING_old.data_ this
         /\ capacity r = capacity this /\ h' = h)
     /\ (capacity this < used (fixed this) + used (fixed str) ->
         STRING_old.data_ r = next_addr h
         /\ capacity r
            = Z.max (used (fixed this) + used (fixed str)) (2 * capacity this)
         /\ h' = after_free (STRING_old.data_ this) (after_malloc h)))
  /\ (capacity this < 2 * used (fixed this) ->
      STRING_old.operator_add_assign STRING_old.Self this h = Crash UseAfterFree)
  /\ (2 * used (fixed this) <= capacity this -> 1 < used (fixed this) ->
      STRING_old.operator_add_assign STRING_old.Self this h = Crash Overlap).
Proof.
  split; [|by apply operator_add_assign_self].
  destruct (operator_add_assign_full str this h Hs Ht)
    as (r & h' & Hrun & Hb & Hc & Hle & _ & Htext & Hkeep & Hgrow).
  exists r, h'. split; [exact Hrun|]. split; [exact Htext|].
  split; [|split; [exact Hkeep|exact Hgrow]].
  rewrite (clean_length _ _ Hb Hle Hc). by rewrite Htext, length_app.
Qed.

Lemma hello_is_valid : valid hello.
Proof.
  split; [split; [reflexivity|vm_compute; congruence]|].
  left. exists 5%nat. split; reflexivity.
Qed.

Lemma append_str_text_witness :
  (exists r h',
     STRING_old.operator_add_assign (STRING_old.Other hello) abc heap0
     = Done ((r, fixed hello), h')
     /\ text r = text abc ++ text hello
     /\ STRING_old.length r h'
        = Done ((Z.of_nat (length (text abc) + length (text hello)), r), h')
     /\ (used (fixed abc) + used (fixed hello) <= capacity abc ->
         STRING_old.data_ r = STRING_old.data_ abc
         /\ capacity r = capacity abc /\ h' = heap0)
     /\ (capacity abc < used (fixed abc) + used (fixed hello) ->
         STRING_old.data_ r = next_addr heap0
         /\ capacity r
            = Z.max (used (fixed abc) + used (fixed hello)) (2 * capacity abc)
         /\ h' = after_free (STRING_old.data_ abc) (after_malloc heap0)))
  /\ (capacity abc < 2 * used (fixed abc) ->
      STRING_old.operator_add_assign STRING_old.Self abc heap0 = Crash UseAfterFree)
  /\ (2 * used (fixed abc) <= capacity abc -> 1 < used (fixed abc) ->
      STRING_old.operator_add_assign STRING_old.Self abc heap0 = Crash Overlap).
Proof.
  apply (append_str_text hello abc heap0 hello_is_valid abc_valid).
  vm_compute. congruence.
Defined.

(** X6. [operator+=(char)] with a character other than ['\0'] on a valid
    string: the characters afterwards are those of the string followed by the
    character, [length()] grows by one, and when [used_ + 1] fits the
    capacity the block is kept and nothing is allocated. *)
Theorem append_char_text (ch : byte) (this : STRING_old.t) (h : heap)
    (Hch : ch <> NUL) (Ht : valid this) :
  exists r h',
    STRING_old.operator_add_assign_char ch this h = Done (r, h')
    /\ text r = text this ++ [ch]
    /\ STRING_old.length r h'
       = Done ((Z.of_nat (length (text this)) + 1, r), h')
    /\ (used (fixed this) + 1 <= capacity this ->
        STRING_old.data_ r = STRING_old.data_ this
        /\ capacity r = capacity this /\ h' = h).
Proof.
  destruct (valid_fixed this Ht) as (a & Ha & Htu & Htc & Htb & Htr).
  assert (Hw : well_formed (fixed this)) by (apply fixed_well_formed, Ht).
  assert (Hu' : 0 <= used (fixed this) <= capacity (fixed this))
    by (rewrite fixed_capacity; lia).
  set (E := ensured (Z.of_nat a + 1 + 1) (fixed this) h).
  pose proof (ensured_capacity (Z.of_nat a + 1 + 1) (fixed this) h) as [Hc1 Hc2].
  fold E in Hc1, Hc2. rewrite fixed_capacity in Hc2.
  pose proof (ensured_block_ok _ _ h (proj1 Hw) Hu' : block_ok E) as HbE.
  pose proof (ensured_capacity_le (Z.of_nat a + 1 + 1) (fixed this) h (proj1 Hw)) as Hle.
  rewrite fixed_capacity in Hle. fold E in Hle.
  unfold block_ok in HbE, Htb.
  assert (HEa : take a (STRING_old.cstr E) = take a (STRING_old.cstr this)).
  { unfold E. rewrite ensured_take by (apply Hw || lia). by rewrite fixed_cstr. }
  pose proof (find_nul_Some _ _ Ha) as (_ & Ha2 & _).
  set (m := <[S a := NUL]> (<[a := ch]> (STRING_old.cstr E))).
  assert (Hm : find_nul m = Some (S a) /\ take (S a) m = text this ++ [ch]).
  { assert (Ht1 : take (S a) m = take a (STRING_old.cstr this) ++ [ch]).
    { unfold m. rewrite take_insert_ge by lia.
      rewrite (take_S_r _ a ch) by (apply list_lookup_insert_eq; lia).
      rewrite take_insert_ge by lia. by rewrite HEa. }
    split.
    - apply find_nul_intro.
      + unfold m. apply list_lookup_insert_eq. rewrite length_insert. lia.
      + rewrite Ht1, not_elem_of_app. split; [done|].
        apply not_elem_of_cons. split; [congruence|apply not_elem_of_nil].
    - rewrite Ht1. unfold text. by rewrite (chars_find _ _ Ha). }
  destruct Hm as [Hm1 Hm2].
  set (r := STRING_old.set_used (Z.of_nat a + 2) (STRING_old.set_cstr m E)).
  assert (Htext : text r = text this ++ [ch]).
  { unfold text, r. autorewrite with obj. by rewrite (chars_find _ _ Hm1). }
  exists r, (ensured_heap (Z.of_nat a + 1 + 1) (fixed this) h).
  split; [|split; [exact Htext|split]].
  - unfold STRING_old.operator_add_assign_char.
    rewrite decide_False by done.
    erewrite bind_done by (apply FixHeader_done; by apply valid_header_ok).
    rewrite !used_header, Htu.
    rewrite (wrap32_id (Z.of_nat a + 1 + 1)) by sizes.
    erewrite bind_done by (apply ensure_cstr_done; [done|done|sizes]).
    cbn beta iota. fold E.
    replace (0 <? Z.of_nat a + 1) with true by (symmetry; apply Z.ltb_lt; lia).
    rewrite (wrap32_id (Z.of_nat a + 1 - 1)) by sizes.
    erewrite bind_done by (apply store_done; lia).
    rewrite (wrap32_id (Z.of_nat a + 1 - 1 + 1)) by sizes.
    erewrite bind_done by (apply store_done; rewrite length_insert; lia).
    rewrite (wrap32_id (Z.of_nat a + 1 - 1 + 1 + 1)) by sizes.
    replace (Z.to_nat (Z.of_nat a + 1 - 1)) with a by lia.
    replace (Z.to_nat (Z.of_nat a + 1 - 1 + 1)) with (S a) by lia.
    replace (Z.of_nat a + 1 - 1 + 1 + 1) with (Z.of_nat a + 2) by lia.
    reflexivity.
  - assert (Hu : used r = Z.of_nat a + 2) by reflexivity.
    assert (Hlm : length m = length (STRING_old.cstr E))
      by (unfold m; by rewrite !length_insert).
    rewrite length_positive by (rewrite Hu; sizes).
    rewrite Hu. unfold text. rewrite (chars_length _ _ Ha). do 3 f_equal. lia.
  - intros Hfit. rewrite Htu in Hfit.
    destruct (ensured_keep (Z.of_nat a + 1 + 1) (fixed this) h) as [HE Hh];
      [rewrite fixed_capacity; lia|].
    fold E in HE. unfold r. autorewrite with obj.
    rewrite HE, Hh, fixed_data, fixed_capacity. done.
Qed.

Lemma append_char_text_witness :
  exists r h',
    STRING_old.operator_add_assign_char "d" abc heap0 = Done (r, h')
    /\ text r = text abc ++ ["d"%byte]
    /\ STRING_old.length r h'
       = Done ((Z.of_nat (length (text abc)) + 1, r), h')
    /\ (used (fixed abc) + 1 <= capacity abc ->
        STRING_old.data_ r = STRING_old.data_ abc
        /\ capacity r = capacity abc /\ h' = heap0).
Proof.
  apply (append_char_text "d" abc heap0); [discriminate|exact abc_valid].
Defined.

Lemma result_readable r :
  block_ok r -> capacity r + 8 <= 2147483647 -> clean r -> readable r.
Proof. intros Hb Hle Hc. split; [done|]. split; [sizes|by left]. Qed.

Lemma new_copy_full str h :
  valid str ->
  exists r,
    STRING_old.new_copy str h = Done ((r, fixed str), after_malloc h)
    /\ block_ok r /\ clean r /\ capacity r = used (fixed str)
    /\ text r = text str /\ STRING_old.data_ r = next_addr h.
Proof.
  intros Hs. destruct (valid_fixed str Hs) as (n & Hn & Hu & Hc & Hb & Hr).
  unfold block_ok in Hb.
  unfold STRING_old.new_copy.
  erewrite bind_done by (apply FixHeader_done; by apply valid_header_ok).
  rewrite used_header, Hu.
  erewrite bind_done by (apply AllocData_done; sizes).
  pose proof (next_data_length h (Z.of_nat n + 1) ltac:(lia)) as Hl.
  rewrite to_size_t_id by sizes.
  erewrite bind_done
    by (apply memcpy_done; cbn [STRING_old.cstr]; rewrite ?fixed_cstr; lia).
  eexists. split; [reflexivity|].
  cbn [STRING_old.cstr]. rewrite fixed_cstr.
  change (Z.to_nat 0) with 0%nat. rewrite take_0, drop_0, app_nil_l, Z.add_0_l.
  replace (Z.to_nat (Z.of_nat n + 1)) with (S n) by lia.
  split; [|split; [|split; [done|split; [|done]]]].
  - unfold block_ok. autorewrite with obj.
    rewrite length_app, length_take, length_drop. lia.
  - apply (clean_intro _ n); [|by autorewrite with obj].
    rewrite cstr_set_cstr.
    apply (find_nul_memcpy [] (STRING_old.cstr str) _ 0 n);
      [apply not_elem_of_nil|done|simpl; lia].
  - unfold text at 1. rewrite cstr_set_cstr.
    by rewrite (chars_copy _ _ n Hn).
Qed.

(** X7. The copy constructor on a valid string allocates one block of
    exactly [used_] bytes for the copy, which has the characters of the
    source and compares equal to it with [operator==]. *)
Theorem copy_equals_source (str : STRING_old.t) (h : heap) (Hs : valid str) :
  exists r,
    STRING_old.new_copy str h = Done ((r, fixed str), after_malloc h)
    /\ text r = text str
    /\ capacity r = Z.of_nat (length (text str)) + 1
    /\ STRING_old.data_ r = next_addr h
    /\ STRING_old.operator_eq r str (after_malloc h)
       = Done ((true, r, fixed str), after_malloc h).
Proof.
  destruct (new_copy_full str h Hs) as (r & Hrun & Hb & Hc & Hcap & Htext & Hd).
  destruct (valid_fixed str Hs) as (n & Hn & Hu & Hcs & Hbs & Hr).
  exists r. split; [exact Hrun|]. split; [exact Htext|].
  split; [|split; [exact Hd|]].
  - rewrite Hcap, Hu. unfold text. by rewrite (chars_length _ _ Hn).
  - rewrite operator_eq_text;
      [|apply result_readable; [done|lia|done]|by apply valid_readable].
    rewrite (clean_fixed r Hc). by rewrite bool_decide_eq_true_2.
Qed.

Lemma copy_equals_source_witness :
  exists r,
    STRING_old.new_copy abc heap0 = Done ((r, fixed abc), after_malloc heap0)
    /\ text r = text abc
    /\ capacity r = Z.of_nat (length (text abc)) + 1
    /\ STRING_old.data_ r = next_addr heap0
    /\ STRING_old.operator_eq r abc (after_malloc heap0)
       = Done ((true, r, fixed abc), after_malloc heap0).
Proof. apply (copy_equals_source abc heap0 abc_valid). Defined.

(** Copying a C string of length [n] over the receiver, with the content, and
    the block kept when [n + 1] bytes fit the capacity. *)
Lemma copy_in_full (this : STRING_old.t) (src : list byte) (n : nat) h :
  well_formed this -> find_nul src = Some n -> fits (Z.of_nat n + 1) ->
  exists r h',
    (let this := STRING_old.set_used 0 this in
     '(_, this) ← STRING_old.ensure_cstr (Z.of_nat n + 1) this;
     m ← memcpy (STRING_old.cstr this) 0 src 0 (Z.of_nat n + 1);
     mret (STRING_old.set_used (Z.of_nat n + 1) (STRING_old.set_cstr m this))) h
    = Done (r, h')
    /\ block_ok r /\ clean r /\ capacity r + 8 <= 2147483647
    /\ text r = chars src
    /\ (Z.of_nat n + 1 <= capacity this ->
        STRING_old.data_ r = STRING_old.data_ this
        /\ capacity r = capacity this /\ h' = h).
Proof.
  intros Hw Hn [_ Hf]. unfold sizeof_STRING_HEADER, INT32_MAX in Hf.
  pose proof (find_nul_Some _ _ Hn) as (_ & _ & Hlt).
  pose proof (well_formed_set_used 0 this Hw) as Hw0.
  pose proof (ensured_capacity_le (Z.of_nat n + 1) (STRING_old.set_used 0 this) h
                (proj1 Hw0) (proj2 Hw0) ltac:(lia)) as Hle.
  assert (Hu0 : 0 <= used (STRING_old.set_used 0 this)
                <= capacity (STRING_old.set_used 0 this)).
  { rewrite used_set_used, capacity_set_used. destruct Hw as [Hb _].
    unfold block_ok in Hb. lia. }
  cbn zeta.
  erewrite bind_done by (apply ensure_cstr_done; [done|done|sizes]).
  cbn beta iota.
  set (E := ensured (Z.of_nat n + 1) (STRING_old.set_used 0 this) h).
  pose proof (ensured_capacity (Z.of_nat n + 1) (STRING_old.set_used 0 this) h)
    as [Hc1 Hc2]. fold E in Hc1, Hc2, Hle. rewrite capacity_set_used in Hc2.
  pose proof (ensured_block_ok _ _ h (proj1 Hw0) Hu0 : block_ok E) as Hb.
  unfold block_ok in Hb.
  erewrite bind_done by (apply memcpy_done; lia).
  eexists _, _. split; [reflexivity|].
  change (Z.to_nat 0) with 0%nat. rewrite take_0, drop_0, app_nil_l, Z.add_0_l.
  replace (Z.to_nat (Z.of_nat n + 1)) with (S n) by lia.
  split; [|split; [|split; [|split]]].
  - unfold block_ok. autorewrite with obj.
    rewrite length_app, length_take, length_drop. lia.
  - apply (clean_intro _ n); [|by rewrite used_set_used].
    autorewrite with obj.
    apply (find_nul_memcpy [] src _ 0 n); [apply not_elem_of_nil|done|simpl; lia].
  - autorewrite with obj. exact Hle.
  - unfold text. autorewrite with obj.
    by rewrite (chars_copy _ _ n Hn).
  - intros Hfit.
    destruct (ensured_keep (Z.of_nat n + 1) (STRING_old.set_used 0 this) h)
      as [HE Hh]; [by rewrite capacity_set_used|].
    fold E in HE. autorewrite with obj. rewrite HE, Hh.
    autorewrite with obj. done.
Qed.

(** X8. [operator=(const STRING_old&)] on a valid source and a well-formed
    receiver: the receiver gets the characters of the source and compares
    equal to it; when [used_] of the source fits the capacity of the receiver
    its block is reused and nothing is allocated. *)
Theorem assign_copies_source (str this : STRING_old.t) (h : heap)
    (Hs : valid str) (Hw : well_formed this) :
  exists r h',
    STRING_old.operator_assign str this h = Done ((r, fixed str), h')
    /\ text r = text str
    /\ STRING_old.operator_eq r str h' = Done ((true, r, fixed str), h')
    /\ (used (fixed str) <= capacity this ->
        STRING_old.data_ r = STRING_old.data_ this
        /\ capacity r = capacity this /\ h' = h).
Proof.
  destruct (valid_fixed str Hs) as (n & Hn & Hu & Hc & Hb & Hr).
  destruct (copy_in_full this (STRING_old.cstr str) n h Hw Hn)
    as (r & h' & Hrun & Hrb & Hrc & Hle & Htext & Hkeep).
  { split; [lia|sizes]. }
  exists r, h'. split; [|split; [exact Htext|split]].
  - unfold STRING_old.operator_assign.
    erewrite bind_done by (apply FixHeader_done; by apply valid_header_ok).
    rewrite used_header, Hu, fixed_cstr.
    rewrite to_size_t_id by sizes.
    cbn zeta in Hrun. unfold mbind, M_bind in *.
    destruct (STRING_old.ensure_cstr _ _ h) as [[[p e] h1]|]; [|done].
    destruct (memcpy _ _ _ _ _ h1) as [[m h2]|]; [|done].
    injection Hrun as <- <-. reflexivity.
  - rewrite operator_eq_text;
      [|by apply result_readable|by apply valid_readable].
    rewrite (clean_fixed r Hrc). by rewrite bool_decide_eq_true_2.
  - intros Hfit. apply Hkeep. lia.
Qed.

Lemma assign_copies_source_witness :
  exists r h',
    STRING_old.operator_assign abc hello heap0 = Done ((r, fixed abc), h')
    /\ text r = text abc
    /\ STRING_old.operator_eq r abc h' = Done ((true, r, fixed abc), h')
    /\ (used (fixed abc) <= capacity hello ->
        STRING_old.data_ r = STRING_old.data_ hello
        /\ capacity r = capacity hello /\ h' = heap0).
Proof.
  apply (assign_copies_source abc hello heap0 abc_valid).
  split; [reflexivity|vm_compute; congruence].
Defined.

(** X9. [operator=(const char* cstr)] on a well-formed receiver: after a C
    string the receiver has its characters, after a null pointer it is empty
    in a new block of [kMinCapacity] bytes, having freed the old one; in both
    cases [operator!=] with the same argument is then [false]. *)
Theorem assign_cstr_copies (p : option (list byte)) (this : STRING_old.t)
    (h : heap) (Hp : cstring_ok p) (Hw : well_formed this) :
  exists r h',
    STRING_old.operator_assign_cstr p this h = Done (r, h')
    /\ text r = chars (pointee p)
    /\ STRING_old.operator_ne_cstr r p h' = Done ((false, r), h')
    /\ (p = None ->
        capacity r = kMinCapacity /\ STRING_old.data_ r = next_addr h
        /\ h' = after_malloc (after_free (STRING_old.data_ this) h)).
Proof.
  destruct p as [src|].
  - destruct Hp as (n & Hn & Hf).
    destruct (copy_in_full this src n h Hw Hn Hf)
      as (r & h' & Hrun & Hrb & Hrc & Hle & Htext & Hkeep).
    exists r, h'. split; [|split; [exact Htext|split; [|done]]].
    + unfold STRING_old.operator_assign_cstr.
      erewrite bind_done by (apply strlen_done; exact Hn).
      destruct Hf as [_ Hf]. unfold sizeof_STRING_HEADER, INT32_MAX in Hf.
      rewrite wrap32_id by sizes. rewrite to_size_t_id by sizes.
      exact Hrun.
    + rewrite operator_ne_cstr_text;
        [|by apply result_readable|by exists n].
      rewrite (clean_fixed r Hrc). by rewrite bool_decide_eq_true_2.
  - eexists _, _. split; [apply operator_assign_null_done|].
    destruct (default_state_spec h) as (Hb & Hc & Hcap).
    cbv zeta in Hb, Hc, Hcap.
    split; [reflexivity|]. split; [|done].
    rewrite operator_ne_cstr_text;
      [|apply result_readable; [done|rewrite Hcap; vm_compute; congruence|done]
       |done].
    rewrite (clean_fixed _ Hc). reflexivity.
Qed.

Lemma assign_cstr_copies_witness :
  exists r h',
    STRING_old.operator_assign_cstr (Some (literal "de")) abc heap0 = Done (r, h')
    /\ text r = chars (pointee (Some (literal "de")))
    /\ STRING_old.operator_ne_cstr r (Some (literal "de")) h' = Done ((false, r), h')
    /\ (Some (literal "de") = None ->
        capacity r = kMinCapacity /\ STRING_old.data_ r = next_addr heap0
        /\ h' = after_malloc (after_free (STRING_old.data_ abc) heap0)).
Proof.
  apply (assign_cstr_copies (Some (literal "de")) abc heap0).
  - exists 2%nat. split; [reflexivity|]. vm_compute. split; congruence.
  - split; [reflexivity|vm_compute; congruence].
Defined.

(** X10. [operator+(const STRING_old&)] on valid strings returns a new string
    with the characters of [this] followed by those of [str]; it is built in
    a block of its own, and the operands come back with their characters
    unchanged. *)
Theorem concat_text (this str : STRING_old.t) (h : heap)
    (Ht : valid this) (Hs : valid str) :
  exists r h',
    STRING_old.operator_add this str h = Done ((r, fixed this, fixed str), h')
    /\ text r = text this ++ text str
    /\ STRING_old.length r h'
       = Done ((Z.of_nat (length (text this) + length (text str)), r), h')
    /\ text (fixed this) = text this /\ text (fixed str) = text str
    /\ live_blocks h h' = 1.
Proof.
  destruct (valid_fixed this Ht) as (a & Ha & Htu & Htc & Htb & Htr).
  destruct (valid_fixed str Hs) as (n & Hn & Hsu & Hsc & Hsb & Hsr).
  destruct (new_copy_full this h Ht) as (c & Hcopy & Hcb & Hcc & Hccap & Hctext & Hcd).
  assert (Hcv : valid c).
  { split; [split; [done|]|by left]. rewrite Hccap. sizes. }
  set (E := ensured (Z.of_nat a + 1 + (Z.of_nat n + 1)) c (after_malloc h)).
  destruct (operator_add_assign_full str c (after_malloc h) Hs Hcv)
    as (r & h' & Hadd & Hb & Hc & Hle & _ & Htext & Hkeep).
  exists r, h'. split; [|split; [by rewrite Htext, Hctext|split; [|split; [|split]]]].
  - unfold STRING_old.operator_add.
    erewrite bind_done by exact Hcopy. cbn beta iota.
    erewrite bind_done by exact Hadd. reflexivity.
  - rewrite (clean_length _ _ Hb Hle Hc). by rewrite Htext, Hctext, length_app.
  - apply text_fixed.
  - apply text_fixed.
  - (* one block more: the copy, moved once if it had to grow *)
    clear Hkeep. revert Hadd. unfold STRING_old.operator_add_assign.
    erewrite bind_done by (apply FixHeader_done; by apply valid_header_ok).
    erewrite bind_done by (apply FixHeader_done; by apply valid_header_ok).
    rewrite (clean_fixed c Hcc).
    assert (Hcu : used c = Z.of_nat a + 1).
    { destruct Hcc as (k & Hk & Hcu). unfold text in Hctext.
      pose proof (chars_length _ _ Hk) as H1.
      pose proof (chars_length _ _ Ha) as H2.
      rewrite Hctext in H1. lia. }
    unfold block_ok in Hcb.
    rewrite !used_header, Hsu, Hcu.
    rewrite (wrap32_id (Z.of_nat a + 1 + (Z.of_nat n + 1))) by sizes.
    erewrite bind_done
      by (apply ensure_cstr_done; [apply Hcv|lia|sizes]).
    cbn beta iota. unfold mbind, M_bind.
    assert (Hlive : live_blocks h
              (ensured_heap (Z.of_nat a + 1 + (Z.of_nat n + 1)) c (after_malloc h)) = 1).
    { unfold ensured_heap, live_blocks.
      destruct (_ <=? _); cbn [allocs freed after_malloc after_free length]; lia. }
    destruct (1 <? Z.of_nat a + 1);
      destruct (memcpy _ _ _ _ _ _) as [[m h2]|] eqn:Em; try done;
      unfold memcpy in Em; destruct (_ && _) in Em; try done;
      injection Em as _ <-; intros [= _ <-]; exact Hlive.
Qed.

Lemma concat_text_witness :
  exists r h',
    STRING_old.operator_add abc hello heap0 = Done ((r, fixed abc, fixed hello), h')
    /\ text r = text abc ++ text hello
    /\ STRING_old.length r h'
       = Done ((Z.of_nat (length (text abc) + length (text hello)), r), h')
    /\ text (fixed abc) = text abc /\ text (fixed hello) = text hello
    /\ live_blocks heap0 h' = 1.
Proof. apply (concat_text abc hello heap0 abc_valid hello_is_valid). Defined.

(** ** The dirty sentinel, there and back *)

Lemma fixed_set_dirty x :
  readable x -> fixed (STRING_old.set_used (-1) x) = fixed x.
Proof.
  intros Hx. destruct (readable_fixed x Hx) as (n & Hn & Hu & _).
  rewrite (fixed_dirty (STRING_old.set_used (-1) x) n) by done.
  destruct Hx as (_ & _ & [(k & Hk & Hku)|[Hd _]]).
  - rewrite fixed_positive by lia. destruct x as [d [c u] m].
    unfold STRING_old.set_used. cbn in *. do 2 f_equal. congruence.
  - by rewrite (fixed_dirty x n).
Qed.

(** X11. On a readable string, [c_str()] and [operator[]] hand out the data
    pointer, resp. a reference, and leave [used_] at the sentinel [-1]; the
    next [length()] returns the number of characters and leaves the header as
    [FixHeader] leaves the original: nothing of the cached length is lost. *)
Theorem dirty_then_length_restores (x : STRING_old.t) (i : Z) (h : heap)
    (Hx : readable x) :
  STRING_old.c_str x h
  = Done ((Some (STRING_old.GetCStr x), STRING_old.set_used (-1) x), h)
  /\ STRING_old.operator_index i x h = Done ((i, STRING_old.set_used (-1) x), h)
  /\ STRING_old.length (STRING_old.set_used (-1) x) h
     = Done ((Z.of_nat (length (text x)), fixed x), h)
  /\ (clean x -> fixed x = x).
Proof.
  destruct (readable_fixed x Hx) as (n & Hn & Hu & Hc & Hb & Hr).
  split; [|split; [reflexivity|split; [|apply clean_fixed]]].
  - unfold STRING_old.c_str. rewrite used_header.
    destruct (used x =? 0) eqn:E; [|reflexivity].
    apply Z.eqb_eq in E. destruct Hx as (_ & _ & [(k & _ & Hk)|[Hd _]]); lia.
  - unfold STRING_old.length.
    erewrite bind_done.
    2:{ apply FixHeader_readable. destruct Hx as (Hxb & Hxr & _).
        split; [done|]. split; [done|]. right. split; [reflexivity|by eexists]. }
    rewrite (fixed_set_dirty x Hx), used_header, Hu.
    rewrite wrap32_id by sizes.
    unfold text. rewrite (chars_length _ _ Hn).
    replace (Z.of_nat n + 1 - 1) with (Z.of_nat n) by lia. reflexivity.
Qed.

Lemma dirty_then_length_restores_witness :
  STRING_old.c_str abc heap0
  = Done ((Some (STRING_old.GetCStr abc), STRING_old.set_used (-1) abc), heap0)
  /\ STRING_old.operator_index 1 abc heap0
     = Done ((1, STRING_old.set_used (-1) abc), heap0)
  /\ STRING_old.length (STRING_old.set_used (-1) abc) heap0
     = Done ((Z.of_nat (length (text abc)), fixed abc), heap0)
  /\ (clean abc -> fixed abc = abc).
Proof. apply (dirty_then_length_restores abc 1 heap0 abc_readable). Defined.

(** ** Assigning twice *)

Lemma ensure_cstr_keep n s h :
  n <= capacity s ->
  STRING_old.ensure_cstr n s h = Done ((STRING_old.GetCStr s, s), h).
Proof.
  intros H. unfold STRING_old.ensure_cstr. rewrite capacity_header.
  apply Z.leb_le in H. by rewrite H.
Qed.

Lemma assign_full (src : list byte) (len : Z) this h :
  data_ok (Some src) len -> well_formed this ->
  exists r h',
    STRING_old.assign (Some src) len this h = Done (r, h')
    /\ block_ok r /\ used r = len + 1 /\ len + 1 <= capacity r
    /\ capacity r + 8 <= 2147483647
    /\ take (Z.to_nat len) (STRING_old.cstr r) = take (Z.to_nat len) src
    /\ STRING_old.cstr r !! Z.to_nat len = Some NUL.
Proof.
  intros [Hlen [_ Hf]] Hw. unfold sizeof_STRING_HEADER, INT32_MAX in Hf.
  change (pointee (Some src)) with src in Hlen.
  pose proof (well_formed_set_used 0 this Hw) as Hw0.
  pose proof (ensured_capacity_le (len + 1) (STRING_old.set_used 0 this) h
                (proj1 Hw0) (proj2 Hw0) ltac:(lia)) as Hle.
  assert (Hu0 : 0 <= used (STRING_old.set_used 0 this)
                <= capacity (STRING_old.set_used 0 this)).
  { rewrite used_set_used, capacity_set_used. destruct Hw as [Hb _].
    unfold block_ok in Hb. lia. }
  unfold STRING_old.assign. change (pointee (Some src)) with src.
  rewrite wrap32_id by sizes.
  erewrite bind_done by (apply ensure_cstr_done; [done|done|sizes]).
  cbn beta iota.
  set (E := ensured (len + 1) (STRING_old.set_used 0 this) h).
  pose proof (ensured_capacity (len + 1) (STRING_old.set_used 0 this) h)
    as [Hc1 Hc2]. fold E in Hc1, Hc2, Hle.
  pose proof (ensured_block_ok _ _ h (proj1 Hw0) Hu0 : block_ok E) as Hb.
  unfold block_ok in Hb.
  rewrite to_size_t_id by sizes.
  erewrite bind_done by (apply memcpy_done; lia).
  change (Z.to_nat 0) with 0%nat. rewrite take_0, drop_0, app_nil_l, Z.add_0_l.
  set (m := take (Z.to_nat len) src ++ drop (Z.to_nat len) (STRING_old.cstr E)).
  assert (Hm : length m = length (STRING_old.cstr E)).
  { unfold m. rewrite length_app, length_take, length_drop. lia. }
  erewrite bind_done by (apply store_done; lia).
  eexists _, _. split; [reflexivity|].
  autorewrite with obj.
  split; [unfold block_ok; autorewrite with obj; rewrite length_insert; lia|].
  split; [done|]. split; [done|]. split; [done|]. split.
  - rewrite take_insert_ge by lia. unfold m.
    rewrite take_app_le by (rewrite length_take; lia).
    rewrite take_take. f_equal. lia.
  - apply list_lookup_insert_eq. lia.
Qed.

(** X12. [assign(cstr, len)] is idempotent: on the string a first call leaves,
    a second call with the same arguments returns the same object and
    allocates nothing. *)
Theorem assign_idempotent (src : list byte) (len : Z) (this : STRING_old.t)
    (h : heap) (Hd : data_ok (Some src) len) (Hw : well_formed this) :
  exists r h',
    STRING_old.assign (Some src) len this h = Done (r, h')
    /\ STRING_old.assign (Some src) len r h' = Done (r, h').
Proof.
  destruct (assign_full src len this h Hd Hw)
    as (r & h' & Hrun & Hb & Hu & Hc & Hle & Htake & Hnul).
  exists r, h'. split; [exact Hrun|].
  destruct Hd as [Hlen [_ Hf]]. unfold sizeof_STRING_HEADER, INT32_MAX in Hf.
  change (pointee (Some src)) with src in Hlen. unfold block_ok in Hb.
  unfold STRING_old.assign. change (pointee (Some src)) with src.
  rewrite wrap32_id by sizes.
  erewrite bind_done by (apply ensure_cstr_keep; by rewrite capacity_set_used).
  cbn beta iota. autorewrite with obj.
  rewrite to_size_t_id by sizes.
  erewrite bind_done by (apply memcpy_done; lia).
  change (Z.to_nat 0) with 0%nat. rewrite take_0, drop_0, app_nil_l, Z.add_0_l.
  rewrite <- Htake, take_drop.
  erewrite bind_done by (apply store_done; lia).
  rewrite list_insert_id by done.
  destruct r as [d [c u] m]. cbn in Hu. subst u. reflexivity.
Qed.

Lemma assign_idempotent_witness :
  exists r h',
    STRING_old.assign (Some a0b) 3 abc heap0 = Done (r, h')
    /\ STRING_old.assign (Some a0b) 3 r h' = Done (r, h').
Proof.
  apply (assign_idempotent a0b 3 abc heap0).
  - vm_compute. repeat split; congruence.
  - split; [reflexivity|vm_compute; congruence].
Defined.

(** ** Blocks allocated and freed *)

Lemma live_blocks_refl h : live_blocks h h = 0.
Proof. unfold live_blocks. lia. Qed.

Lemma live_blocks_trans h1 h2 h3 :
  live_blocks h1 h3 = live_blocks h1 h2 + live_blocks h2 h3.
Proof. unfold live_blocks. lia. Qed.

Lemma allocates_ret {A} (a : A) : allocates 0 (mret a : M A).
Proof. intros h a' h' [= _ <-]. apply live_blocks_refl. Qed.

Lemma allocates_crash {A} k f : allocates k (crash f : M A).
Proof. intros h a h' H. discriminate H. Qed.

Lemma allocates_bind {A B} (k1 k2 k : Z) (m : M A) (f : A -> M B) :
  allocates k1 m -> (forall a, allocates k2 (f a)) -> k = k1 + k2 ->
  allocates k (m ≫= f).
Proof.
  intros Hm Hf -> h b h' H. unfold mbind, M_bind in H.
  destruct (m h) as [[a h1]|] eqn:E; [|done].
  rewrite (live_blocks_trans h h1 h'), (Hm _ _ _ E), (Hf _ _ _ _ H). done.
Qed.

Lemma allocates_malloc n : allocates 1 (malloc n).
Proof.
  intros h a h' H. unfold malloc in H. destruct (_ && _); [|done].
  destruct (supply h (allocs h)). injection H as _ <-.
  unfold live_blocks. cbn. lia.
Qed.

Lemma allocates_free a : allocates (-1) (free a).
Proof.
  intros h u h' [= _ <-]. unfold live_blocks. cbn [allocs freed length]. lia.
Qed.

Lemma allocates_load m i : allocates 0 (load m i).
Proof.
  unfold load. destruct (in_bounds i m); [|apply allocates_crash].
  destruct (m !! Z.to_nat i); [apply allocates_ret|apply allocates_crash].
Qed.

Lemma allocates_store m i b : allocates 0 (store m i b).
Proof.
  unfold store. destruct (in_bounds i m); [apply allocates_ret|apply allocates_crash].
Qed.

Lemma allocates_memcpy d doff s soff n : allocates 0 (memcpy d doff s soff n).
Proof.
  unfold memcpy. destruct (_ && _); [apply allocates_ret|apply allocates_crash].
Qed.

Lemma allocates_memcpy_within m doff soff n :
  allocates 0 (memcpy_within m doff soff n).
Proof.
  unfold memcpy_within. destruct (_ && _); [|apply allocates_crash].
  destruct (_ || _); [apply allocates_ret|].
  destruct (_ || _); [apply allocates_ret|apply allocates_crash].
Qed.

Lemma allocates_strlen m : allocates 0 (strlen m).
Proof.
  unfold strlen. destruct (find_nul m); [apply allocates_ret|apply allocates_crash].
Qed.

Lemma allocates_memcmp_eq p q n : allocates 0 (memcmp_eq p q n).
Proof.
  unfold memcmp_eq. destruct (_ && _); [apply allocates_ret|apply allocates_crash].
Qed.

Lemma allocates_strncpy d s n : allocates 0 (strncpy d s n).
Proof.
  unfold strncpy. destruct (_ && _); [|apply allocates_crash].
  destruct (strncpy_bytes _ _); [apply allocates_ret|apply allocates_crash].
Qed.

Lemma allocates_memread m n : allocates 0 (STRING_old.memread m n).
Proof.
  unfold STRING_old.memread.
  destruct (_ && _); [apply allocates_ret|apply allocates_crash].
Qed.

Create HintDb alloc discriminated.
#[global] Hint Resolve allocates_malloc allocates_free allocates_load
  allocates_store allocates_memcpy allocates_memcpy_within allocates_strlen
  allocates_memcmp_eq allocates_strncpy allocates_memread : alloc.

(** One step through a computation: a bind, a branch of the code, a result,
    a fault, or a computation already accounted for. *)
Ltac alloc_step :=
  match goal with
  | |- allocates _ (mret _) => apply allocates_ret
  | |- allocates _ (crash _) => apply allocates_crash
  | |- allocates _ (_ ≫= _) =>
      eapply allocates_bind;
      [ | intros ?;
          repeat match goal with x : (_ * _)%type |- _ => destruct x end;
          cbn beta iota zeta | ]
  | |- allocates _ (if ?c then _ else _) => destruct c
  | |- allocates _ (match ?x with _ => _ end) => destruct x
  | |- _ = _ => reflexivity
  | |- _ => solve [eauto with alloc]
  end.

Ltac alloc := repeat alloc_step.

Lemma allocates_malloc_block n : allocates 1 (malloc_block n).
Proof. unfold malloc_block. alloc. Qed.

Lemma allocates_AllocData u c : allocates 1 (STRING_old.AllocData u c).
Proof. unfold STRING_old.AllocData. pose proof allocates_malloc_block. alloc. Qed.

Lemma allocates_ensure_cstr n s : allocates 0 (STRING_old.ensure_cstr n s).
Proof.
  unfold STRING_old.ensure_cstr, STRING_old.DiscardData.
  pose proof allocates_malloc_block. alloc.
Qed.

Lemma allocates_FixHeader s : allocates 0 (STRING_old.FixHeader s).
Proof. unfold STRING_old.FixHeader. alloc. Qed.

#[global] Hint Resolve allocates_malloc_block allocates_AllocData
  allocates_ensure_cstr allocates_FixHeader : alloc.

Lemma allocates_new : allocates 1 STRING_old.new.
Proof. unfold STRING_old.new. alloc. Qed.

Lemma allocates_new_copy str : allocates 1 (STRING_old.new_copy str).
Proof. unfold STRING_old.new_copy. alloc. Qed.

Lemma allocates_new_cstr p : allocates 1 (STRING_old.new_cstr p).
Proof. unfold STRING_old.new_cstr. alloc. Qed.

Lemma allocates_new_data p n : allocates 1 (STRING_old.new_data p n).
Proof. unfold STRING_old.new_data. alloc. Qed.

Lemma allocates_truncate_at k s : allocates 0 (STRING_old.truncate_at k s).
Proof. unfold STRING_old.truncate_at. alloc. Qed.

Lemma allocates_operator_assign str s : allocates 0 (STRING_old.operator_assign str s).
Proof. unfold STRING_old.operator_assign. alloc. Qed.

Lemma allocates_operator_assign_cstr p s :
  allocates 0 (STRING_old.operator_assign_cstr p s).
Proof. unfold STRING_old.operator_assign_cstr, STRING_old.DiscardData. alloc. Qed.

Lemma allocates_assign p n s : allocates 0 (STRING_old.assign p n s).
Proof. unfold STRING_old.assign. alloc. Qed.

Lemma allocates_operator_add_assign str s :
  allocates 0 (STRING_old.operator_add_assign str s).
Proof.
  unfold STRING_old.operator_add_assign. destruct str; cbn beta iota; alloc.
Qed.

Lemma allocates_operator_add_assign_cstr p s :
  allocates 0 (STRING_old.operator_add_assign_cstr p s).
Proof. unfold STRING_old.operator_add_assign_cstr. alloc. Qed.

Lemma allocates_operator_add_assign_char c s :
  allocates 0 (STRING_old.operator_add_assign_char c s).
Proof. unfold STRING_old.operator_add_assign_char. alloc. Qed.

#[global] Hint Resolve allocates_new allocates_new_copy allocates_truncate_at
  allocates_operator_add_assign : alloc.

Lemma allocates_operator_add x y : allocates 1 (STRING_old.operator_add x y).
Proof. unfold STRING_old.operator_add. alloc. Qed.

Lemma allocates_operator_add_char x c :
  allocates 1 (STRING_old.operator_add_char x c).
Proof. unfold STRING_old.operator_add_char. alloc. Qed.

Lemma allocates_DeSerialize host swap fp s :
  allocates 0 (STRING_old.DeSerialize host swap fp s).
Proof. unfold STRING_old.DeSerialize. alloc. Qed.

Lemma allocates_DeSerialize_TFile host fp s :
  allocates 0 (STRING_old.DeSerialize_TFile host fp s).
Proof. unfold STRING_old.DeSerialize_TFile. alloc. Qed.

(** X13. No operation leaks a block or frees one it does not replace:
    whenever an operation returns, on any arguments at all, the number of
    blocks allocated less the number freed is one for the constructors and
    [operator+] (the block of the new object) and zero for every mutator
    (a block that is replaced is freed). *)
Theorem operations_balance_blocks (op : operation) (h h' : heap)
    (r : STRING_old.t) (Hrun : perform op h = Done (r, h')) :
  live_blocks h h' = if constructs op then 1 else 0.
Proof.
  revert h r h' Hrun.
  change (allocates (if constructs op then 1 else 0) (perform op)).
  destruct op; cbn [perform constructs]; alloc.
  all: try solve [eauto using allocates_new_cstr, allocates_new_data,
    allocates_operator_assign, allocates_operator_assign_cstr, allocates_assign,
    allocates_operator_add_assign_cstr, allocates_operator_add_assign_char,
    allocates_operator_add with alloc].
Qed.

Lemma operations_balance_blocks_witness :
  exists r h',
    perform (AppendChar "d" abc) heap0 = Done (r, h')
    /\ STRING_old.data_ r <> STRING_old.data_ abc
    /\ live_blocks heap0 h' = if constructs (AppendChar "d" abc) then 1 else 0.
Proof.
  eexists _, _. split; [vm_compute; reflexivity|]. split; [vm_compute; congruence|].
  eapply (operations_balance_blocks (AppendChar "d" abc) heap0).
  vm_compute. reflexivity.
Defined.

(** ** operator+(char) as it is *)

(** X14. [operator+(char)] on a valid string returns a string of [length()]
    one, whatever the length of [this]: [used_] is 2 and the data starts with
    the first character of [this] (or its terminator when [this] is empty),
    the character [ch] and a terminator; one block is allocated for it. *)
Theorem operator_add_char_result (this : STRING_old.t) (ch : byte) (h : heap)
    (Ht : valid this) :
  exists r h',
    STRING_old.operator_add_char this ch h = Done ((r, fixed this), h')
    /\ used r = 2
    /\ take 3 (STRING_old.cstr r) = [default NUL (head (text this)); ch; NUL]
    /\ STRING_old.length r h' = Done ((1, r), h')
    /\ live_blocks h h' = 1.
Proof.
  destruct (valid_fixed this Ht) as (a & Ha & Htu & Htc & Htb & Htr).
  unfold block_ok in Htb.
  set (h1 := after_malloc h).
  set (fresh := STRING_old.mk (next_addr h) (mkHeader kMinCapacity 1)
                  (NUL :: drop 1 (next_data h kMinCapacity))).
  destruct (default_state_spec h) as (Hfb & Hfc & Hfcap). fold fresh in Hfb, Hfc, Hfcap.
  assert (Hfw : well_formed fresh).
  { split; [done|]. rewrite Hfcap. vm_compute. congruence. }
  set (E := ensured (Z.of_nat a + 1 + 1) fresh h1).
  assert (Hfu : 0 <= used fresh <= capacity fresh)
    by (rewrite Hfcap; vm_compute; split; congruence).
  pose proof (ensured_capacity (Z.of_nat a + 1 + 1) fresh h1) as [Hc1 Hc2].
  fold E in Hc1, Hc2. rewrite Hfcap in Hc2. unfold kMinCapacity in Hc2.
  pose proof (ensured_block_ok _ _ h1 Hfb Hfu : block_ok E) as HbE.
  unfold block_ok in HbE.
  assert (HEu : used E = 1) by (unfold E; by rewrite ensured_used).
  set (m1 := take (S a) (STRING_old.cstr this)
             ++ drop (S a) (STRING_old.cstr E)).
  assert (Hm1 : length m1 = length (STRING_old.cstr E)).
  { unfold m1. rewrite length_app, length_take, length_drop. lia. }
  set (r := STRING_old.set_used 2
              (STRING_old.set_cstr (<[2%nat := NUL]> (<[1%nat := ch]> m1)) E)).
  exists r, (ensured_heap (Z.of_nat a + 1 + 1) fresh h1).
  assert (Hrun : STRING_old.operator_add_char this ch h
                 = Done ((r, fixed this), ensured_heap (Z.of_nat a + 1 + 1) fresh h1)).
  { unfold STRING_old.operator_add_char.
    erewrite bind_done by apply new_done. fold fresh h1.
    erewrite bind_done by (apply FixHeader_done; by apply valid_header_ok).
    rewrite !used_header, Htu, fixed_cstr.
    rewrite (wrap32_id (Z.of_nat a + 1 + 1)) by sizes.
    erewrite bind_done by (apply ensure_cstr_done; [done|done|sizes]).
    cbn beta iota. fold E. rewrite used_header, HEu.
    rewrite to_size_t_id by sizes.
    erewrite bind_done by (apply memcpy_done; lia).
    change (Z.to_nat 0) with 0%nat. rewrite take_0, drop_0, app_nil_l, Z.add_0_l.
    replace (Z.to_nat (Z.of_nat a + 1)) with (S a) by lia. fold m1.
    erewrite bind_done by (apply store_done; lia).
    rewrite (wrap32_id (1 + 1)) by (vm_compute; split; congruence).
    erewrite bind_done by (apply store_done; rewrite length_insert; lia).
    reflexivity. }
  split; [exact Hrun|]. split; [reflexivity|]. split; [|split].
  - unfold r. autorewrite with obj.
    assert (H0 : m1 !! 0%nat = Some (default NUL (head (text this)))).
    { unfold m1. rewrite lookup_app_l by (rewrite length_take; lia).
      rewrite lookup_take_lt by lia. unfold text.
      rewrite (chars_find _ _ Ha).
      pose proof (find_nul_Some _ _ Ha) as (Hnul & _ & _).
      destruct (STRING_old.cstr this) as [|b0 rest]; [done|].
      destruct a as [|a']; [by injection Hnul as ->|reflexivity]. }
    apply list_eq. intros [|[|[|i]]].
    + rewrite lookup_take_lt by lia.
      rewrite !list_lookup_insert_ne by lia. exact H0.
    + rewrite lookup_take_lt by lia.
      rewrite list_lookup_insert_ne by lia.
      apply list_lookup_insert_eq. lia.
    + rewrite lookup_take_lt by lia.
      apply list_lookup_insert_eq. rewrite length_insert. lia.
    + rewrite lookup_take_ge by lia. done.
  - rewrite length_positive by (vm_compute; split; congruence). reflexivity.
  - exact (allocates_operator_add_char this ch _ _ _ Hrun).
Qed.

Lemma operator_add_char_result_witness :
  exists r h',
    STRING_old.operator_add_char hello "!" heap0 = Done ((r, fixed hello), h')
    /\ used r = 2
    /\ take 3 (STRING_old.cstr r) = [default NUL (head (text hello)); "!"%byte; NUL]
    /\ STRING_old.length r h' = Done ((1, r), h')
    /\ live_blocks heap0 h' = 1.
Proof. apply (operator_add_char_result hello "!" heap0 hello_is_valid). Defined.

(** ** Serialisation in general *)

Lemma uint32_of_bytes_nonneg host bs : 0 <= uint32_of_bytes host bs.
Proof.
  assert (Hb : forall b, 0 <= Z_of_byte b) by (intros b; unfold Z_of_byte; lia).
  unfold uint32_of_bytes.
  destruct (match host with LittleEndian => bs | BigEndian => rev bs end)
    as [|b0 [|b1 [|b2 [|b3 [|]]]]]; try lia.
  pose proof (Hb b0); pose proof (Hb b1); pose proof (Hb b2); pose proof (Hb b3).
  lia.
Qed.

(** A value read on a machine of the other byte order, with its bytes
    reversed, is the value that was written. *)
Lemma uint32_of_bytes_opposite host bs :
  uint32_of_bytes (opposite host) (ReverseN bs) = uint32_of_bytes host bs.
Proof.
  destruct host; unfold uint32_of_bytes, ReverseN, opposite;
    by rewrite ?rev_involutive.
Qed.

Lemma uint32_of_bytes_reader host (swap : bool) v :
  0 <= v < 4294967296 ->
  uint32_of_bytes (if swap then opposite host else host)
    (if swap then ReverseN (bytes_of_uint32 host v) else bytes_of_uint32 host v)
  = v.
Proof.
  intros Hv. destruct swap; [rewrite uint32_of_bytes_opposite|];
    by apply uint32_of_bytes_of_uint32.
Qed.

(** Two writes in a row, with room for both. *)
Lemma fwrite_fwrite (a b : list byte) (fp : FILE) :
  (f_pos fp + length a + length b <= f_limit fp)%nat ->
  exists pre post,
    length pre = f_pos fp
    /\ fwrite a fp
       = (true, mkFILE (pre ++ a ++ drop (f_pos fp + length a) (f_bytes fp))
                  (f_pos fp + length a) (f_limit fp))
    /\ fwrite b (mkFILE (pre ++ a ++ drop (f_pos fp + length a) (f_bytes fp))
                   (f_pos fp + length a) (f_limit fp))
       = (true, mkFILE (pre ++ a ++ b ++ post)
                  (f_pos fp + length a + length b) (f_limit fp)).
Proof.
  intros Hroom.
  set (pre := resize (f_pos fp) NUL (f_bytes fp)).
  assert (Hpre : length pre = f_pos fp) by apply length_resize.
  exists pre,
    (drop (f_pos fp + length a + length b)
       (pre ++ a ++ drop (f_pos fp + length a) (f_bytes fp))).
  split; [done|]. split; [apply fwrite_done; lia|].
  rewrite fwrite_done by (cbn [f_pos f_limit]; lia).
  cbn [f_pos f_limit f_bytes].
  replace (resize (f_pos fp + length a) NUL
             (pre ++ a ++ drop (f_pos fp + length a) (f_bytes fp)))
    with (pre ++ a).
  2:{ rewrite resize_le by (rewrite !length_app; lia).
      rewrite (app_assoc pre a). symmetry.
      apply take_app_length'. rewrite length_app. lia. }
  rewrite <- app_assoc. reflexivity.
Qed.

(** What [Serialize(FILE* fp)] writes when there is room: the four bytes of
    the length, then the characters. *)
Lemma Serialize_done host fp s h n :
  terminated_ok s -> used (fixed s) = n + 1 ->
  (f_pos fp + 4 + Z.to_nat n <= f_limit fp)%nat ->
  exists pre post,
    length pre = f_pos fp
    /\ STRING_old.Serialize host fp s h
       = Done ((true,
                mkFILE (pre ++ bytes_of_uint32 host n
                        ++ take (Z.to_nat n) (STRING_old.cstr s) ++ post)
                  (f_pos fp + 4 + Z.to_nat n) (f_limit fp),
                fixed s), h).
Proof.
  intros Ho Hn Hroom.
  pose proof (terminated_ok_header_ok _ Ho) as Hoh.
  pose proof (fixed_terminated _ Ho) as [Hou Hot].
  rewrite fixed_capacity in Hou.
  destruct Ho as [[Hob Hor] _]. unfold block_ok in Hob.
  set (hdr := bytes_of_uint32 host n).
  set (data := take (Z.to_nat n) (STRING_old.cstr s)).
  assert (Hhdr : length hdr = 4%nat) by apply bytes_of_uint32_length.
  assert (Hdata : length data = Z.to_nat n) by (unfold data; rewrite length_take; lia).
  destruct (fwrite_fwrite hdr data fp) as (pre & post & Hpre & Hw1 & Hw2);
    [lia|].
  exists pre, post. split; [done|].
  unfold STRING_old.Serialize.
  erewrite bind_done by (by apply length_done). cbn beta iota.
  replace (used (fixed s) - 1) with n by lia.
  rewrite to_uint32_id by sizes. fold hdr.
  rewrite Hw1.
  erewrite bind_done by (apply memread_done; rewrite ?fixed_cstr; lia).
  rewrite fixed_cstr. fold data. rewrite Hw2, Hhdr, Hdata. reflexivity.
Qed.

(** The same for [Serialize(TFile* fp)]. *)
Lemma Serialize_TFile_done host fp s h n :
  terminated_ok s -> used (fixed s) = n + 1 ->
  (f_pos (tf_file fp) + 4 + Z.to_nat n <= f_limit (tf_file fp))%nat ->
  exists pre post,
    length pre = f_pos (tf_file fp)
    /\ STRING_old.Serialize_TFile host fp s h
       = Done ((true,
                mkTFile
                  (mkFILE (pre ++ bytes_of_uint32 host n
                           ++ take (Z.to_nat n) (STRING_old.cstr s) ++ post)
                     (f_pos (tf_file fp) + 4 + Z.to_nat n) (f_limit (tf_file fp)))
                  (tf_swap fp),
                fixed s), h).
Proof.
  intros Ho Hn Hroom.
  pose proof (terminated_ok_header_ok _ Ho) as Hoh.
  pose proof (fixed_terminated _ Ho) as [Hou Hot].
  rewrite fixed_capacity in Hou.
  destruct Ho as [[Hob Hor] _]. unfold block_ok in Hob.
  set (hdr := bytes_of_uint32 host n).
  set (data := take (Z.to_nat n) (STRING_old.cstr s)).
  assert (Hhdr : length hdr = 4%nat) by apply bytes_of_uint32_length.
  assert (Hdata : length data = Z.to_nat n) by (unfold data; rewrite length_take; lia).
  destruct (fwrite_fwrite hdr data (tf_file fp)) as (pre & post & Hpre & Hw1 & Hw2);
    [lia|].
  exists pre, post. split; [done|].
  unfold STRING_old.Serialize_TFile, TFileOps.Serialize.
  erewrite bind_done by (by apply length_done). cbn beta iota.
  replace (used (fixed s) - 1) with n by lia.
  rewrite to_uint32_id by sizes. fold hdr.
  rewrite Hw1.
  erewrite bind_done by (apply memread_done; rewrite ?fixed_cstr; lia).
  rewrite fixed_cstr. fold data. cbn [tf_file tf_swap].
  rewrite Hw2, Hhdr, Hdata. reflexivity.
Qed.

(** What [DeSerialize(bool swap, FILE* fp)] does once four bytes that declare
    a length [n] within the ceiling were read: the receiver is truncated to
    [n] characters, the bytes that are there, at most [n], overwrite its
    start, and the result tells whether there were [n]. *)
Lemma DeSerialize_done host (swap : bool) fp x h hdr data n :
  header_ok x ->
  take 4 (drop (f_pos fp) (f_bytes fp)) = hdr -> length hdr = 4%nat ->
  uint32_of_bytes host (if swap then ReverseN hdr else hdr) = n ->
  n <= UINT16_MAX ->
  take (Z.to_nat n) (drop (f_pos fp + 4) (f_bytes fp)) = data ->
  STRING_old.DeSerialize host swap fp x h
  = Done ((bool_decide (length data = Z.to_nat n),
           mkFILE (f_bytes fp) (f_pos fp + 4 + length data) (f_limit fp),
           STRING_old.set_cstr
             (data ++ drop (length data) (STRING_old.cstr (truncated n x h)))
             (truncated n x h)),
          ensured_heap (n + 1) (fixed x) h).
Proof.
  intros Hx Hhdr Hlen Hn Hmax Hdata.
  assert (Hn0 : 0 <= n) by (rewrite <- Hn; apply uint32_of_bytes_nonneg).
  pose proof (truncated_block_ok n x h Hx) as Hb. unfold block_ok in Hb.
  pose proof (truncated_capacity n x h) as [Hc _].
  assert (Hdl : (length data <= Z.to_nat n)%nat)
    by (rewrite <- Hdata, length_take; lia).
  unfold STRING_old.DeSerialize, fread. cbn beta iota zeta.
  rewrite Hhdr, Hlen. rewrite bool_decide_eq_true_2 by done. cbn [negb].
  rewrite !Hn.
  replace (UINT16_MAX <? n) with false by (symmetry; apply Z.ltb_ge; lia).
  rewrite wrap32_id by sizes.
  erewrite bind_done by (apply truncate_at_done; [done|done|sizes]).
  cbn [f_pos f_bytes f_limit]. rewrite Hdata.
  erewrite bind_done by (apply memcpy_done; lia).
  change (Z.to_nat 0) with 0%nat.
  rewrite Z.add_0_l, Nat2Z.id, take_0, drop_0, app_nil_l.
  rewrite (take_ge data) by lia. reflexivity.
Qed.

(** The same for [DeSerialize(TFile* fp)], which has no ceiling: any declared
    length whose block size is an [int]. *)
Lemma DeSerialize_TFile_done host fp x h hdr data n :
  header_ok x ->
  take 4 (drop (f_pos (tf_file fp)) (f_bytes (tf_file fp))) = hdr ->
  length hdr = 4%nat ->
  uint32_of_bytes host (if tf_swap fp then ReverseN hdr else hdr) = n ->
  n + 1 + sizeof_STRING_HEADER <= INT32_MAX ->
  take (Z.to_nat n) (drop (f_pos (tf_file fp) + 4) (f_bytes (tf_file fp))) = data ->
  STRING_old.DeSerialize_TFile host fp x h
  = Done ((bool_decide (length data = Z.to_nat n),
           mkTFile (mkFILE (f_bytes (tf_file fp))
                      (f_pos (tf_file fp) + 4 + length data)
                      (f_limit (tf_file fp))) (tf_swap fp),
           STRING_old.set_cstr
             (data ++ drop (length data) (STRING_old.cstr (truncated n x h)))
             (truncated n x h)),
          ensured_heap (n + 1) (fixed x) h).
Proof.
  intros Hx Hhdr Hlen Hn Hmax Hdata.
  assert (Hn0 : 0 <= n) by (rewrite <- Hn; apply uint32_of_bytes_nonneg).
  pose proof (truncated_block_ok n x h Hx) as Hb. unfold block_ok in Hb.
  pose proof (truncated_capacity n x h) as [Hc _].
  assert (Hdl : (length data <= Z.to_nat n)%nat)
    by (rewrite <- Hdata, length_take; lia).
  unfold STRING_old.DeSerialize_TFile, TFileOps.DeSerialize_uint32,
    TFileOps.DeSerialize, fread.
  cbn beta iota zeta. cbn [tf_file tf_swap f_pos f_bytes f_limit].
  rewrite Hhdr.
  assert (Hl' : length (if tf_swap fp then ReverseN hdr else hdr) = 4%nat)
    by (destruct (tf_swap fp); unfold ReverseN; rewrite ?length_rev; done).
  rewrite Hl'. rewrite bool_decide_eq_true_2 by done. cbn [negb].
  rewrite !Hn.
  rewrite wrap32_id by sizes.
  erewrite bind_done by (apply truncate_at_done; [done|done|sizes]).
  rewrite Hlen, Hdata.
  erewrite bind_done by (apply memcpy_done; lia).
  change (Z.to_nat 0) with 0%nat.
  rewrite Z.add_0_l, Nat2Z.id, take_0, drop_0, app_nil_l.
  rewrite (take_ge data) by lia. reflexivity.
Qed.

(** The bytes of a file after a prefix. *)
Lemma file_header (pre hdr rest : list byte) :
  length hdr = 4%nat ->
  take 4 (drop (length pre) (pre ++ hdr ++ rest)) = hdr.
Proof.
  intros H. rewrite drop_app_length. by apply take_app_length'.
Qed.

Lemma file_data (pre hdr data post : list byte) (n : nat) :
  length hdr = 4%nat -> length data = n ->
  take n (drop (length pre + 4) (pre ++ hdr ++ data ++ post)) = data.
Proof.
  intros H4 Hn. rewrite (app_assoc pre hdr).
  rewrite drop_app_length' by (rewrite length_app; lia).
  by apply take_app_length'.
Qed.

(** Two strings with the same [used_] and the same bytes up to it compare
    equal. *)
Lemma operator_eq_same x y h :
  0 < used x <= INT32_MAX -> used y = used x ->
  used x <= Z.of_nat (length (STRING_old.cstr x)) ->
  used x <= Z.of_nat (length (STRING_old.cstr y)) ->
  take (Z.to_nat (used x)) (STRING_old.cstr x)
  = take (Z.to_nat (used x)) (STRING_old.cstr y) ->
  STRING_old.operator_eq x y h = Done ((true, x, y), h).
Proof.
  intros Hu Hy Hlx Hly Heq. unfold STRING_old.operator_eq.
  erewrite bind_done by (apply FixHeader_nonneg; lia).
  erewrite bind_done by (apply FixHeader_nonneg; lia).
  rewrite !used_header, Hy, Z.eqb_refl.
  rewrite to_size_t_id by sizes.
  erewrite bind_done by (apply memcmp_eq_done; lia).
  rewrite bool_decide_eq_true_2 by done. reflexivity.
Qed.

(** The receiver after a complete read of [n] bytes [data]. *)
Lemma received_take x h (data : list byte) (n : Z) :
  header_ok x -> 0 <= n -> length data = Z.to_nat n ->
  take (Z.to_nat (n + 1))
    (data ++ drop (length data) (STRING_old.cstr (truncated n x h)))
  = data ++ [NUL].
Proof.
  intros Hx Hn Hd.
  pose proof (truncated_terminator n x h Hx Hn) as Ht.
  replace (Z.to_nat (n + 1)) with (S (Z.to_nat n)) by lia.
  rewrite (take_S_r _ _ NUL).
  - rewrite take_app_length' by done. reflexivity.
  - rewrite lookup_app_r by lia. rewrite Hd, Nat.sub_diag.
    rewrite lookup_drop, Nat.add_0_r. exact Ht.
Qed.

Lemma terminated_take s (n : Z) :
  block_ok s -> terminated s -> used s = n + 1 ->
  take (Z.to_nat (n + 1)) (STRING_old.cstr s)
  = take (Z.to_nat n) (STRING_old.cstr s) ++ [NUL].
Proof.
  intros Hb [Hu Ht] Hn.
  replace (Z.to_nat (n + 1)) with (S (Z.to_nat n)) by lia.
  apply take_S_r. rewrite <- Ht. f_equal. lia.
Qed.

(** The receiver after a complete read of the characters of [original]. *)
Lemma received_equal original x hx (n : Z) :
  terminated_ok original -> header_ok x -> used (fixed original) = n + 1 ->
  let data := take (Z.to_nat n) (STRING_old.cstr original) in
  let x' := STRING_old.set_cstr
              (data ++ drop (length data) (STRING_old.cstr (truncated n x hx)))
              (truncated n x hx) in
  length data = Z.to_nat n
  /\ used x' = n + 1
  /\ take (Z.to_nat (n + 1)) (STRING_old.cstr x')
     = take (Z.to_nat (n + 1)) (STRING_old.cstr original)
  /\ forall h', STRING_old.operator_eq x' (fixed original) h'
                = Done ((true, x', fixed original), h').
Proof.
  intros Ho Hx Hn data x'.
  pose proof (fixed_terminated _ Ho) as Hft.
  pose proof Hft as [Hou Hot]. rewrite fixed_capacity in Hou.
  destruct Ho as [[Hob Hor] _]. unfold block_ok in Hob.
  assert (Hn0 : 0 <= n) by lia.
  assert (Hdata : length data = Z.to_nat n)
    by (unfold data; rewrite length_take; lia).
  pose proof (truncated_block_ok n x hx Hx) as Hb. unfold block_ok in Hb.
  pose proof (truncated_capacity n x hx) as [Hc _].
  assert (Hxu : used x' = n + 1)
    by (unfold x'; rewrite used_set_cstr; apply truncated_used).
  assert (Hxl : length (STRING_old.cstr x')
                = length (STRING_old.cstr (truncated n x hx))).
  { unfold x'. rewrite cstr_set_cstr, length_app, length_drop. lia. }
  assert (Htake : take (Z.to_nat (n + 1)) (STRING_old.cstr x')
                  = take (Z.to_nat (n + 1)) (STRING_old.cstr original)).
  { unfold x'. rewrite cstr_set_cstr.
    rewrite (received_take x hx data n Hx Hn0 Hdata).
    rewrite <- (fixed_cstr original).
    rewrite (terminated_take (fixed original) n); [by rewrite fixed_cstr| |done|done].
    unfold block_ok. by rewrite fixed_cstr, fixed_capacity. }
  split; [done|]. split; [done|]. split; [done|].
  intros h'. apply operator_eq_same.
  - rewrite Hxu. sizes.
  - lia.
  - lia.
  - rewrite fixed_cstr. lia.
  - rewrite Hxu, fixed_cstr. exact Htake.
Qed.

(** X15. A string written by [Serialize(FILE* fp)] on a machine of one byte
    order is read back by [DeSerialize(bool swap, FILE* fp)] on a machine of either
    byte order, provided [swap] tells whether the two differ: for a string of
    at most 65535 characters and a channel with room, the read returns
    [true], consumes what the write produced, and leaves a receiver with the
    same [used_] and the same characters, for which [==] is [true]. *)
Theorem round_trip_across_byte_orders (host : byte_order) (swap : bool)
    (original x : STRING_old.t) (fp : FILE) (n : Z) (h hx : heap)
    (Ho : terminated_ok original) (Hx : header_ok x)
    (Hn : used (fixed original) = n + 1)
    (Hmax : n <= UINT16_MAX)
    (Hroom : (f_pos fp + 4 + Z.to_nat n <= f_limit fp)%nat) :
  exists fp1 fp2 x' hx',
    STRING_old.Serialize host fp original h = Done ((true, fp1, fixed original), h)
    /\ STRING_old.DeSerialize (if swap then opposite host else host) swap
         (rewind (f_pos fp) fp1) x hx
       = Done ((true, fp2, x'), hx')
    /\ f_pos fp2 = f_pos fp1
    /\ used x' = n + 1
    /\ take (Z.to_nat (n + 1)) (STRING_old.cstr x')
       = take (Z.to_nat (n + 1)) (STRING_old.cstr original)
    /\ STRING_old.operator_eq x' (fixed original) hx'
       = Done ((true, x', fixed original), hx').
Proof.
  destruct (Serialize_done host fp original h n Ho Hn Hroom)
    as (pre & post & Hpre & Hser).
  destruct (received_equal original x hx n Ho Hx Hn) as (Hdata & Hxu & Htake & Heq).
  pose proof (fixed_terminated _ Ho) as [Hou _].
  set (hdr := bytes_of_uint32 host n) in *.
  set (data := take (Z.to_nat n) (STRING_old.cstr original)) in *.
  assert (Hhdr : length hdr = 4%nat) by apply bytes_of_uint32_length.
  eexists _, _, _, _. split; [exact Hser|].
  split; [|split; [|split; [exact Hxu|split; [exact Htake|apply Heq]]]].
  - erewrite (DeSerialize_done _ swap _ x hx hdr data n Hx).
    + rewrite bool_decide_eq_true_2 by done. reflexivity.
    + unfold rewind. cbn [f_pos f_bytes]. rewrite <- Hpre. by apply file_header.
    + done.
    + apply uint32_of_bytes_reader. unfold UINT16_MAX in Hmax. lia.
    + done.
    + unfold rewind. cbn [f_pos f_bytes]. rewrite <- Hpre. by apply file_data.
  - unfold rewind. cbn [f_pos]. lia.
Qed.

Lemma round_trip_across_byte_orders_witness :
  exists fp1 fp2 x' hx',
    STRING_old.Serialize BigEndian (mkFILE [] 0 100) abc heap0
    = Done ((true, fp1, fixed abc), heap0)
    /\ STRING_old.DeSerialize (if true then opposite BigEndian else BigEndian) true
         (rewind (f_pos (mkFILE [] 0 100)) fp1) hello heap0
       = Done ((true, fp2, x'), hx')
    /\ f_pos fp2 = f_pos fp1
    /\ used x' = 3 + 1
    /\ take (Z.to_nat (3 + 1)) (STRING_old.cstr x')
       = take (Z.to_nat (3 + 1)) (STRING_old.cstr abc)
    /\ STRING_old.operator_eq x' (fixed abc) hx'
       = Done ((true, x', fixed abc), hx').
Proof.
  apply (round_trip_across_byte_orders BigEndian true abc hello (mkFILE [] 0 100)
           3 heap0 heap0 abc_terminated_ok hello_header_ok).
  - reflexivity.
  - vm_compute. congruence.
  - vm_compute. lia.
Defined.

(** The length of a non-empty string within the ceiling, read in the wrong
    byte order, is above the ceiling. *)
Lemma uint32_of_bytes_mismatch host n :
  1 <= n <= UINT16_MAX ->
  UINT16_MAX < uint32_of_bytes (opposite host) (bytes_of_uint32 host n).
Proof.
  intros Hn. unfold UINT16_MAX in *.
  assert (H0 : 0 <= n mod 256 < 256) by (apply Z.mod_pos_bound; lia).
  assert (H1 : 0 <= (n / 256) mod 256 < 256) by (apply Z.mod_pos_bound; lia).
  assert (H2 : 0 <= (n / 65536) mod 256 < 256) by (apply Z.mod_pos_bound; lia).
  assert (H3 : 0 <= (n / 16777216) mod 256 < 256) by (apply Z.mod_pos_bound; lia).
  assert (Hnz : 1 <= n mod 256 \/ 1 <= (n / 256) mod 256).
  { destruct (Z.eq_dec (n mod 256) 0) as [E|E]; [right|left; lia].
    destruct (Z.eq_dec ((n / 256) mod 256) 0) as [E'|E']; [|lia].
    pose proof (Z.div_mod n 256 ltac:(lia)).
    pose proof (Z.div_mod (n / 256) 256 ltac:(lia)).
    assert (n / 256 < 256) by (apply Z.div_lt_upper_bound; lia).
    assert (0 <= n / 256) by (apply Z.div_pos; lia).
    assert (n / 256 / 256 = 0) by (apply Z.div_small; lia).
    lia. }
  destruct host; unfold opposite, uint32_of_bytes, bytes_of_uint32;
    cbn [rev app]; rewrite !Z_of_byte_of_Z; lia.
Qed.

Lemma uint32_of_bytes_reversed host bs :
  uint32_of_bytes host (ReverseN bs) = uint32_of_bytes (opposite host) bs.
Proof.
  destruct host; unfold uint32_of_bytes, ReverseN, opposite;
    by rewrite ?rev_involutive.
Qed.

(** X16. Reading in the wrong byte order is detected: a non-empty string of at
    most 65535 characters written by [Serialize(FILE* fp)] and read by
    [DeSerialize(bool swap, FILE* fp)] with a [swap] that does not match the byte
    orders is refused, since its length read the wrong way round is above
    65535: the read returns [false] after the four bytes of the length and
    leaves the receiver and the heap untouched. *)
Theorem byte_order_mismatch_detected (host : byte_order) (swap : bool)
    (original x : STRING_old.t) (fp : FILE) (n : Z) (h hx : heap)
    (Ho : terminated_ok original)
    (Hn : used (fixed original) = n + 1)
    (Hpos : 1 <= n) (Hmax : n <= UINT16_MAX)
    (Hroom : (f_pos fp + 4 + Z.to_nat n <= f_limit fp)%nat) :
  exists fp1 fp2,
    STRING_old.Serialize host fp original h = Done ((true, fp1, fixed original), h)
    /\ STRING_old.DeSerialize (if swap then host else opposite host) swap
         (rewind (f_pos fp) fp1) x hx
       = Done ((false, fp2, x), hx)
    /\ f_pos fp2 = (f_pos fp + 4)%nat.
Proof.
  destruct (Serialize_done host fp original h n Ho Hn Hroom)
    as (pre & post & Hpre & Hser).
  set (hdr := bytes_of_uint32 host n) in *.
  assert (Hhdr : length hdr = 4%nat) by apply bytes_of_uint32_length.
  eexists _, _. split; [exact Hser|].
  split.
  - apply (DeSerialize_rejects_oversized _ swap _ _ hdr).
    + unfold rewind. cbn [f_bytes f_limit]. by apply fread_at.
    + done.
    + destruct swap.
      * rewrite uint32_of_bytes_reversed. by apply uint32_of_bytes_mismatch.
      * by apply uint32_of_bytes_mismatch.
  - reflexivity.
Qed.

Lemma byte_order_mismatch_detected_witness :
  exists fp1 fp2,
    STRING_old.Serialize LittleEndian (mkFILE [] 0 100) abc heap0
    = Done ((true, fp1, fixed abc), heap0)
    /\ STRING_old.DeSerialize
         (if false then LittleEndian else opposite LittleEndian) false
         (rewind (f_pos (mkFILE [] 0 100)) fp1) hello heap0
       = Done ((false, fp2, hello), heap0)
    /\ f_pos fp2 = (f_pos (mkFILE [] 0 100) + 4)%nat.
Proof.
  apply (byte_order_mismatch_detected LittleEndian false abc hello
           (mkFILE [] 0 100) 3 heap0 heap0 abc_terminated_ok).
  - reflexivity.
  - lia.
  - vm_compute. congruence.
  - vm_compute. lia.
Defined.

(** X17. [Serialize(TFile* fp)] and [DeSerialize(TFile* fp)] round-trip a
    string of any length, with no ceiling, and [SkipDeSerialize] passes over
    the same bytes: for a string whose header is valid and a channel with
    room, the write returns [true]; a reading channel at the position where
    it was written, whose swap flag tells whether the byte orders differ,
    gives [true] from [DeSerialize] with a receiver that has the same
    [used_] and characters and compares [==], and [true] from
    [SkipDeSerialize], both leaving the channel where the write ended. *)
Theorem tfile_round_trip (host : byte_order) (swap : bool)
    (original x : STRING_old.t) (fp : TFile) (n : Z) (h hx : heap)
    (Ho : terminated_ok original) (Hx : header_ok x)
    (Hn : used (fixed original) = n + 1)
    (Hroom : (f_pos (tf_file fp) + 4 + Z.to_nat n <= f_limit (tf_file fp))%nat) :
  exists fp1 fp2 x' hx',
    STRING_old.Serialize_TFile host fp original h
    = Done ((true, fp1, fixed original), h)
    /\ STRING_old.DeSerialize_TFile (if swap then opposite host else host)
         (mkTFile (rewind (f_pos (tf_file fp)) (tf_file fp1)) swap) x hx
       = Done ((true, fp2, x'), hx')
    /\ STRING_old.SkipDeSerialize (if swap then opposite host else host)
         (mkTFile (rewind (f_pos (tf_file fp)) (tf_file fp1)) swap)
       = (true, fp2)
    /\ f_pos (tf_file fp2) = f_pos (tf_file fp1)
    /\ used x' = n + 1
    /\ take (Z.to_nat (n + 1)) (STRING_old.cstr x')
       = take (Z.to_nat (n + 1)) (STRING_old.cstr original)
    /\ STRING_old.operator_eq x' (fixed original) hx'
       = Done ((true, x', fixed original), hx').
Proof.
  destruct (Serialize_TFile_done host fp original h n Ho Hn Hroom)
    as (pre & post & Hpre & Hser).
  destruct (received_equal original x hx n Ho Hx Hn) as (Hdata & Hxu & Htake & Heq).
  pose proof (fixed_terminated _ Ho) as [Hou _]. rewrite fixed_capacity in Hou.
  pose proof Ho as [[Hob Hor] _].
  set (hdr := bytes_of_uint32 host n) in *.
  set (data := take (Z.to_nat n) (STRING_old.cstr original)) in *.
  assert (Hhdr : length hdr = 4%nat) by apply bytes_of_uint32_length.
  assert (Hdec : uint32_of_bytes (if swap then opposite host else host)
                   (if swap then ReverseN hdr else hdr) = n)
    by (apply uint32_of_bytes_reader; sizes).
  eexists _, _, _, _. split; [exact Hser|].
  split; [|split; [|split; [|split; [exact Hxu|split; [exact Htake|apply Heq]]]]].
  - erewrite (DeSerialize_TFile_done _ _ x hx hdr data n Hx).
    + rewrite bool_decide_eq_true_2 by done. reflexivity.
    + unfold rewind. cbn [tf_file f_pos f_bytes]. rewrite <- Hpre.
      by apply file_header.
    + done.
    + exact Hdec.
    + sizes.
    + unfold rewind. cbn [tf_file f_pos f_bytes]. rewrite <- Hpre.
      by apply file_data.
  - unfold STRING_old.SkipDeSerialize, TFileOps.DeSerialize_uint32,
      TFileOps.Skip, rewind.
    cbn [tf_file tf_swap f_bytes f_limit].
    rewrite (fread_at pre hdr) by done.
    assert (Hl' : length (if swap then ReverseN hdr else hdr) = 4%nat)
      by (destruct swap; unfold ReverseN; rewrite ?length_rev; done).
    rewrite Hl'. rewrite bool_decide_eq_true_2 by done. cbn [negb tf_file tf_swap].
    rewrite Hdec.
    rewrite (app_assoc pre hdr (data ++ post)).
    rewrite (fread_at (pre ++ hdr) data) by (rewrite ?length_app; lia).
    rewrite bool_decide_eq_true_2 by done.
    rewrite <- (app_assoc pre hdr). rewrite Hdata. reflexivity.
  - unfold rewind. cbn [tf_file f_pos]. lia.
Qed.

Lemma long_string_terminated_ok : terminated_ok long_string.
Proof.
  split; [split; [reflexivity|vm_compute; congruence]|].
  left. split; [vm_compute; split; congruence|reflexivity].
Qed.

Lemma tfile_round_trip_witness :
  exists fp1 fp2 x' hx',
    STRING_old.Serialize_TFile LittleEndian
      (mkTFile (mkFILE [] 0 (Z.to_nat 80000)) false) long_string heap0
    = Done ((true, fp1, fixed long_string), heap0)
    /\ STRING_old.DeSerialize_TFile (if true then opposite LittleEndian else LittleEndian)
         (mkTFile (rewind 0 (tf_file fp1)) true) hello heap0
       = Done ((true, fp2, x'), hx')
    /\ STRING_old.SkipDeSerialize (if true then opposite LittleEndian else LittleEndian)
         (mkTFile (rewind 0 (tf_file fp1)) true)
       = (true, fp2)
    /\ f_pos (tf_file fp2) = f_pos (tf_file fp1)
    /\ used x' = 70000 + 1
    /\ take (Z.to_nat (70000 + 1)) (STRING_old.cstr x')
       = take (Z.to_nat (70000 + 1)) (STRING_old.cstr long_string)
    /\ STRING_old.operator_eq x' (fixed long_string) hx'
       = Done ((true, x', fixed long_string), hx').
Proof.
  apply (tfile_round_trip LittleEndian true long_string hello
           (mkTFile (mkFILE [] 0 (Z.to_nat 80000)) false) 70000 heap0 heap0
           long_string_terminated_ok hello_header_ok).
  - reflexivity.
  - simpl. lia.
Defined.

(** X18. [Serialize(FILE* fp)] writes what [DeSerialize(bool swap, FILE* fp)]
    will not read: a string of more than 65535 characters is written in
    full, with result [true], and reading it back at the same position, in
    the right byte order, returns [false] after the four bytes of the length
    and leaves the receiver and the heap untouched. *)
Theorem long_string_is_written_not_read (host : byte_order) (swap : bool)
    (original x : STRING_old.t) (fp : FILE) (n : Z) (h hx : heap)
    (Ho : terminated_ok original)
    (Hn : used (fixed original) = n + 1)
    (Hlong : UINT16_MAX < n)
    (Hroom : (f_pos fp + 4 + Z.to_nat n <= f_limit fp)%nat) :
  exists fp1 fp2,
    STRING_old.Serialize host fp original h = Done ((true, fp1, fixed original), h)
    /\ take (Z.to_nat n) (drop (f_pos fp + 4) (f_bytes fp1))
       = take (Z.to_nat n) (STRING_old.cstr original)
    /\ STRING_old.DeSerialize (if swap then opposite host else host) swap
         (rewind (f_pos fp) fp1) x hx
       = Done ((false, fp2, x), hx)
    /\ f_pos fp2 = (f_pos fp + 4)%nat.
Proof.
  destruct (Serialize_done host fp original h n Ho Hn Hroom)
    as (pre & post & Hpre & Hser).
  pose proof (fixed_terminated _ Ho) as [Hou _]. rewrite fixed_capacity in Hou.
  pose proof Ho as [[Hob Hor] _]. unfold block_ok in Hob.
  set (hdr := bytes_of_uint32 host n) in *.
  assert (Hhdr : length hdr = 4%nat) by apply bytes_of_uint32_length.
  eexists _, _. split; [exact Hser|]. split; [|split].
  - cbn [f_bytes]. rewrite <- Hpre. apply file_data; [done|].
    rewrite length_take. lia.
  - apply (DeSerialize_rejects_oversized _ swap _ _ hdr).
    + unfold rewind. cbn [f_bytes f_limit]. by apply fread_at.
    + done.
    + unfold hdr. rewrite uint32_of_bytes_reader by sizes. done.
  - reflexivity.
Qed.

Lemma long_string_is_written_not_read_witness :
  exists fp1 fp2,
    STRING_old.Serialize LittleEndian (mkFILE [] 0 (Z.to_nat 80000)) long_string heap0
    = Done ((true, fp1, fixed long_string), heap0)
    /\ take (Z.to_nat 70000)
         (drop (f_pos (mkFILE [] 0 (Z.to_nat 80000)) + 4) (f_bytes fp1))
       = take (Z.to_nat 70000) (STRING_old.cstr long_string)
    /\ STRING_old.DeSerialize (if false then opposite LittleEndian else LittleEndian)
         false (rewind (f_pos (mkFILE [] 0 (Z.to_nat 80000))) fp1) hello heap0
       = Done ((false, fp2, hello), heap0)
    /\ f_pos fp2 = (f_pos (mkFILE [] 0 (Z.to_nat 80000)) + 4)%nat.
Proof.
  apply (long_string_is_written_not_read LittleEndian false long_string hello
           (mkFILE [] 0 (Z.to_nat 80000)) 70000 heap0 heap0
           long_string_terminated_ok).
  - reflexivity.
  - vm_compute. reflexivity.
  - simpl. lia.
Defined.

(** X19. A channel that ends before the four bytes of the length: both
    [DeSerialize] entry points return [false] without looking at the
    receiver, which is left as it was, valid or not, and nothing is
    allocated; [SkipDeSerialize] returns [false]. *)
Theorem short_header_leaves_receiver (host : byte_order) (swap : bool)
    (fp : TFile) (x : STRING_old.t) (h : heap)
    (Hshort : (length (f_bytes (tf_file fp)) < f_pos (tf_file fp) + 4)%nat) :
  (exists fp', STRING_old.DeSerialize host swap (tf_file fp) x h
               = Done ((false, fp', x), h))
  /\ (exists fp', STRING_old.DeSerialize_TFile host fp x h
                  = Done ((false, fp', x), h))
  /\ fst (STRING_old.SkipDeSerialize host fp) = false.
Proof.
  set (got := take 4 (drop (f_pos (tf_file fp)) (f_bytes (tf_file fp)))).
  assert (Hgot : length got <> 4%nat)
    by (unfold got; rewrite length_take, length_drop; lia).
  assert (Hgot' : length (if tf_swap fp then ReverseN got else got) <> 4%nat)
    by (destruct (tf_swap fp); unfold ReverseN; rewrite ?length_rev; done).
  split; [|split].
  - eexists. unfold STRING_old.DeSerialize, fread. cbn beta iota zeta. fold got.
    rewrite bool_decide_eq_false_2 by done. reflexivity.
  - eexists. unfold STRING_old.DeSerialize_TFile, TFileOps.DeSerialize_uint32, fread.
    cbn beta iota zeta. fold got.
    rewrite bool_decide_eq_false_2 by done. reflexivity.
  - unfold STRING_old.SkipDeSerialize, TFileOps.DeSerialize_uint32, fread.
    cbn beta iota zeta. fold got.
    rewrite bool_decide_eq_false_2 by done. reflexivity.
Qed.

Lemma short_header_leaves_receiver_witness :
  (exists fp', STRING_old.DeSerialize LittleEndian false
                 (tf_file (mkTFile (mkFILE [x03; x00; x00] 0 100) false)) hello heap0
               = Done ((false, fp', hello), heap0))
  /\ (exists fp', STRING_old.DeSerialize_TFile LittleEndian
                    (mkTFile (mkFILE [x03; x00; x00] 0 100) false) hello heap0
                  = Done ((false, fp', hello), heap0))
  /\ fst (STRING_old.SkipDeSerialize LittleEndian
            (mkTFile (mkFILE [x03; x00; x00] 0 100) false)) = false.
Proof.
  apply (short_header_leaves_receiver LittleEndian false
           (mkTFile (mkFILE [x03; x00; x00] 0 100) false) hello heap0).
  simpl. lia.
Defined.

(** X20. A channel that ends inside the characters: when the four bytes of
    the length declare [n <= 65535] characters and only [k < n] follow,
    [DeSerialize(bool swap, FILE* fp)] returns [false] at the end of the
    channel, but the receiver has changed: its [length()] is now [n], its
    first [k] characters are those that were read and a terminator stands at
    offset [n]. *)
Theorem short_payload_changes_receiver (host : byte_order) (swap : bool)
    (fp : FILE) (x : STRING_old.t) (h : heap) (n : Z) (k : nat)
    (Hx : header_ok x)
    (Hk : (f_pos fp + 4 + k = length (f_bytes fp))%nat)
    (Hn : uint32_of_bytes host
            (if swap then ReverseN (take 4 (drop (f_pos fp) (f_bytes fp)))
             else take 4 (drop (f_pos fp) (f_bytes fp))) = n)
    (Hmax : n <= UINT16_MAX)
    (Hshort : (k < Z.to_nat n)%nat) :
  exists fp' x' h',
    STRING_old.DeSerialize host swap fp x h = Done ((false, fp', x'), h')
    /\ f_pos fp' = length (f_bytes fp)
    /\ STRING_old.length x' h' = Done ((n, x'), h')
    /\ take k (STRING_old.cstr x') = drop (f_pos fp + 4) (f_bytes fp)
    /\ STRING_old.cstr x' !! Z.to_nat n = Some NUL.
Proof.
  set (data := take (Z.to_nat n) (drop (f_pos fp + 4) (f_bytes fp))).
  assert (Hdata : data = drop (f_pos fp + 4) (f_bytes fp))
    by (unfold data; apply take_ge; rewrite length_drop; lia).
  assert (Hdl : length data = k) by (rewrite Hdata, length_drop; lia).
  assert (Hn0 : 0 <= n) by (rewrite <- Hn; apply uint32_of_bytes_nonneg).
  eexists _, _, _. split; [|split; [|split; [|split]]].
  - erewrite (DeSerialize_done host swap fp x h _ data n Hx eq_refl).
    + rewrite bool_decide_eq_false_2 by lia. reflexivity.
    + rewrite length_take, length_drop. lia.
    + exact Hn.
    + exact Hmax.
    + reflexivity.
  - cbn [f_pos]. lia.
  - rewrite length_positive
      by (rewrite used_set_cstr, truncated_used; sizes).
    rewrite used_set_cstr, truncated_used.
    replace (n + 1 - 1) with n by lia. reflexivity.
  - rewrite cstr_set_cstr. rewrite <- Hdl at 1.
    rewrite take_app_length. exact Hdata.
  - rewrite cstr_set_cstr. rewrite lookup_app_r by lia.
    rewrite lookup_drop.
    replace (length data + (Z.to_nat n - length data))%nat with (Z.to_nat n) by lia.
    by apply truncated_terminator.
Qed.

Lemma short_payload_changes_receiver_witness :
  exists fp' x' h',
    STRING_old.DeSerialize LittleEndian false
      (mkFILE [x05; x00; x00; x00; "a"; "b"]%byte 0 100) hello heap0
    = Done ((false, fp', x'), h')
    /\ f_pos fp' = length (f_bytes (mkFILE [x05; x00; x00; x00; "a"; "b"]%byte 0 100))
    /\ STRING_old.length x' h' = Done ((5, x'), h')
    /\ take 2 (STRING_old.cstr x')
       = drop (f_pos (mkFILE [x05; x00; x00; x00; "a"; "b"]%byte 0 100) + 4)
           (f_bytes (mkFILE [x05; x00; x00; x00; "a"; "b"]%byte 0 100))
    /\ STRING_old.cstr x' !! Z.to_nat 5 = Some NUL.
Proof.
  apply (short_payload_changes_receiver LittleEndian false
           (mkFILE [x05; x00; x00; x00; "a"; "b"]%byte 0 100) hello heap0 5 2
           hello_header_ok).
  - reflexivity.
  - reflexivity.
  - vm_compute. congruence.
  - vm_compute. lia.
Defined.

(** ** STRING::split: the pieces *)

Lemma split_done (c : byte) (s : list byte) (splited : list (list byte)) h :
  Z.of_nat (length s) <= INT32_MAX ->
  STRING.split c s splited h = Done ((s, splited ++ nonempty_runs c s), h).
Proof.
  intros Hlen. unfold STRING.split.
  rewrite wrap32_id by (unfold INT32_MAX in *; lia).
  destruct (split_loop_spec c s [] [] splited h) as (st & acc' & Hrun & Hst & Hres).
  { apply not_elem_of_nil. }
  { done. }
  simpl in Hrun, Hst, Hres. rewrite Nat2Z.id.
  erewrite bind_done by exact Hrun. cbn beta iota.
  destruct (decide (st = length s)) as [->|Hne].
  - rewrite Z.eqb_refl. cbn [negb]. rewrite app_nil_r in Hres. by rewrite Hres.
  - replace (Z.of_nat (length s) =? Z.of_nat st) with false
      by (symmetry; apply Z.eqb_neq; lia).
    cbn [negb].
    rewrite wrap32_id by (unfold INT32_MAX in *; lia).
    rewrite to_size_t_id by (unfold INT32_MAX, PTRDIFF_MAX in *; lia).
    erewrite bind_done.
    2:{ apply from_data_done; [lia|lia|].
        unfold STRING.c_str. rewrite length_app. simpl. lia. }
    rewrite <- Hres. unfold STRING.c_str.
    rewrite Nat2Z.id. rewrite drop_app_le by lia.
    rewrite take_app_le by (rewrite length_drop; lia).
    rewrite take_ge by (rewrite length_drop; lia). reflexivity.
Qed.

Lemma concat_fields (c : byte) (s : list byte) :
  concat (fields c s) = filter (λ b, b ≠ c) s.
Proof.
  induction s as [|b s IH]; [done|]. cbn [fields].
  destruct (decide (b = c)) as [->|Hb].
  - rewrite filter_cons_False by (intros H; by apply H). exact IH.
  - rewrite filter_cons_True by done. rewrite <- IH.
    destruct (fields c s) as [|r rs] eqn:E; [by destruct (fields_nonnil c s)|].
    reflexivity.
Qed.

Lemma concat_nonempty (l : list (list byte)) :
  concat (filter (λ r, r ≠ []) l) = concat l.
Proof.
  induction l as [|r l IH]; [done|].
  destruct r as [|b r].
  - rewrite filter_cons_False by (intros H; by apply H). exact IH.
  - rewrite filter_cons_True by done. cbn [concat]. by rewrite IH.
Qed.

Lemma nonempty_runs_Forall (c : byte) (s : list byte) :
  Forall (λ p, p ≠ [] /\ c ∉ p) (nonempty_runs c s).
Proof.
  apply Forall_forall. intros p Hp. unfold nonempty_runs in Hp.
  apply list_elem_of_filter in Hp as [Hne Hin]. split; [done|].
  pose proof (fields_sep_free c s) as Hf.
  rewrite Forall_forall in Hf. by apply Hf.
Qed.

(** X21. What [split] never emits: the pieces it pushes are not empty and
    hold no separator, and put end to end they are the string with its
    separators taken out (so nothing but separators is lost and nothing is
    emitted twice); a non-empty string without a separator is its own single
    piece. *)
Theorem split_pieces (c : byte) (s : list byte) (splited : list (list byte))
    (h : heap) (Hlen : Z.of_nat (length s) <= INT32_MAX) :
  exists pieces,
    STRING.split c s splited h = Done ((s, splited ++ pieces), h)
    /\ Forall (λ p, p ≠ [] /\ c ∉ p) pieces
    /\ concat pieces = filter (λ b, b ≠ c) s
    /\ (c ∉ s -> s ≠ [] -> pieces = [s]).
Proof.
  exists (nonempty_runs c s). split; [by apply split_done|].
  split; [apply nonempty_runs_Forall|]. split.
  - unfold nonempty_runs. rewrite concat_nonempty. apply concat_fields.
  - intros Hc Hs. unfold nonempty_runs. rewrite fields_no_sep by done.
    by rewrite filter_cons_True.
Qed.

Lemma split_pieces_witness :
  exists pieces,
    STRING.split "," (list_byte_of_string ",ab,,c") [] heap0
    = Done ((list_byte_of_string ",ab,,c", [] ++ pieces), heap0)
    /\ Forall (λ p, p ≠ [] /\ ","%byte ∉ p) pieces
    /\ concat pieces = filter (λ b, b ≠ ","%byte) (list_byte_of_string ",ab,,c")
    /\ (","%byte ∉ list_byte_of_string ",ab,,c" ->
        list_byte_of_string ",ab,,c" ≠ [] ->
        pieces = [list_byte_of_string ",ab,,c"]).
Proof.
  apply (split_pieces "," (list_byte_of_string ",ab,,c") [] heap0).
  vm_compute. congruence.
Defined.

(** ** Constructors and strdup: the content *)

Lemma new_cstr_full (src : list byte) (n : nat) h :
  find_nul src = Some n -> fits (Z.of_nat n + 1) ->
  exists r,
    STRING_old.new_cstr (Some src) h = Done (r, after_malloc h)
    /\ block_ok r /\ clean r /\ capacity r = Z.of_nat n + 1
    /\ text r = chars src /\ STRING_old.data_ r = next_addr h.
Proof.
  intros Hn [_ Hf]. unfold sizeof_STRING_HEADER, INT32_MAX in Hf.
  pose proof (find_nul_Some _ _ Hn) as (_ & _ & Hlt).
  unfold STRING_old.new_cstr.
  erewrite bind_done by (apply strlen_done; exact Hn).
  rewrite wrap32_id by sizes.
  erewrite bind_done by (apply AllocData_done; unfold INT32_MAX; lia).
  pose proof (next_data_length h (Z.of_nat n + 1) ltac:(lia)) as Hl.
  rewrite to_size_t_id by sizes.
  erewrite bind_done by (apply memcpy_done; cbn [STRING_old.cstr]; lia).
  eexists. split; [reflexivity|].
  cbn [STRING_old.cstr].
  change (Z.to_nat 0) with 0%nat. rewrite take_0, drop_0, app_nil_l, Z.add_0_l.
  replace (Z.to_nat (Z.of_nat n + 1)) with (S n) by lia.
  split; [|split; [|split; [done|split; [|done]]]].
  - unfold block_ok. autorewrite with obj.
    rewrite length_app, length_take, length_drop. lia.
  - apply (clean_intro _ n); [|by rewrite used_set_cstr, used_mk].
    rewrite cstr_set_cstr.
    apply (find_nul_memcpy [] src _ 0 n); [apply not_elem_of_nil|done|simpl; lia].
  - unfold text. rewrite cstr_set_cstr. by apply chars_copy.
Qed.

Lemma new_data_full (src : list byte) (len : Z) h :
  data_ok (Some src) len ->
  exists r,
    STRING_old.new_data (Some src) len h = Done (r, after_malloc h)
    /\ block_ok r /\ used r = len + 1 /\ capacity r = len + 1
    /\ take (Z.to_nat len) (STRING_old.cstr r) = take (Z.to_nat len) src
    /\ STRING_old.cstr r !! Z.to_nat len = Some NUL.
Proof.
  intros [Hlen [_ Hf]]. unfold sizeof_STRING_HEADER, INT32_MAX in Hf.
  change (pointee (Some src)) with src in Hlen.
  unfold STRING_old.new_data.
  rewrite wrap32_id by sizes.
  erewrite bind_done by (apply AllocData_done; unfold INT32_MAX; lia).
  pose proof (next_data_length h (len + 1) ltac:(lia)) as Hl.
  rewrite to_size_t_id by sizes.
  erewrite bind_done by (apply memcpy_done; cbn [STRING_old.cstr]; lia).
  cbn [STRING_old.cstr].
  change (Z.to_nat 0) with 0%nat. rewrite take_0, drop_0, app_nil_l, Z.add_0_l.
  set (m := take (Z.to_nat len) src ++ drop (Z.to_nat len) (next_data h (len + 1))).
  assert (Hm : Z.of_nat (length m) = len + 1).
  { unfold m. rewrite length_app, length_take, length_drop. lia. }
  erewrite bind_done by (apply store_done; lia).
  eexists. split; [reflexivity|].
  split; [|split; [by autorewrite with obj|split; [by autorewrite with obj|split]]].
  - unfold block_ok. autorewrite with obj. rewrite length_insert. done.
  - rewrite cstr_set_cstr. rewrite take_insert_ge by lia. unfold m.
    rewrite take_app_le by (rewrite length_take; lia).
    rewrite take_take. by replace (_ `min` _)%nat with (Z.to_nat len) by lia.
  - rewrite cstr_set_cstr. apply list_lookup_insert_eq. lia.
Qed.

Lemma malloc_done n h :
  0 <= n <= PTRDIFF_MAX ->
  exists a, malloc n h = Done ((next_addr h, a), after_malloc h)
            /\ length a = Z.to_nat n.
Proof.
  intros Hn. unfold malloc, next_addr, after_malloc.
  replace ((0 <=? n) && (n <=? PTRDIFF_MAX)) with true by guard_holds.
  destruct (supply h (allocs h)) as [addr fill]. eexists. split; [reflexivity|].
  by rewrite length_map, length_seq.
Qed.

Lemma strncpy_bytes_exact (src : list byte) (n : nat) :
  find_nul src = Some n -> strncpy_bytes src (S n) = Some (take n src ++ [NUL]).
Proof.
  revert n. induction src as [|b src IH]; intros n Hn; [done|].
  cbn [find_nul] in Hn. cbn [strncpy_bytes].
  destruct (decide (b = NUL)) as [->|Hb].
  - injection Hn as <-. reflexivity.
  - destruct (find_nul src) as [k|] eqn:E; [|done].
    injection Hn as <-. rewrite (IH k eq_refl). reflexivity.
Qed.

Lemma live_blocks_after_malloc h : live_blocks h (after_malloc h) = 1.
Proof. unfold live_blocks, after_malloc. cbn [allocs freed]. lia. Qed.

(** X22. [strdup()] on a valid string returns a new array of [size() + 1]
    bytes that holds the characters and their terminator, allocated for the
    caller (one block more is live) and leaving the string as [length()]
    does; a [STRING_old] built from that array has the same characters and
    compares equal to the string. *)
Theorem strdup_round_trip (s : STRING_old.t) (h : heap) (Hs : valid s) :
  STRING_old.strdup s h
  = Done ((next_addr h, text s ++ [NUL], fixed s), after_malloc h)
  /\ STRING_old.size s h = Done ((Z.of_nat (length (text s)), fixed s), h)
  /\ live_blocks h (after_malloc h) = 1
  /\ exists r h',
       STRING_old.new_cstr (Some (text s ++ [NUL])) (after_malloc h) = Done (r, h')
       /\ text r = text s
       /\ STRING_old.operator_eq r s h' = Done ((true, r, fixed s), h').
Proof.
  destruct (valid_fixed s Hs) as (n & Hn & Hu & Hc & Hb & Hr).
  unfold block_ok in Hb.
  pose proof (find_nul_Some _ _ Hn) as (Hn1 & Hn2 & Hn3).
  assert (Htext : text s = take n (STRING_old.cstr s))
    by (unfold text; by apply chars_find).
  assert (Hlen : length (text s) = n) by (unfold text; by apply chars_length).
  assert (Hsz : STRING_old.length s h = Done ((Z.of_nat n, fixed s), h)).
  { rewrite length_done by (by apply valid_header_ok). rewrite Hu.
    by replace (Z.of_nat n + 1 - 1) with (Z.of_nat n) by lia. }
  split; [|split; [|split; [apply live_blocks_after_malloc|]]].
  - unfold STRING_old.strdup, new_char_array.
    erewrite bind_done by exact Hsz. cbn beta iota.
    rewrite wrap32_id by sizes. rewrite to_size_t_id by sizes.
    destruct (malloc_done (Z.of_nat n + 1) h) as (a & Ha & Hal); [sizes|].
    erewrite bind_done by exact Ha. cbn beta iota.
    unfold strncpy.
    replace ((0 <=? Z.of_nat n + 1) && (Z.of_nat n + 1 <=? Z.of_nat (length a)))
      with true by guard_holds.
    replace (Z.to_nat (Z.of_nat n + 1)) with (S n) by lia.
    rewrite fixed_cstr, (strncpy_bytes_exact _ _ Hn).
    rewrite drop_ge by lia. rewrite app_nil_r, <- Htext.
    reflexivity.
  - unfold STRING_old.size. by rewrite Hsz, Hlen.
  - assert (Hfn : find_nul (text s ++ [NUL]) = Some n).
    { rewrite <- Hlen. apply find_nul_app. apply chars_no_nul. }
    destruct (new_cstr_full (text s ++ [NUL]) n (after_malloc h) Hfn)
      as (r & Hrun & Hrb & Hrc & Hrcap & Hrt & _).
    { split; [lia|]. sizes. }
    assert (Hrt' : text r = text s).
    { rewrite Hrt. change (text s ++ [NUL]) with (text s ++ NUL :: []).
      apply chars_app, chars_no_nul. }
    exists r, (after_malloc (after_malloc h)). split; [exact Hrun|].
    split; [exact Hrt'|].
    rewrite operator_eq_text.
    + rewrite bool_decide_eq_true_2 by done.
      by rewrite (clean_fixed r Hrc).
    + apply result_readable; [done|sizes|done].
    + by apply valid_readable.
Qed.

Lemma strdup_round_trip_witness :
  STRING_old.strdup abc heap0
  = Done ((next_addr heap0, text abc ++ [NUL], fixed abc), after_malloc heap0)
  /\ STRING_old.size abc heap0 = Done ((Z.of_nat (length (text abc)), fixed abc), heap0)
  /\ live_blocks heap0 (after_malloc heap0) = 1
  /\ exists r h',
       STRING_old.new_cstr (Some (text abc ++ [NUL])) (after_malloc heap0)
       = Done (r, h')
       /\ text r = text abc
       /\ STRING_old.operator_eq r abc h' = Done ((true, r, fixed abc), h').
Proof. apply (strdup_round_trip abc heap0 abc_valid). Defined.

(** X23. [STRING_old(data, length)] and [assign(data, length)] agree: for an
    array of at least [len] bytes, both leave [used_ = len + 1] and the
    first [len] bytes of the array followed by a terminator, even across
    ['\0'] bytes in the array, and the two strings compare equal. *)
Theorem data_constructor_and_assign_agree (src : list byte) (len : Z)
    (this : STRING_old.t) (h1 h2 : heap)
    (Hd : data_ok (Some src) len) (Hw : well_formed this) :
  exists r1 r2 h1' h2',
    STRING_old.new_data (Some src) len h1 = Done (r1, h1')
    /\ STRING_old.assign (Some src) len this h2 = Done (r2, h2')
    /\ used r1 = len + 1 /\ used r2 = len + 1
    /\ take (Z.to_nat (len + 1)) (STRING_old.cstr r1)
       = take (Z.to_nat len) src ++ [NUL]
    /\ take (Z.to_nat (len + 1)) (STRING_old.cstr r2)
       = take (Z.to_nat len) src ++ [NUL]
    /\ forall h, STRING_old.operator_eq r1 r2 h = Done ((true, r1, r2), h).
Proof.
  destruct (new_data_full src len h1 Hd)
    as (r1 & Hrun1 & Hb1 & Hu1 & Hc1 & Ht1 & Hn1).
  destruct (assign_full src len this h2 Hd Hw)
    as (r2 & h2' & Hrun2 & Hb2 & Hu2 & Hc2 & Hle2 & Ht2 & Hn2).
  destruct Hd as [Hlen [_ Hf]]. unfold sizeof_STRING_HEADER, INT32_MAX in Hf.
  unfold block_ok in Hb1, Hb2.
  assert (Hk1 : take (Z.to_nat (len + 1)) (STRING_old.cstr r1)
                = take (Z.to_nat len) src ++ [NUL]).
  { replace (Z.to_nat (len + 1)) with (S (Z.to_nat len)) by lia.
    rewrite (take_S_r _ _ NUL) by done. by rewrite Ht1. }
  assert (Hk2 : take (Z.to_nat (len + 1)) (STRING_old.cstr r2)
                = take (Z.to_nat len) src ++ [NUL]).
  { replace (Z.to_nat (len + 1)) with (S (Z.to_nat len)) by lia.
    rewrite (take_S_r _ _ NUL) by done. by rewrite Ht2. }
  exists r1, r2, (after_malloc h1), h2'.
  split; [exact Hrun1|]. split; [exact Hrun2|].
  split; [exact Hu1|]. split; [exact Hu2|].
  split; [exact Hk1|]. split; [exact Hk2|].
  intros h. apply operator_eq_same.
  - rewrite Hu1. sizes.
  - lia.
  - lia.
  - lia.
  - rewrite Hu1, Hk1, Hk2. reflexivity.
Qed.

Lemma data_constructor_and_assign_agree_witness :
  exists r1 r2 h1' h2',
    STRING_old.new_data (Some a0b) 3 heap0 = Done (r1, h1')
    /\ STRING_old.assign (Some a0b) 3 abc heap0 = Done (r2, h2')
    /\ used r1 = 3 + 1 /\ used r2 = 3 + 1
    /\ take (Z.to_nat (3 + 1)) (STRING_old.cstr r1) = take (Z.to_nat 3) a0b ++ [NUL]
    /\ take (Z.to_nat (3 + 1)) (STRING_old.cstr r2) = take (Z.to_nat 3) a0b ++ [NUL]
    /\ forall h, STRING_old.operator_eq r1 r2 h = Done ((true, r1, r2), h).
Proof.
  apply (data_constructor_and_assign_agree a0b 3 abc heap0 heap0).
  - split; [vm_compute; split; congruence|]. vm_compute. split; congruence.
  - exact abc_well_formed.
Defined.

(** X24. A null data pointer: the constructor [STRING_old(data, length)]
    tests for it and builds the empty string in a block of [kMinCapacity]
    bytes whatever [length] says; [assign(data, length)] does not, and with
    [length > 0] it copies from the null pointer. *)
Theorem null_data_pointer (len : Z) (this : STRING_old.t) (h : heap)
    (Hlen : 0 < len) (Hf : fits (len + 1)) (Hw : well_formed this) :
  (exists r,
     STRING_old.new_data None len h = Done (r, after_malloc h)
     /\ used r = 1 /\ capacity r = kMinCapacity /\ text r = [])
  /\ STRING_old.assign None len this h = Crash OutOfBounds.
Proof.
  destruct Hf as [_ Hf]. unfold sizeof_STRING_HEADER, INT32_MAX in Hf.
  split.
  - unfold STRING_old.new_data.
    erewrite bind_done by (apply AllocData_done; vm_compute; split; congruence).
    pose proof (next_data_length h kMinCapacity ltac:(vm_compute; congruence)) as Hl.
    erewrite bind_done
      by (apply memcpy_done; cbn [STRING_old.cstr length];
          unfold kMinCapacity in *; lia).
    eexists. split; [reflexivity|]. split; [reflexivity|]. split; [reflexivity|].
    unfold text. rewrite cstr_set_cstr. reflexivity.
  - pose proof (well_formed_set_used 0 this Hw) as Hw0.
    destruct Hw as [Hb Hr]. unfold block_ok in Hb.
    unfold STRING_old.assign.
    rewrite wrap32_id by sizes.
    erewrite bind_done
      by (apply ensure_cstr_done; [done|rewrite used_set_used, capacity_set_used; lia|sizes]).
    cbn beta iota. rewrite to_size_t_id by sizes.
    unfold memcpy. change (pointee None) with (@nil byte). cbn [length].
    replace (0 + len <=? Z.of_nat 0) with false by (symmetry; apply Z.leb_gt; lia).
    rewrite !andb_false_r. reflexivity.
Qed.

Lemma null_data_pointer_witness :
  (exists r,
     STRING_old.new_data None 3 heap0 = Done (r, after_malloc heap0)
     /\ used r = 1 /\ capacity r = kMinCapacity /\ text r = [])
  /\ STRING_old.assign None 3 abc heap0 = Crash OutOfBounds.
Proof.
  apply (null_data_pointer 3 abc heap0).
  - lia.
  - vm_compute. split; congruence.
  - exact abc_well_formed.
Defined.

(** ** ensure *)

(** X25. [ensure(min_capacity)] reserves room: on a string whose [used_] is
    [strlen() + 1] it keeps the characters and [used_], leaves a capacity of
    at least [min_capacity] and never a smaller one than before, and is the
    identity when the capacity suffices.  An [operator+=] of another string
    afterwards appends in place, allocating nothing, when both [used_] counts
    together are within the capacity that [ensure] left; they count both
    terminators, so that the reserve has to be one byte more than the result
    needs, and otherwise the append moves the string to a new block. *)
Theorem ensure_reserves (n : Z) (s str : STRING_old.t) (h : heap)
    (Hw : well_formed s) (Hc : clean s) (Hstr : valid str)
    (Hother : STRING_old.data_ str <> STRING_old.data_ s)
    (Hn : fits (Z.max n (2 * capacity s))) :
  exists r h',
    STRING_old.ensure n s h = Done (r, h')
    /\ text r = text s /\ used r = used s
    /\ n <= capacity r /\ capacity s <= capacity r
    /\ (n <= capacity s -> r = s /\ h' = h)
    /\ exists r2 h2,
         STRING_old.operator_add_assign (STRING_old.Other str) r h'
         = Done ((r2, fixed str), h2)
         /\ text r2 = text s ++ text str
         /\ (used s + used (fixed str) <= capacity r ->
             STRING_old.data_ r2 = STRING_old.data_ r /\ h2 = h')
         /\ (capacity r < used s + used (fixed str) ->
             STRING_old.data_ r2 = next_addr h'
             /\ h2 = after_free (STRING_old.data_ r) (after_malloc h')).
Proof.
  destruct Hn as [_ Hn]. unfold sizeof_STRING_HEADER, INT32_MAX in Hn.
  pose proof Hw as [Hb Hr]. pose proof Hc as (k & Hk & Hu).
  pose proof (find_nul_Some _ _ Hk) as (_ & _ & Hlt).
  assert (Hcap : 0 <= used s <= capacity s) by (unfold block_ok in Hb; lia).
  set (r := ensured n s h).
  pose proof (ensured_capacity n s h) as [Hc1 Hc2]. fold r in Hc1, Hc2.
  pose proof (ensured_block_ok n s h Hb Hcap) as Hrb. fold r in Hrb.
  pose proof (ensured_used n s h) as Hru. fold r in Hru.
  assert (Hrk : find_nul (STRING_old.cstr r) = Some k)
    by (apply ensured_find_nul; [done|done|lia]).
  assert (Hrc : clean r) by (apply (clean_intro _ k); [done|lia]).
  assert (Hrcap : capacity r <= Z.max n (2 * capacity s)).
  { unfold r, ensured. destruct (n <=? capacity s) eqn:E.
    - apply Z.leb_le in E. lia.
    - rewrite capacity_mk. lia. }
  assert (Hrv : valid r).
  { apply clean_valid; [done|sizes|done|sizes]. }
  assert (Hrt : text r = text s).
  { unfold text. rewrite (chars_find _ _ Hrk), (chars_find _ _ Hk).
    apply ensured_take; [done|done|lia]. }
  exists r, (ensured_heap n s h).
  split.
  { unfold STRING_old.ensure.
    erewrite bind_done by (apply ensure_cstr_done; [done|done|sizes]).
    reflexivity. }
  split; [exact Hrt|]. split; [exact Hru|]. split; [exact Hc1|].
  split; [exact Hc2|]. split; [apply ensured_keep|].
  destruct (operator_add_assign_full str r (ensured_heap n s h) Hstr Hrv)
    as (r2 & h2 & Hrun & _ & _ & _ & _ & Htext & Hkeep & Hgrow).
  rewrite (clean_fixed r Hrc), Hru in Hkeep, Hgrow.
  exists r2, h2. split; [exact Hrun|]. split; [by rewrite Htext, Hrt|].
  split.
  - intros Hfit. by destruct (Hkeep Hfit) as (Hd & _ & Hh).
  - intros Hbig. by destruct (Hgrow Hbig) as (Hd & _ & Hh).
Qed.

Lemma ensure_reserves_witness :
  exists r h',
    STRING_old.ensure 20 abc heap0 = Done (r, h')
    /\ text r = text abc /\ used r = used abc
    /\ 20 <= capacity r /\ capacity abc <= capacity r
    /\ (20 <= capacity abc -> r = abc /\ h' = heap0)
    /\ exists r2 h2,
         STRING_old.operator_add_assign (STRING_old.Other hello) r h'
         = Done ((r2, fixed hello), h2)
         /\ text r2 = text abc ++ text hello
         /\ (used abc + used (fixed hello) <= capacity r ->
             STRING_old.data_ r2 = STRING_old.data_ r /\ h2 = h')
         /\ (capacity r < used abc + used (fixed hello) ->
             STRING_old.data_ r2 = next_addr h'
             /\ h2 = after_free (STRING_old.data_ r) (after_malloc h')).
Proof.
  apply (ensure_reserves 20 abc hello heap0 abc_well_formed).
  - exists 3%nat. split; reflexivity.
  - exact hello_is_valid.
  - vm_compute. congruence.
  - vm_compute. split; congruence.
Defined.

(** X26. [ensure] is public but, unlike the other entry points, does not
    repair the header first: on a string whose [used_] is negative (as
    [c_str()] and [operator[]] leave it) a call that has to grow the block
    passes [used_] to [memcpy] as a [size_t] and copies far beyond both
    blocks. *)
Theorem ensure_on_dirty_string (n : Z) (s : STRING_old.t) (h : heap)
    (Hb : block_ok s) (Hneg : -2147483648 <= used s < 0)
    (Hgrow : capacity s < n)
    (Hn : fits (Z.max n (2 * capacity s))) :
  STRING_old.ensure n s h = Crash OutOfBounds.
Proof.
  destruct Hn as [Hn0 Hn]. unfold sizeof_STRING_HEADER, INT32_MAX in Hn.
  unfold block_ok in Hb.
  assert (Hc0 : 0 <= capacity s) by lia.
  unfold STRING_old.ensure. apply bind_crash.
  unfold STRING_old.ensure_cstr, STRING_old.GetHeader.
  fold (capacity s). fold (used s).
  replace (n <=? capacity s) with false by (symmetry; apply Z.leb_gt; lia).
  rewrite (wrap32_id (2 * capacity s)) by sizes.
  set (c := if n <? 2 * capacity s then 2 * capacity s else n).
  assert (Hc : n <= c /\ c <= Z.max n (2 * capacity s)).
  { unfold c. destruct (n <? 2 * capacity s) eqn:E;
      [apply Z.ltb_lt in E|apply Z.ltb_ge in E]; lia. }
  rewrite (wrap32_id (sizeof_STRING_HEADER + c)) by sizes.
  rewrite (to_size_t_id (sizeof_STRING_HEADER + c)) by sizes.
  replace (sizeof_STRING_HEADER + c) with (c + sizeof_STRING_HEADER) by lia.
  erewrite bind_done by (apply malloc_block_done; sizes).
  cbn beta iota. apply bind_crash.
  pose proof (next_data_length h c ltac:(lia)) as Hl.
  unfold memcpy.
  assert (Hbig : to_size_t (used s) = used s + 18446744073709551616).
  { unfold to_size_t.
    rewrite <- (Z.mod_add _ 1) by lia. apply Z.mod_small. lia. }
  rewrite Hbig.
  replace (0 + (used s + 18446744073709551616) <=? Z.of_nat (length (next_data h c)))
    with false by (symmetry; apply Z.leb_gt; lia).
  rewrite !andb_false_r. reflexivity.
Qed.

Lemma ensure_on_dirty_string_witness :
  STRING_old.ensure 20 (STRING_old.set_used (-1) abc) heap0 = Crash OutOfBounds.
Proof.
  apply (ensure_on_dirty_string 20 (STRING_old.set_used (-1) abc) heap0).
  - reflexivity.
  - vm_compute. split; congruence.
  - vm_compute. reflexivity.
  - vm_compute. split; congruence.
Defined.

(** ** size and unsigned_size *)

(** X27. [unsigned_size()]: on a string with a valid header the assertion
    holds and the result is [length()], in debug and release builds alike; on
    a header with [used_ = 0] (the state the header comment calls a null
    string) [length()] is [-1], the assertion aborts a debug build, and a
    release build returns 4294967295. *)
Theorem unsigned_size_spec (ndebug : bool) (s : STRING_old.t) (h : heap) :
  (header_ok s ->
   STRING_old.unsigned_size ndebug s h = Done ((used (fixed s) - 1, fixed s), h)
   /\ STRING_old.length s h = Done ((used (fixed s) - 1, fixed s), h)
   /\ 0 <= used (fixed s) - 1)
  /\ (used s = 0 ->
      STRING_old.length s h = Done ((-1, s), h)
      /\ STRING_old.unsigned_size false s h = Crash AssertFailed
      /\ STRING_old.unsigned_size true s h = Done ((4294967295, s), h)).
Proof.
  split.
  - intros Hs. pose proof (fixed_used s Hs) as Hu.
    pose proof Hs as [[Hb Hr] _]. unfold block_ok in Hb.
    split; [|split; [by apply length_done|lia]].
    unfold STRING_old.unsigned_size.
    erewrite bind_done by (by apply length_done). cbn beta iota.
    replace (0 <=? used (fixed s) - 1) with true by (symmetry; apply Z.leb_le; lia).
    rewrite orb_true_r. rewrite to_uint32_id by sizes. reflexivity.
  - intros H0.
    assert (Hlen : STRING_old.length s h = Done ((-1, s), h)).
    { unfold STRING_old.length.
      erewrite bind_done by (apply FixHeader_nonneg; lia).
      rewrite used_header, H0. reflexivity. }
    split; [exact Hlen|].
    unfold STRING_old.unsigned_size.
    split; erewrite bind_done by exact Hlen; reflexivity.
Qed.

Lemma unsigned_size_spec_witness :
  STRING_old.unsigned_size false abc heap0 = Done ((used (fixed abc) - 1, fixed abc), heap0)
  /\ STRING_old.unsigned_size false (STRING_old.set_used 0 abc) heap0
     = Crash AssertFailed.
Proof.
  split.
  - apply (unsigned_size_spec false abc heap0).
    apply valid_header_ok, abc_valid.
  - apply (unsigned_size_spec false (STRING_old.set_used 0 abc) heap0).
    reflexivity.
Defined.

(** ** add_str_int *)

Lemma digits_length fuel n : (length (digits fuel n) <= fuel)%nat.
Proof.
  revert n. induction fuel as [|fuel IH]; intros n; [done|].
  cbn [digits]. rewrite length_app. cbn [length].
  destruct (n <? 10); [simpl; lia|]. specialize (IH (n / 10)). lia.
Qed.

Lemma digits_range fuel n :
  Forall (λ b, 48 <= Z_of_byte b <= 57) (digits fuel n).
Proof.
  revert n. induction fuel as [|fuel IH]; intros n; [constructor|].
  cbn [digits]. apply Forall_app. split.
  - destruct (n <? 10); [constructor|apply IH].
  - constructor; [|constructor]. rewrite Z_of_byte_of_Z.
    pose proof (Z.mod_pos_bound n 10 ltac:(lia)).
    rewrite Z.mod_small by lia. lia.
Qed.

Lemma digits_value_snoc (ds : list byte) (d : byte) :
  digits_value (ds ++ [d]) = 10 * digits_value ds + (Z_of_byte d - 48).
Proof. unfold digits_value. by rewrite fold_left_app. Qed.

Lemma digits_value_digits fuel n :
  0 <= n < 10 ^ Z.of_nat fuel -> digits_value (digits fuel n) = n.
Proof.
  revert n. induction fuel as [|fuel IH]; intros n Hn.
  - change (10 ^ Z.of_nat 0) with 1 in Hn. assert (n = 0) as -> by lia. done.
  - rewrite Nat2Z.inj_succ, Z.pow_succ_r in Hn by lia.
    cbn [digits]. rewrite digits_value_snoc, Z_of_byte_of_Z.
    pose proof (Z.mod_pos_bound n 10 ltac:(lia)) as Hm.
    rewrite (Z.mod_small (48 + n mod 10)) by lia.
    pose proof (Z.div_mod n 10 ltac:(lia)) as Hdm.
    destruct (n <? 10) eqn:E.
    + apply Z.ltb_lt in E. rewrite (Z.mod_small n 10) by lia.
      change (digits_value []) with 0. lia.
    + apply Z.ltb_ge in E. rewrite IH; [lia|]. split.
      * apply Z.div_pos; lia.
      * apply Z.div_lt_upper_bound; lia.
Qed.

Lemma digits_decimal_value (ds : list byte) :
  Forall (λ b, 48 <= Z_of_byte b <= 57) ds -> decimal_value ds = digits_value ds.
Proof.
  intros H. destruct ds as [|b ds]; [done|]. cbn [decimal_value].
  destruct (decide (b = "-"%byte)) as [->|]; [|done].
  apply Forall_cons in H as [H _]. vm_compute in H. destruct H as [H _].
  by destruct H.
Qed.

Lemma format_d_length number : (length (format_d number) <= 11)%nat.
Proof.
  unfold format_d. destruct (number <? 0); cbn [length].
  - pose proof (digits_length 10 (- number)). lia.
  - pose proof (digits_length 10 number). lia.
Qed.

Lemma format_d_value number :
  -2147483648 <= number <= INT32_MAX -> decimal_value (format_d number) = number.
Proof.
  unfold INT32_MAX. intros Hn. unfold format_d.
  destruct (number <? 0) eqn:E.
  - apply Z.ltb_lt in E. cbn [decimal_value]. rewrite decide_True by done.
    rewrite digits_value_digits; [lia|].
    change (10 ^ Z.of_nat 10) with 10000000000. lia.
  - apply Z.ltb_ge in E. rewrite digits_decimal_value by apply digits_range.
    apply digits_value_digits.
    change (10 ^ Z.of_nat 10) with 10000000000. lia.
Qed.

Lemma format_d_no_nul number : NUL ∉ format_d number.
Proof.
  assert (Hd : forall fuel n, NUL ∉ digits fuel n).
  { intros fuel n Hin. pose proof (digits_range fuel n) as Hr.
    rewrite Forall_forall in Hr. specialize (Hr _ Hin).
    vm_compute in Hr. destruct Hr as [Hr _]. by destruct Hr. }
  unfold format_d. destruct (number <? 0); [|apply Hd].
  apply not_elem_of_cons. split; [done|apply Hd].
Qed.

Lemma append_cstr_done (this s : list byte) (n : nat) h :
  find_nul s = Some n -> STRING.append_cstr this s h = Done (this ++ chars s, h).
Proof.
  intros Hn. unfold STRING.append_cstr.
  erewrite bind_done by (apply strlen_done; exact Hn).
  rewrite Nat2Z.id, (chars_find _ _ Hn). reflexivity.
Qed.

(** X28. [add_str_int(str, number)] appends the characters of [str] (nothing
    for a null pointer) and then the decimal numeral of [number]: for every
    [int] the numeral has at most 11 characters, so that it is never cut
    short by the buffer of [kMaxIntSize] bytes, whatever that array held
    before, and read back as a decimal number it is [number]. *)
Theorem add_str_int_appends (p : option (list byte)) (number : Z)
    (num_buffer this : list byte) (h : heap)
    (Hp : match p with Some str => is_Some (find_nul str) | None => True end)
    (Hbuf : Z.of_nat (length num_buffer) = kMaxIntSize)
    (Hint : -2147483648 <= number <= INT32_MAX) :
  STRING.add_str_int p number num_buffer this h
  = Done (this ++ chars (pointee p) ++ format_d number, h)
  /\ decimal_value (format_d number) = number
  /\ (length (format_d number) <= 11)%nat.
Proof.
  split; [|split; [by apply format_d_value|apply format_d_length]].
  pose proof (format_d_length number) as Hlen.
  pose proof (format_d_no_nul number) as Hnul.
  set (F := format_d number) in *.
  unfold kMaxIntSize in Hbuf.
  set (buf := (F ++ [NUL]) ++ drop (length (F ++ [NUL])) num_buffer).
  assert (Hbl : length buf = 22%nat).
  { unfold buf. rewrite !length_app, length_drop, ?length_app. cbn [length]. lia. }
  assert (Hsn : snprintf_d num_buffer (kMaxIntSize - 1) number h
                = Done ((Z.of_nat (length F), buf), h)).
  { unfold snprintf_d, kMaxIntSize. change (22 - 1 =? 0) with false.
    cbn match.
    replace ((0 <? 22 - 1) && (22 - 1 <=? Z.of_nat (length num_buffer)))
      with true by guard_holds.
    fold F. rewrite (take_ge F) by lia. reflexivity. }
  assert (Hfn : find_nul (<[Z.to_nat (kMaxIntSize - 1) := NUL]> buf)
                = Some (length F)).
  { unfold kMaxIntSize. apply find_nul_intro.
    - rewrite list_lookup_insert_ne by lia. unfold buf.
      rewrite <- app_assoc. rewrite lookup_app_r by lia.
      by rewrite Nat.sub_diag.
    - rewrite take_insert_ge by lia. unfold buf.
      rewrite <- app_assoc. rewrite take_app_length. exact Hnul. }
  assert (Hch : chars (<[Z.to_nat (kMaxIntSize - 1) := NUL]> buf) = F).
  { rewrite (chars_find _ _ Hfn). unfold kMaxIntSize.
    rewrite take_insert_ge by lia. unfold buf.
    rewrite <- app_assoc. apply take_app_length. }
  assert (Hrest : forall this',
    ('(_, num_buffer) ← snprintf_d num_buffer (kMaxIntSize - 1) number;
     num_buffer ← store num_buffer (kMaxIntSize - 1) NUL;
     STRING.append_cstr this' num_buffer) h
    = Done (this' ++ F, h)).
  { intros this'. erewrite bind_done by exact Hsn. cbn beta iota.
    erewrite bind_done by (apply store_done; unfold kMaxIntSize; lia).
    rewrite (append_cstr_done _ _ _ _ Hfn). by rewrite Hch. }
  unfold STRING.add_str_int. destruct p as [str|].
  - destruct Hp as [n Hn].
    erewrite bind_done by exact (append_cstr_done _ _ _ _ Hn).
    rewrite Hrest. change (pointee (Some str)) with str.
    by rewrite <- app_assoc.
  - erewrite bind_done by reflexivity.
    rewrite Hrest. reflexivity.
Qed.

Lemma add_str_int_appends_witness :
  STRING.add_str_int (Some (literal "n=")) (-2147483648)
    (replicate 22 xff) (list_byte_of_string "abc") heap0
  = Done (list_byte_of_string "abc" ++ chars (pointee (Some (literal "n=")))
          ++ format_d (-2147483648), heap0)
  /\ decimal_value (format_d (-2147483648)) = -2147483648
  /\ (length (format_d (-2147483648)) <= 11)%nat.
Proof.
  apply (add_str_int_appends (Some (literal "n=")) (-2147483648)
           (replicate 22 xff) (list_byte_of_string "abc") heap0).
  - vm_compute. eexists. reflexivity.
  - reflexivity.
  - vm_compute. split; congruence.
Defined.

(** * The invariant over sequences of operations *)

(** ** Sound strings and the bytes they hold *)

Lemma lookup_nul_find (m : list byte) (i : nat) :
  m !! i = Some NUL -> exists n : nat, find_nul m = Some n /\ (n <= i)%nat.
Proof.
  revert i. induction m as [|b m IH]; intros i Hi; [done|].
  cbn [find_nul]. destruct (decide (b = NUL)) as [->|Hb].
  - exists 0%nat. split; [done|lia].
  - destruct i as [|i]; [by injection Hi|].
    destruct (IH i Hi) as (n & Hn & Hle). exists (S n).
    rewrite Hn. split; [done|lia].
Qed.

Lemma holds_terminated s bs : holds s bs -> terminated s.
Proof.
  intros (Hb & Hr & Hu & Ht & Hl). unfold block_ok in Hb.
  pose proof (lookup_lt_Some _ _ _ Hl) as Hlt.
  split; [lia|]. rewrite Hu.
  by replace (Z.to_nat (Z.of_nat (length bs) + 1 - 1)) with (length bs) by lia.
Qed.

Lemma holds_sound s bs : holds s bs -> sound s.
Proof.
  intros H. pose proof (holds_terminated s bs H) as Ht.
  destruct H as (Hb & Hr & _). split; [done|]. split; [done|by left].
Qed.

Lemma holds_content s bs : holds s bs -> content s = bs.
Proof.
  intros (Hb & Hr & Hu & Ht & Hl). unfold content.
  rewrite fixed_positive by lia. rewrite Hu.
  by replace (Z.to_nat (Z.of_nat (length bs) + 1 - 1)) with (length bs) by lia.
Qed.

Lemma holds_fixed s bs : holds s bs -> fixed s = s.
Proof. intros (_ & _ & Hu & _). apply fixed_positive. lia. Qed.

Lemma holds_intro (r : STRING_old.t) (bs : list byte) :
  Z.of_nat (length (STRING_old.cstr r)) = capacity r ->
  capacity r + 8 <= 2147483647 ->
  used r = Z.of_nat (length bs) + 1 ->
  take (length bs) (STRING_old.cstr r) = bs ->
  STRING_old.cstr r !! length bs = Some NUL ->
  holds r bs.
Proof. intros. repeat split; done. Qed.

(** What [FixHeader] makes of a sound string. *)
Lemma sound_fixed s :
  sound s ->
  holds (fixed s) (content s)
  /\ capacity (fixed s) = capacity s
  /\ STRING_old.data_ (fixed s) = STRING_old.data_ s
  /\ STRING_old.cstr (fixed s) = STRING_old.cstr s
  /\ forall h, STRING_old.FixHeader s h = Done (fixed s, h).
Proof.
  intros (Hb & Hr & Hs). unfold block_ok in Hb.
  unfold sizeof_STRING_HEADER, INT32_MAX in Hr.
  split; [|split; [apply fixed_capacity|split; [apply fixed_data|
    split; [apply fixed_cstr|]]]].
  - destruct Hs as [[Hu Hl]|[Hu [n Hn]]].
    + unfold content. rewrite fixed_positive by lia.
      pose proof (lookup_lt_Some _ _ _ Hl) as Hlt.
      assert (Hk : length (take (Z.to_nat (used s - 1)) (STRING_old.cstr s))
                   = Z.to_nat (used s - 1)) by (rewrite length_take; lia).
      apply holds_intro; rewrite ?Hk; try done; lia.
    + pose proof (find_nul_Some _ _ Hn) as (Hl & _ & Hlt).
      unfold content. rewrite (fixed_dirty s n) by done.
      rewrite used_set_used.
      replace (Z.to_nat (Z.of_nat n + 1 - 1)) with n by lia.
      assert (Hk : length (take n (STRING_old.cstr s)) = n)
        by (rewrite length_take; lia).
      apply holds_intro; autorewrite with obj; rewrite ?Hk; try done; lia.
  - intros h. destruct Hs as [[Hu Hl]|[Hu [n Hn]]].
    + rewrite fixed_positive by lia. apply FixHeader_nonneg. lia.
    + pose proof (find_nul_Some _ _ Hn) as (_ & _ & Hlt).
      rewrite (fixed_dirty s n) by done.
      unfold STRING_old.FixHeader. rewrite used_header.
      replace (used s <? 0) with true by (symmetry; apply Z.ltb_lt; lia).
      erewrite bind_done by (apply strlen_done; exact Hn).
      rewrite wrap32_id by sizes. reflexivity.
Qed.

Lemma sound_length s h :
  sound s ->
  STRING_old.length s h = Done ((Z.of_nat (length (content s)), fixed s), h).
Proof.
  intros Hs. destruct (sound_fixed s Hs) as (Hh & _ & _ & _ & Hfix).
  destruct Hh as (Hb & Hr & Hu & _ & Hl). unfold block_ok in Hb.
  pose proof (lookup_lt_Some _ _ _ Hl) as Hlt.
  unfold STRING_old.length. erewrite bind_done by apply Hfix.
  rewrite used_header, Hu. rewrite wrap32_id by sizes.
  by replace (Z.of_nat (length (content s)) + 1 - 1)
    with (Z.of_nat (length (content s))) by lia.
Qed.

(** A positive [used_] in a sound string: the terminator is where the header
    says, and [used_] is [strlen() + 1] exactly when the bytes hold no
    ['\0']. *)
Lemma sound_positive s h :
  sound s -> 0 < used s ->
  STRING_old.cstr s !! Z.to_nat (used s - 1) = Some NUL
  /\ exists n : nat,
       strlen (STRING_old.cstr s) h = Done (Z.of_nat n, h)
       /\ STRING_old.length s h = Done ((used s - 1, s), h)
       /\ (NUL ∉ content s -> used s = Z.of_nat n + 1)
       /\ (NUL ∈ content s -> Z.of_nat n + 1 < used s).
Proof.
  intros Hs Hu. destruct Hs as (Hb & Hr & [[Hu' Hl]|[Hd _]]); [|lia].
  unfold block_ok in Hb. unfold sizeof_STRING_HEADER, INT32_MAX in Hr.
  split; [exact Hl|].
  destruct (lookup_nul_find _ _ Hl) as (n & Hn & Hle).
  pose proof (find_nul_Some _ _ Hn) as (Hnl & Hnot & Hlt).
  exists n. split; [by apply strlen_done|]. split.
  { rewrite length_positive by sizes. reflexivity. }
  unfold content. rewrite fixed_positive by lia.
  split.
  - intros Hnot'. destruct (decide (n = Z.to_nat (used s - 1))) as [->|Hne]; [lia|].
    exfalso. apply Hnot'. apply list_elem_of_lookup. exists n.
    rewrite lookup_take_lt by lia. exact Hnl.
  - intros Hin. destruct (decide (n = Z.to_nat (used s - 1))) as [->|Hne]; [|lia].
    by destruct Hnot.
Qed.

(** ** Room *)

Lemma room_bound n s :
  room n s -> capacity s + 8 <= 2147483647 -> n + 8 <= 2147483647.
Proof. unfold room, sizeof_STRING_HEADER, INT32_MAX. lia. Qed.

Lemma ensure_cstr_room n s h :
  block_ok s -> 0 <= used s <= capacity s -> capacity s + 8 <= 2147483647 ->
  room n s ->
  STRING_old.ensure_cstr n s h
  = Done ((STRING_old.GetCStr (ensured n s h), ensured n s h), ensured_heap n s h)
  /\ capacity (ensured n s h) + 8 <= 2147483647.
Proof.
  intros Hb Hu Hr Hroom. unfold room, sizeof_STRING_HEADER, INT32_MAX in Hroom.
  destruct (Z_le_gt_dec n (capacity s)) as [Hle|Hgt].
  - destruct (ensured_keep n s h Hle) as [-> ->].
    split; [by apply ensure_cstr_keep|done].
  - destruct (ensured_grow n s h ltac:(lia)) as (_ & -> & _).
    split; [|lia].
    apply ensure_cstr_done; [split; [done|sizes]|done|sizes].
Qed.

(** ** Blocks that were written *)

(** A buffer that keeps [a] bytes of [E] and has [w] and a terminator behind
    them. *)
Lemma written_take (E w rest : list byte) (a : nat) :
  (a <= length E)%nat ->
  let m := take a E ++ (w ++ [NUL]) ++ rest in
  take (a + length w) m = take a E ++ w
  /\ m !! (a + length w)%nat = Some NUL.
Proof.
  intros Ha m. unfold m.
  assert (Hl : length (take a E) = a) by (rewrite length_take; lia).
  split.
  - rewrite <- Hl at 1. rewrite take_app_add'  by done.
    rewrite <- app_assoc. by rewrite take_app_length.
  - rewrite lookup_app_r by lia. rewrite Hl.
    replace (a + length w - a)%nat with (length w) by lia.
    rewrite <- app_assoc. rewrite lookup_app_r by lia.
    by rewrite Nat.sub_diag.
Qed.

(** The receiver after [ensure_cstr(n)] and a copy of [w] and a terminator to
    the offset [a], in front of which the bytes are kept. *)
Lemma written_holds (s : STRING_old.t) (n : Z) (h : heap) (a : nat)
    (w rest : list byte) :
  block_ok s -> capacity s + 8 <= 2147483647 -> 0 <= used s <= capacity s ->
  room n s -> Z.of_nat a <= used s ->
  let E := ensured n s h in
  let m := take a (STRING_old.cstr E) ++ (w ++ [NUL]) ++ rest in
  length m = length (STRING_old.cstr E) ->
  holds (STRING_old.set_used (Z.of_nat (a + length w) + 1) (STRING_old.set_cstr m E))
        (take a (STRING_old.cstr s) ++ w).
Proof.
  intros Hb Hr Hu Hroom Ha E m Hm.
  destruct (ensure_cstr_room n s h Hb Hu Hr Hroom) as [_ HrE]. fold E in HrE.
  pose proof (ensured_block_ok n s h Hb Hu) as HbE. fold E in HbE.
  pose proof (ensured_capacity n s h) as [_ Hc2]. fold E in Hc2.
  unfold block_ok in Hb, HbE.
  assert (HaE : (a <= length (STRING_old.cstr E))%nat) by lia.
  destruct (written_take (STRING_old.cstr E) w rest a HaE) as [Ht Hl].
  fold m in Ht, Hl.
  assert (HE : take a (STRING_old.cstr E) = take a (STRING_old.cstr s))
    by (unfold E; apply ensured_take; done).
  assert (Hlen : length (take a (STRING_old.cstr s) ++ w) = (a + length w)%nat)
    by (rewrite length_app, length_take; lia).
  apply holds_intro; autorewrite with obj; rewrite ?Hlen.
  - lia.
  - done.
  - done.
  - by rewrite Ht, HE.
  - done.
Qed.

Lemma holds_data r bs : holds r bs -> fixed r = r /\ content r = bs /\ sound r.
Proof.
  intros H. split; [by apply (holds_fixed r bs)|].
  split; [by apply holds_content|by apply (holds_sound r bs)].
Qed.

(** The bytes of a sound string with their terminator. *)
Lemma sound_take s :
  sound s ->
  exists n : nat,
    used (fixed s) = Z.of_nat n + 1
    /\ length (content s) = n
    /\ take (S n) (STRING_old.cstr s) = content s ++ [NUL]
    /\ take n (STRING_old.cstr s) = content s
    /\ Z.of_nat n + 1 <= capacity s
    /\ Z.of_nat (length (STRING_old.cstr s)) = capacity s
    /\ capacity s + 8 <= 2147483647.
Proof.
  intros Hs. pose proof Hs as (Hb & Hr & _). unfold block_ok in Hb.
  destruct (sound_fixed s Hs) as ((_ & _ & Hu & Ht & Hl) & _ & _ & Hc & _).
  rewrite Hc in Ht, Hl.
  pose proof (lookup_lt_Some _ _ _ Hl) as Hlt.
  exists (length (content s)). split; [done|]. split; [done|].
  split; [|split; [done|split; [lia|done]]].
  rewrite (take_S_r _ _ NUL) by done. by rewrite Ht.
Qed.

(** ** The constructors *)

Lemma new_holds h :
  exists r,
    STRING_old.new h = Done (r, after_malloc h)
    /\ holds r [] /\ capacity r = kMinCapacity.
Proof.
  eexists. split; [apply new_done|].
  destruct (default_state_spec h) as (Hb & _ & Hc). cbn zeta in Hb, Hc.
  split; [|exact Hc].
  apply holds_intro; try done; rewrite Hc; vm_compute; congruence.
Qed.

Lemma new_copy_holds str h :
  sound str ->
  exists r,
    STRING_old.new_copy str h = Done ((r, fixed str), after_malloc h)
    /\ holds r (content str) /\ capacity r = used (fixed str).
Proof.
  intros Hs. destruct (sound_take str Hs) as (n & Hu & Hlen & Ht & _ & Hc & Hb & Hr).
  destruct (sound_fixed str Hs) as (_ & _ & _ & Hcs & Hfix).
  unfold STRING_old.new_copy.
  erewrite bind_done by apply Hfix.
  rewrite used_header, Hu.
  erewrite bind_done by (apply AllocData_done; unfold INT32_MAX; lia).
  pose proof (next_data_length h (Z.of_nat n + 1) ltac:(lia)) as Hl.
  rewrite to_size_t_id by sizes.
  erewrite bind_done
    by (apply memcpy_done; cbn [STRING_old.cstr]; rewrite ?Hcs; lia).
  eexists. split; [reflexivity|].
  cbn [STRING_old.cstr]. rewrite Hcs.
  change (Z.to_nat 0) with 0%nat. rewrite take_0, drop_0, app_nil_l, Z.add_0_l.
  replace (Z.to_nat (Z.of_nat n + 1)) with (S n) by lia.
  rewrite Ht. split; [|by autorewrite with obj].
  apply holds_intro; autorewrite with obj; rewrite ?Hlen.
  - rewrite !length_app, length_drop, Hlen. cbn [length]. lia.
  - lia.
  - done.
  - rewrite <- Hlen. rewrite <- app_assoc. by rewrite take_app_length.
  - rewrite <- app_assoc. rewrite lookup_app_r by lia.
    by rewrite Hlen, Nat.sub_diag.
Qed.

Lemma new_cstr_holds (p : option (list byte)) h :
  c_string p ->
  exists r,
    STRING_old.new_cstr p h = Done (r, after_malloc h)
    /\ holds r (chars (pointee p))
    /\ capacity r = match p with
                    | None => kMinCapacity
                    | Some src => Z.of_nat (default 0%nat (find_nul src)) + 1
                    end.
Proof.
  destruct p as [src|]; intros Hp.
  - destruct Hp as (n & Hn & Hf). unfold sizeof_STRING_HEADER, INT32_MAX in Hf.
    pose proof (find_nul_Some _ _ Hn) as (Hnl & _ & Hlt).
    change (pointee (Some src)) with src.
    pose proof (chars_length _ _ Hn) as Hlen.
    pose proof (take_S_chars _ _ Hn) as Ht.
    unfold STRING_old.new_cstr.
    erewrite bind_done by (apply strlen_done; exact Hn).
    rewrite wrap32_id by sizes.
    erewrite bind_done by (apply AllocData_done; unfold INT32_MAX; lia).
    pose proof (next_data_length h (Z.of_nat n + 1) ltac:(lia)) as Hl.
    rewrite to_size_t_id by sizes.
    erewrite bind_done by (apply memcpy_done; cbn [STRING_old.cstr]; lia).
    eexists. split; [reflexivity|].
    cbn [STRING_old.cstr].
    change (Z.to_nat 0) with 0%nat. rewrite take_0, drop_0, app_nil_l, Z.add_0_l.
    replace (Z.to_nat (Z.of_nat n + 1)) with (S n) by lia.
    rewrite Ht, Hn. split; [|by autorewrite with obj].
    apply holds_intro; autorewrite with obj; rewrite ?Hlen.
    + rewrite !length_app, length_drop, Hlen. cbn [length]. lia.
    + lia.
    + done.
    + rewrite <- Hlen. rewrite <- app_assoc. by rewrite take_app_length.
    + rewrite <- app_assoc. rewrite lookup_app_r by lia.
      by rewrite Hlen, Nat.sub_diag.
  - destruct (new_holds h) as (r & Hrun & Hh & Hc).
    exists r. split; [exact Hrun|]. split; [exact Hh|exact Hc].
Qed.

Lemma new_data_holds (p : option (list byte)) (len : Z) h :
  p = None
  \/ (0 <= len <= Z.of_nat (length (pointee p)) /\ len + 1 + 8 <= 2147483647) ->
  exists r,
    STRING_old.new_data p len h = Done (r, after_malloc h)
    /\ holds r (match p with
                | None => []
                | Some src => take (Z.to_nat len) src
                end)
    /\ capacity r = match p with
                    | None => kMinCapacity
                    | Some _ => len + 1
                    end.
Proof.
  destruct p as [src|]; intros Hp.
  - destruct Hp as [|[Hlen Hf]]; [done|].
    change (pointee (Some src)) with src in Hlen.
    unfold STRING_old.new_data.
    rewrite wrap32_id by sizes.
    erewrite bind_done by (apply AllocData_done; unfold INT32_MAX; lia).
    pose proof (next_data_length h (len + 1) ltac:(lia)) as Hl.
    rewrite to_size_t_id by sizes.
    erewrite bind_done by (apply memcpy_done; cbn [STRING_old.cstr]; lia).
    cbn [STRING_old.cstr].
    change (Z.to_nat 0) with 0%nat. rewrite take_0, drop_0, app_nil_l, Z.add_0_l.
    set (m := take (Z.to_nat len) src ++ drop (Z.to_nat len) (next_data h (len + 1))).
    assert (Hm : Z.of_nat (length m) = len + 1).
    { unfold m. rewrite length_app, length_take, length_drop. lia. }
    erewrite bind_done by (apply store_done; lia).
    eexists. split; [reflexivity|].
    assert (Hk : length (take (Z.to_nat len) src) = Z.to_nat len)
      by (rewrite length_take; lia).
    split; [|by autorewrite with obj].
    apply holds_intro; autorewrite with obj; rewrite ?Hk.
    + rewrite length_insert. done.
    + lia.
    + lia.
    + rewrite take_insert_ge by lia. unfold m.
      rewrite <- Hk at 1. by rewrite take_app_length.
    + apply list_lookup_insert_eq. lia.
  - destruct (new_holds h) as (r & Hrun & Hh & Hc).
    exists r. split; [exact Hrun|]. split; [exact Hh|exact Hc].
Qed.

(** ** The assignments *)

Lemma room_set_used n u s : room n s -> room n (STRING_old.set_used u s).
Proof. unfold room. by rewrite capacity_set_used. Qed.

Lemma room_fixed n s : room n s -> room n (fixed s).
Proof. unfold room. by rewrite fixed_capacity. Qed.

(** The receiver with [used_] cleared, as the assignments make it before
    [ensure_cstr]. *)
Lemma cleared s :
  sound s ->
  block_ok (STRING_old.set_used 0 s)
  /\ capacity (STRING_old.set_used 0 s) + 8 <= 2147483647
  /\ 0 <= used (STRING_old.set_used 0 s) <= capacity (STRING_old.set_used 0 s).
Proof.
  intros (Hb & Hr & _). unfold block_ok in *. autorewrite with obj.
  split; [done|]. split; [done|]. lia.
Qed.

Lemma operator_assign_holds str this h :
  sound str -> sound this -> room (used (fixed str)) this ->
  exists r h',
    STRING_old.operator_assign str this h = Done ((r, fixed str), h')
    /\ holds r (content str) /\ capacity this <= capacity r.
Proof.
  intros Hs Ht Hroom.
  destruct (sound_take str Hs) as (n & Hu & Hlen & Htk & _ & Hc & Hb & Hr).
  destruct (sound_fixed str Hs) as (_ & _ & _ & Hcs & Hfix).
  destruct (cleared this Ht) as (Hb0 & Hr0 & Hu0).
  rewrite Hu in Hroom. apply (room_set_used _ 0) in Hroom.
  destruct (ensure_cstr_room _ _ h Hb0 Hu0 Hr0 Hroom) as [Hens HrE].
  set (s0 := STRING_old.set_used 0 this) in *.
  set (E := ensured (Z.of_nat n + 1) s0 h) in *.
  pose proof (ensured_capacity (Z.of_nat n + 1) s0 h) as [Hc1 Hc2].
  fold E in Hc1, Hc2.
  pose proof (ensured_block_ok _ _ h Hb0 Hu0 : block_ok E) as HbE.
  unfold block_ok in HbE.
  unfold STRING_old.operator_assign.
  erewrite bind_done by apply Hfix.
  rewrite used_header, Hu. fold s0.
  erewrite bind_done by exact Hens. cbn beta iota.
  rewrite to_size_t_id by sizes.
  erewrite bind_done by (apply memcpy_done; rewrite ?Hcs; lia).
  eexists _, _. split; [reflexivity|].
  change (Z.to_nat 0) with 0%nat.
  rewrite Hcs, take_0, drop_0, app_nil_l, Z.add_0_l.
  replace (Z.to_nat (Z.of_nat n + 1)) with (S n) by lia. rewrite Htk.
  split.
  - pose proof (written_holds s0 (Z.of_nat n + 1) h 0 (content str)
                  (drop (S n) (STRING_old.cstr E)) Hb0 Hr0 Hu0 Hroom) as Hres.
    cbn zeta in Hres. fold E in Hres.
    rewrite !take_0, !app_nil_l, Hlen in Hres. cbn [Nat.add] in Hres.
    apply Hres; [lia|].
    rewrite !length_app, length_drop, Hlen. cbn [length]. lia.
  - autorewrite with obj. unfold s0 in Hc2. by rewrite capacity_set_used in Hc2.
Qed.

Lemma operator_assign_cstr_holds (p : option (list byte)) this h :
  c_string p -> sound this ->
  (forall src, p = Some src ->
     room (Z.of_nat (default 0%nat (find_nul src)) + 1) this) ->
  exists r h',
    STRING_old.operator_assign_cstr p this h = Done (r, h')
    /\ holds r (chars (pointee p))
    /\ match p with
       | None => capacity r = kMinCapacity
       | Some _ => capacity this <= capacity r
       end.
Proof.
  intros Hp Ht Hroom. destruct p as [src|].
  - destruct Hp as (n & Hn & Hf). unfold sizeof_STRING_HEADER, INT32_MAX in Hf.
    specialize (Hroom src eq_refl). rewrite Hn in Hroom.
    cbn [default from_option id] in Hroom.
    change (pointee (Some src)) with src.
    pose proof (find_nul_Some _ _ Hn) as (Hnl & _ & Hlt).
    pose proof (chars_length _ _ Hn) as Hlen.
    pose proof (take_S_chars _ _ Hn) as Htk.
    destruct (cleared this Ht) as (Hb0 & Hr0 & Hu0).
    apply (room_set_used _ 0) in Hroom.
    destruct (ensure_cstr_room _ _ h Hb0 Hu0 Hr0 Hroom) as [Hens HrE].
    set (s0 := STRING_old.set_used 0 this) in *.
    set (E := ensured (Z.of_nat n + 1) s0 h) in *.
    pose proof (ensured_capacity (Z.of_nat n + 1) s0 h) as [Hc1 Hc2].
    fold E in Hc1, Hc2.
    pose proof (ensured_block_ok _ _ h Hb0 Hu0 : block_ok E) as HbE.
    unfold block_ok in HbE.
    unfold STRING_old.operator_assign_cstr.
    erewrite bind_done by (apply strlen_done; exact Hn).
    rewrite wrap32_id by sizes. fold s0.
    erewrite bind_done by exact Hens. cbn beta iota.
    rewrite to_size_t_id by sizes.
    erewrite bind_done by (apply memcpy_done; lia).
    eexists _, _. split; [reflexivity|].
    change (Z.to_nat 0) with 0%nat.
    rewrite take_0, drop_0, app_nil_l, Z.add_0_l.
    replace (Z.to_nat (Z.of_nat n + 1)) with (S n) by lia. rewrite Htk.
    split.
    + pose proof (written_holds s0 (Z.of_nat n + 1) h 0 (chars src)
                    (drop (S n) (STRING_old.cstr E)) Hb0 Hr0 Hu0 Hroom) as Hres.
      cbn zeta in Hres. fold E in Hres.
      rewrite !take_0, !app_nil_l, Hlen in Hres. cbn [Nat.add] in Hres.
      apply Hres; [lia|].
      rewrite !length_app, length_drop, Hlen. cbn [length]. lia.
    + autorewrite with obj. unfold s0 in Hc2. by rewrite capacity_set_used in Hc2.
  - eexists _, _. split; [apply operator_assign_null_done|].
    destruct (default_state_spec h) as (Hb & _ & Hc). cbn zeta in Hb, Hc.
    split; [|exact Hc].
    apply holds_intro; try done; rewrite Hc; vm_compute; congruence.
Qed.

Lemma assign_holds (p : option (list byte)) (len : Z) this h :
  0 <= len <= Z.of_nat (length (pointee p)) -> sound this ->
  room (len + 1) this ->
  exists r h',
    STRING_old.assign p len this h = Done (r, h')
    /\ holds r (take (Z.to_nat len) (pointee p))
    /\ capacity this <= capacity r.
Proof.
  intros Hlen Ht Hroom.
  destruct (cleared this Ht) as (Hb0 & Hr0 & Hu0).
  pose proof (room_bound _ _ Hroom ltac:(by destruct Ht as (_ & ? & _))) as Hf.
  apply (room_set_used _ 0) in Hroom.
  destruct (ensure_cstr_room _ _ h Hb0 Hu0 Hr0 Hroom) as [Hens HrE].
  set (s0 := STRING_old.set_used 0 this) in *.
  set (E := ensured (len + 1) s0 h) in *.
  pose proof (ensured_capacity (len + 1) s0 h) as [Hc1 Hc2].
  fold E in Hc1, Hc2.
  pose proof (ensured_block_ok _ _ h Hb0 Hu0 : block_ok E) as HbE.
  unfold block_ok in HbE.
  unfold STRING_old.assign.
  rewrite wrap32_id by sizes. fold s0.
  erewrite bind_done by exact Hens. cbn beta iota.
  rewrite to_size_t_id by sizes.
  erewrite bind_done by (apply memcpy_done; lia).
  change (Z.to_nat 0) with 0%nat. rewrite take_0, drop_0, app_nil_l, Z.add_0_l.
  set (m := take (Z.to_nat len) (pointee p) ++ drop (Z.to_nat len) (STRING_old.cstr E)).
  assert (Hm : length m = length (STRING_old.cstr E)).
  { unfold m. rewrite length_app, length_take, length_drop. lia. }
  erewrite bind_done by (apply store_done; lia).
  eexists _, _. split; [reflexivity|].
  assert (Hk : length (take (Z.to_nat len) (pointee p)) = Z.to_nat len)
    by (rewrite length_take; lia).
  split.
  - apply holds_intro; autorewrite with obj; rewrite ?Hk.
    + rewrite length_insert. lia.
    + done.
    + lia.
    + rewrite take_insert_ge by lia. unfold m.
      rewrite <- Hk at 1. by rewrite take_app_length.
    + apply list_lookup_insert_eq. lia.
  - autorewrite with obj. unfold s0 in Hc2. by rewrite capacity_set_used in Hc2.
Qed.

(** ** The appends *)

Lemma operator_add_assign_holds str this h :
  sound str -> sound this ->
  room (used (fixed this) + used (fixed str)) this ->
  exists r h',
    STRING_old.operator_add_assign (STRING_old.Other str) this h
    = Done ((r, fixed str), h')
    /\ holds r (content this ++ content str)
    /\ capacity this <= capacity r.
Proof.
  intros Hs Ht Hroom.
  destruct (sound_take str Hs) as (n & Hu & Hlen & Htk & _ & Hc & Hb & Hr).
  destruct (sound_fixed str Hs) as (_ & _ & _ & Hcs & Hfix).
  destruct (sound_take this Ht) as (a & Hta & Htlen & _ & Htt & Htc & Htb & Htr).
  destruct (sound_fixed this Ht) as ((Hfb & Hfr & _) & Hfc & _ & Hfcs & Hfixt).
  rewrite Hu, Hta in Hroom. apply room_fixed in Hroom.
  assert (Hfu : 0 <= used (fixed this) <= capacity (fixed this)) by lia.
  pose proof (room_bound _ _ Hroom Hfr) as Hf.
  destruct (ensure_cstr_room _ _ h Hfb Hfu Hfr Hroom) as [Hens HrE].
  set (f := fixed this) in *.
  set (E := ensured (Z.of_nat a + 1 + (Z.of_nat n + 1)) f h) in *.
  pose proof (ensured_capacity (Z.of_nat a + 1 + (Z.of_nat n + 1)) f h) as [Hc1 Hc2].
  fold E in Hc1, Hc2.
  pose proof (ensured_block_ok _ _ h Hfb Hfu : block_ok E) as HbE.
  unfold block_ok in HbE.
  assert (HEu : used E = Z.of_nat a + 1) by (unfold E; by rewrite ensured_used).
  assert (Hres : holds
    (STRING_old.set_used (Z.of_nat (a + length (content str)) + 1)
       (STRING_old.set_cstr
          (take a (STRING_old.cstr E) ++ (content str ++ [NUL])
           ++ drop (a + S n) (STRING_old.cstr E)) E))
    (take a (STRING_old.cstr f) ++ content str)).
  { apply written_holds; try done.
    - lia.
    - fold E. rewrite !length_app, length_take, length_drop, Hlen. cbn [length]. lia. }
  rewrite Hfcs, Htt, Hlen in Hres.
  unfold STRING_old.operator_add_assign.
  erewrite bind_done by apply Hfixt. fold f.
  erewrite bind_done by apply Hfix.
  rewrite !used_header, Hu, Hta.
  rewrite (wrap32_id (Z.of_nat a + 1 + (Z.of_nat n + 1))) by sizes.
  erewrite bind_done by exact Hens. cbn beta iota.
  rewrite used_header, HEu, Hcs.
  rewrite to_size_t_id by sizes.
  rewrite (wrap32_id (Z.of_nat n + 1 - 1)) by sizes.
  rewrite (wrap32_id (Z.of_nat a + 1 + (Z.of_nat n + 1 - 1))) by sizes.
  destruct (1 <? Z.of_nat a + 1) eqn:E1.
  - erewrite bind_done by (apply memcpy_done; lia).
    eexists _, _. split; [reflexivity|].
    change (Z.to_nat 0) with 0%nat. rewrite drop_0.
    replace (Z.to_nat (Z.of_nat a + 1 - 1)) with a by lia.
    replace (Z.to_nat (Z.of_nat n + 1)) with (S n) by lia.
    replace (Z.to_nat (Z.of_nat a + 1 - 1 + (Z.of_nat n + 1))) with (a + S n)%nat by lia.
    replace (Z.of_nat a + 1 + (Z.of_nat n + 1 - 1)) with (Z.of_nat (a + n) + 1) by lia.
    rewrite Htk. split; [exact Hres|].
    autorewrite with obj. unfold f in Hc2. by rewrite fixed_capacity in Hc2.
  - apply Z.ltb_ge in E1. assert (a = 0%nat) as -> by lia.
    erewrite bind_done by (apply memcpy_done; lia).
    eexists _, _. split; [reflexivity|].
    change (Z.to_nat 0) with 0%nat. rewrite drop_0.
    replace (Z.to_nat (Z.of_nat n + 1)) with (S n) by lia.
    replace (Z.to_nat (0 + (Z.of_nat n + 1))) with (0 + S n)%nat by lia.
    replace (Z.of_nat n + 1) with (Z.of_nat (0 + n) + 1) at 2 by lia.
    rewrite Htk. split; [exact Hres|].
    autorewrite with obj. unfold f in Hc2. by rewrite fixed_capacity in Hc2.
Qed.

Lemma operator_add_assign_cstr_holds (p : option (list byte)) this h :
  c_string p -> sound this ->
  (forall src, p = Some src ->
     find_nul src = Some 0%nat
     \/ room (used (fixed this)
              + (Z.of_nat (default 0%nat (find_nul src)) + 1)) this) ->
  exists r h',
    STRING_old.operator_add_assign_cstr p this h = Done (r, h')
    /\ sound r
    /\ content r = content this ++ chars (pointee p)
    /\ capacity this <= capacity r.
Proof.
  intros Hp Ht Hroom. destruct p as [src|].
  2:{ exists this, h. split; [reflexivity|]. split; [done|].
      split; [|lia]. change (chars (pointee None)) with (@nil byte).
      by rewrite app_nil_r. }
  destruct Hp as (n & Hn & Hf). unfold sizeof_STRING_HEADER, INT32_MAX in Hf.
  specialize (Hroom src eq_refl). rewrite Hn in Hroom.
  cbn [default from_option id] in Hroom.
  change (pointee (Some src)) with src.
  pose proof (find_nul_Some _ _ Hn) as (Hnl & Hnot & Hlt).
  pose proof (chars_length _ _ Hn) as Hlen.
  pose proof (take_S_chars _ _ Hn) as Htk.
  destruct src as [|b src]; [simpl in Hlt; lia|].
  unfold STRING_old.operator_add_assign_cstr.
  erewrite bind_done by (apply load_done; [lia|reflexivity]).
  destruct (decide (b = NUL)) as [->|Hb].
  { exists this, h. split; [reflexivity|]. split; [done|].
    split; [|lia]. change (chars (NUL :: src)) with (@nil byte).
    by rewrite app_nil_r. }
  destruct Hroom as [Hz|Hroom].
  { exfalso. assert (n = 0%nat) as -> by congruence.
    change (Some b = Some NUL) in Hnl. congruence. }
  destruct (sound_take this Ht) as (a & Hta & Htlen & _ & Htt & Htc & Htb & Htr).
  destruct (sound_fixed this Ht) as ((Hfb & Hfr & _) & Hfc & _ & Hfcs & Hfixt).
  rewrite Hta in Hroom. apply room_fixed in Hroom.
  assert (Hfu : 0 <= used (fixed this) <= capacity (fixed this)) by lia.
  pose proof (room_bound _ _ Hroom Hfr) as Hfn.
  destruct (ensure_cstr_room _ _ h Hfb Hfu Hfr Hroom) as [Hens HrE].
  set (f := fixed this) in *.
  set (E := ensured (Z.of_nat a + 1 + (Z.of_nat n + 1)) f h) in *.
  pose proof (ensured_capacity (Z.of_nat a + 1 + (Z.of_nat n + 1)) f h) as [Hc1 Hc2].
  fold E in Hc1, Hc2.
  pose proof (ensured_block_ok _ _ h Hfb Hfu : block_ok E) as HbE.
  unfold block_ok in HbE.
  assert (HEu : used E = Z.of_nat a + 1) by (unfold E; by rewrite ensured_used).
  assert (Hres : holds
    (STRING_old.set_used (Z.of_nat (a + length (chars (b :: src))) + 1)
       (STRING_old.set_cstr
          (take a (STRING_old.cstr E) ++ (chars (b :: src) ++ [NUL])
           ++ drop (a + S n) (STRING_old.cstr E)) E))
    (take a (STRING_old.cstr f) ++ chars (b :: src))).
  { apply written_holds; try done.
    - lia.
    - fold E. rewrite !length_app, length_take, length_drop, Hlen.
      cbn [length]. lia. }
  rewrite Hfcs, Htt, Hlen in Hres.
  erewrite bind_done by apply Hfixt. fold f.
  erewrite bind_done by (apply strlen_done; exact Hn).
  rewrite !used_header, Hta.
  rewrite (wrap32_id (Z.of_nat n + 1)) by sizes.
  rewrite (wrap32_id (Z.of_nat a + 1 + (Z.of_nat n + 1))) by sizes.
  erewrite bind_done by exact Hens. cbn beta iota.
  rewrite used_header, HEu.
  rewrite to_size_t_id by sizes.
  rewrite (wrap32_id (Z.of_nat n + 1 - 1)) by sizes.
  rewrite (wrap32_id (Z.of_nat a + 1 + (Z.of_nat n + 1 - 1))) by sizes.
  replace (0 <? Z.of_nat a + 1) with true by (symmetry; apply Z.ltb_lt; lia).
  erewrite bind_done by (apply memcpy_done; lia).
  eexists _, _. split; [reflexivity|].
  change (Z.to_nat 0) with 0%nat. rewrite drop_0.
  replace (Z.to_nat (Z.of_nat a + 1 - 1)) with a by lia.
  replace (Z.to_nat (Z.of_nat n + 1)) with (S n) by lia.
  replace (Z.to_nat (Z.of_nat a + 1 - 1 + (Z.of_nat n + 1))) with (a + S n)%nat by lia.
  replace (Z.of_nat a + 1 + (Z.of_nat n + 1 - 1)) with (Z.of_nat (a + n) + 1) by lia.
  rewrite Htk.
  destruct (holds_data _ _ Hres) as (_ & Hcont & Hsound).
  split; [exact Hsound|]. split; [exact Hcont|].
  autorewrite with obj. unfold f in Hc2. by rewrite fixed_capacity in Hc2.
Qed.

Lemma operator_add_assign_char_holds (ch : byte) this h :
  sound this -> ch = NUL \/ room (used (fixed this) + 1) this ->
  exists r h',
    STRING_old.operator_add_assign_char ch this h = Done (r, h')
    /\ sound r
    /\ content r = content this ++ (if decide (ch = NUL) then [] else [ch])
    /\ capacity this <= capacity r.
Proof.
  intros Ht Hroom. unfold STRING_old.operator_add_assign_char.
  destruct (decide (ch = NUL)) as [->|Hch].
  { exists this, h. split; [reflexivity|]. split; [done|].
    split; [by rewrite app_nil_r|lia]. }
  destruct Hroom as [|Hroom]; [done|].
  destruct (sound_take this Ht) as (a & Hta & Htlen & _ & Htt & Htc & Htb & Htr).
  destruct (sound_fixed this Ht) as ((Hfb & Hfr & _) & Hfc & _ & Hfcs & Hfixt).
  rewrite Hta in Hroom. apply room_fixed in Hroom.
  assert (Hfu : 0 <= used (fixed this) <= capacity (fixed this)) by lia.
  pose proof (room_bound _ _ Hroom Hfr) as Hfn.
  destruct (ensure_cstr_room _ _ h Hfb Hfu Hfr Hroom) as [Hens HrE].
  set (f := fixed this) in *.
  set (E := ensured (Z.of_nat a + 1 + 1) f h) in *.
  pose proof (ensured_capacity (Z.of_nat a + 1 + 1) f h) as [Hc1 Hc2].
  fold E in Hc1, Hc2.
  pose proof (ensured_block_ok _ _ h Hfb Hfu : block_ok E) as HbE.
  unfold block_ok in HbE.
  assert (HE : take a (STRING_old.cstr E) = take a (STRING_old.cstr f))
    by (unfold E; apply ensured_take; [done|done|lia]).
  erewrite bind_done by apply Hfixt. fold f.
  rewrite !used_header, Hta.
  rewrite (wrap32_id (Z.of_nat a + 1 + 1)) by sizes.
  erewrite bind_done by exact Hens. cbn beta iota.
  replace (0 <? Z.of_nat a + 1) with true by (symmetry; apply Z.ltb_lt; lia).
  rewrite (wrap32_id (Z.of_nat a + 1 - 1)) by sizes.
  replace (Z.of_nat a + 1 - 1) with (Z.of_nat a) by lia.
  erewrite bind_done by (apply store_done; lia).
  rewrite (wrap32_id (Z.of_nat a + 1)) by sizes.
  erewrite bind_done by (apply store_done; rewrite length_insert; lia).
  rewrite (wrap32_id (Z.of_nat a + 1 + 1)) by sizes.
  eexists _, _. split; [reflexivity|].
  rewrite Nat2Z.id.
  replace (Z.to_nat (Z.of_nat a + 1)) with (S a) by lia.
  assert (Hlen : length (content this ++ [ch]) = S a)
    by (rewrite length_app, Htlen; cbn [length]; lia).
  assert (Hres : holds
    (STRING_old.set_used (Z.of_nat a + 1 + 1)
       (STRING_old.set_cstr (<[S a := NUL]> (<[a := ch]> (STRING_old.cstr E))) E))
    (content this ++ [ch])).
  { apply holds_intro; autorewrite with obj; rewrite ?Hlen.
    - rewrite !length_insert. done.
    - done.
    - lia.
    - rewrite take_insert_ge by lia.
      rewrite (take_S_r _ _ ch) by (apply list_lookup_insert_eq; lia).
      rewrite take_insert_ge by lia. by rewrite HE, Hfcs, Htt.
    - apply list_lookup_insert_eq. rewrite length_insert. lia. }
  destruct (holds_data _ _ Hres) as (_ & Hcont & Hsound).
  split; [exact Hsound|]. split; [exact Hcont|].
  autorewrite with obj. unfold f in Hc2. by rewrite fixed_capacity in Hc2.
Qed.

(** ** Truncation *)

Lemma truncate_at_holds (k : Z) this h :
  sound this -> 0 <= k -> room (k + 1) this ->
  exists r h' bs,
    STRING_old.truncate_at k this h = Done (r, h')
    /\ holds r bs
    /\ length bs = Z.to_nat k
    /\ take (length (content this) + 1) bs
       = take (Z.to_nat k) (content this ++ [NUL])
    /\ capacity this <= capacity r.
Proof.
  intros Ht Hk Hroom.
  destruct (sound_take this Ht) as (a & Hta & Htlen & Hts & Htt & Htc & Htb & Htr).
  destruct (sound_fixed this Ht) as ((Hfb & Hfr & _) & Hfc & _ & Hfcs & Hfixt).
  apply room_fixed in Hroom.
  assert (Hfu : 0 <= used (fixed this) <= capacity (fixed this)) by lia.
  pose proof (room_bound _ _ Hroom Hfr) as Hfn.
  destruct (ensure_cstr_room _ _ h Hfb Hfu Hfr Hroom) as [Hens HrE].
  set (f := fixed this) in *.
  set (E := ensured (k + 1) f h) in *.
  pose proof (ensured_capacity (k + 1) f h) as [Hc1 Hc2].
  fold E in Hc1, Hc2.
  pose proof (ensured_block_ok _ _ h Hfb Hfu : block_ok E) as HbE.
  unfold block_ok in HbE.
  unfold STRING_old.truncate_at.
  replace (k <? 0) with false by (symmetry; apply Z.ltb_ge; lia).
  erewrite bind_done by apply Hfixt. fold f.
  rewrite wrap32_id by sizes.
  erewrite bind_done by exact Hens. cbn beta iota.
  erewrite bind_done by (apply store_done; lia).
  assert (Hlen : length (take (Z.to_nat k) (STRING_old.cstr E)) = Z.to_nat k)
    by (rewrite length_take; lia).
  exists (STRING_old.set_used (k + 1)
            (STRING_old.set_cstr (<[Z.to_nat k := NUL]> (STRING_old.cstr E)) E)),
    (ensured_heap (k + 1) f h), (take (Z.to_nat k) (STRING_old.cstr E)).
  split; [reflexivity|]. split; [|split; [exact Hlen|split]].
  - apply holds_intro; autorewrite with obj; rewrite ?Hlen.
    + rewrite length_insert. done.
    + done.
    + lia.
    + by rewrite take_insert_ge by lia.
    + apply list_lookup_insert_eq. lia.
  - rewrite Htlen, <- Hts. rewrite !take_take.
    replace (a + 1)%nat with (S a) by lia.
    replace (S a `min` Z.to_nat k)%nat with (Z.to_nat k `min` S a)%nat by lia.
    rewrite <- Hfcs. fold f. unfold E. apply ensured_take; [done|done|lia].
  - autorewrite with obj. unfold f in Hc2. by rewrite fixed_capacity in Hc2.
Qed.

(** ** operator+ *)

Lemma operator_add_holds this str h :
  sound this -> sound str ->
  Z.max (used (fixed this) + used (fixed str)) (2 * used (fixed this)) + 8
  <= 2147483647 ->
  exists r h',
    STRING_old.operator_add this str h = Done ((r, fixed this, fixed str), h')
    /\ holds r (content this ++ content str)
    /\ used (fixed this) <= capacity r.
Proof.
  intros Ht Hs Hf.
  destruct (new_copy_holds this h Ht) as (c & Hcopy & Hch & Hcc).
  destruct (holds_data _ _ Hch) as (Hcf & Hccont & Hcs).
  assert (Hroom : room (used (fixed c) + used (fixed str)) c).
  { right. rewrite Hcf, Hcc.
    destruct Hch as (_ & _ & Hcu & _). destruct (sound_take this Ht) as (a & Hta & Hl & _).
    rewrite Hcu, Hl, <- Hta. unfold sizeof_STRING_HEADER, INT32_MAX. lia. }
  destruct (operator_add_assign_holds str c (after_malloc h) Hs Hcs Hroom)
    as (r & h' & Hadd & Hrh & Hrc).
  rewrite Hccont in Hrh.
  exists r, h'. split; [|split; [exact Hrh|lia]].
  unfold STRING_old.operator_add.
  erewrite bind_done by exact Hcopy. cbn beta iota.
  erewrite bind_done by exact Hadd. reflexivity.
Qed.

(** ** Every operation at once *)

(** An operation on a sound receiver and arguments that are in order returns
    a sound string with the bytes the operation [yields], in a block of at
    least [capacity_floor] bytes. *)
Lemma perform_sound (op : operation) (h : heap) :
  (forall this, receiver op = Some this -> sound this) ->
  arguments_ok op ->
  exists r h',
    perform op h = Done (r, h')
    /\ sound r
    /\ yields op (content r)
    /\ capacity_floor op <= capacity r
    /\ (allocates_exactly op = true -> capacity r = capacity_floor op).
Proof.
  intros Hrec Hargs.
  destruct op as [|str|p|p len|str this|p this|p len this|[str|] this|p this
                  |ch this|this str|k this];
    cbn [perform arguments_ok receiver yields capacity_floor allocates_exactly]
      in *.
  - destruct (new_holds h) as (r & Hrun & Hh & Hc).
    destruct (holds_data _ _ Hh) as (_ & Hcont & Hs).
    exists r, (after_malloc h). rewrite Hc. done.
  - destruct (new_copy_holds str h Hargs) as (r & Hrun & Hh & Hc).
    destruct (holds_data _ _ Hh) as (_ & Hcont & Hs).
    exists r, (after_malloc h). erewrite bind_done by exact Hrun.
    rewrite Hc. done.
  - destruct (new_cstr_holds p h Hargs) as (r & Hrun & Hh & Hc).
    destruct (holds_data _ _ Hh) as (_ & Hcont & Hs).
    exists r, (after_malloc h). split; [exact Hrun|]. split; [exact Hs|].
    split; [exact Hcont|]. destruct p; rewrite Hc; done.
  - destruct (new_data_holds p len h Hargs) as (r & Hrun & Hh & Hc).
    destruct (holds_data _ _ Hh) as (_ & Hcont & Hs).
    exists r, (after_malloc h). split; [exact Hrun|]. split; [exact Hs|].
    destruct p; rewrite Hc; done.
  - destruct Hargs as [Hs Hroom].
    destruct (operator_assign_holds str this h Hs (Hrec this eq_refl) Hroom)
      as (r & h' & Hrun & Hh & Hc).
    destruct (holds_data _ _ Hh) as (_ & Hcont & Hsr).
    exists r, h'. erewrite bind_done by exact Hrun. done.
  - destruct Hargs as [Hp Hroom].
    destruct (operator_assign_cstr_holds p this h Hp (Hrec this eq_refl) Hroom)
      as (r & h' & Hrun & Hh & Hc).
    destruct (holds_data _ _ Hh) as (_ & Hcont & Hsr).
    exists r, h'. split; [exact Hrun|]. split; [exact Hsr|].
    split; [exact Hcont|]. destruct p; [done|]. rewrite Hc. done.
  - destruct Hargs as [Hlen Hroom].
    destruct (assign_holds p len this h Hlen (Hrec this eq_refl) Hroom)
      as (r & h' & Hrun & Hh & Hc).
    destruct (holds_data _ _ Hh) as (_ & Hcont & Hsr).
    exists r, h'. done.
  - destruct Hargs as (Hs & _ & Hroom).
    destruct (operator_add_assign_holds str this h Hs (Hrec this eq_refl) Hroom)
      as (r & h' & Hrun & Hh & Hc).
    destruct (holds_data _ _ Hh) as (_ & Hcont & Hsr).
    exists r, h'. erewrite bind_done by exact Hrun. done.
  - done.
  - destruct Hargs as [Hp Hroom].
    destruct (operator_add_assign_cstr_holds p this h Hp (Hrec this eq_refl) Hroom)
      as (r & h' & Hrun & Hsr & Hcont & Hc).
    exists r, h'. done.
  - destruct (operator_add_assign_char_holds ch this h (Hrec this eq_refl) Hargs)
      as (r & h' & Hrun & Hsr & Hcont & Hc).
    exists r, h'. done.
  - destruct Hargs as (Ht & Hs & Hf).
    destruct (operator_add_holds this str h Ht Hs Hf)
      as (r & h' & Hrun & Hh & Hc).
    destruct (holds_data _ _ Hh) as (_ & Hcont & Hsr).
    exists r, h'. erewrite bind_done by exact Hrun. done.
  - destruct Hargs as [Hk Hroom].
    destruct (truncate_at_holds k this h (Hrec this eq_refl) Hk Hroom)
      as (r & h' & bs & Hrun & Hh & Hlen & Htk & Hc).
    destruct (holds_data _ _ Hh) as (_ & Hcont & Hsr).
    exists r, h'. rewrite Hcont. done.
Qed.

(** ** Strings produced by sequences of operations *)

Lemma sound_has_terminator s :
  sound s -> is_Some (find_nul (STRING_old.cstr s)).
Proof.
  intros (_ & _ & [[_ Hl]|[_ Hn]]); [|done].
  destruct (lookup_nul_find _ _ Hl) as (n & Hn & _). by exists n.
Qed.

Lemma sound_c_str s s' h h' (p : option Z) :
  sound s -> STRING_old.c_str s h = Done ((p, s'), h') -> sound s'.
Proof.
  intros Hs. unfold STRING_old.c_str.
  destruct (used_ (STRING_old.GetHeader s) =? 0); intros [= _ <- _]; [done|].
  pose proof (sound_has_terminator s Hs) as Hn.
  destruct Hs as (Hb & Hr & _).
  split; [done|]. split; [done|]. right. split; [|done].
  rewrite used_set_used. lia.
Qed.

Lemma sound_length_result s s' h h' (n : Z) :
  sound s -> STRING_old.length s h = Done ((n, s'), h') -> sound s'.
Proof.
  intros Hs. rewrite sound_length by done. intros [= _ <- _].
  destruct (sound_fixed s Hs) as (Hh & _). by apply (holds_sound _ (content s)).
Qed.

(** Every produced string is sound. *)
Lemma produced_sound r : produced r -> sound r.
Proof.
  induction 1 as [op h h' r _ IH Hargs Hrun|s s' h h' p _ IH Hc|s s' h h' n _ IH Hl].
  - destruct (perform_sound op h IH Hargs) as (r0 & h0 & Hrun0 & Hs & _).
    rewrite Hrun in Hrun0. by injection Hrun0 as -> ->.
  - by apply (sound_c_str s s' h h' p).
  - by apply (sound_length_result s s' h h' n).
Qed.

(** ** Sample strings are produced *)

Lemma abc_produced : produced abc.
Proof.
  apply (produced_by (ConstructCStr (Some (literal "abc")))
           (mkHeap 0 (supply heap0) []) (mkHeap 1 (supply heap0) []) abc).
  - intros this H. discriminate H.
  - exists 3%nat. split; [reflexivity|]. vm_compute. congruence.
  - vm_compute. reflexivity.
Qed.

Lemma a0b_string_produced : produced a0b_string.
Proof.
  apply (produced_by (ConstructData (Some a0b) 3) heap0 (after_malloc heap0)
           a0b_string).
  - intros this H. discriminate H.
  - right. split; vm_compute; [split|]; congruence.
  - vm_compute. reflexivity.
Qed.

(** ** C6: a terminator written through operator[] *)

Lemma find_nul_insert_min (m : list byte) (k j : nat) :
  find_nul m = Some k -> (j < length m)%nat ->
  find_nul (<[j := NUL]> m) = Some (j `min` k)%nat.
Proof.
  intros Hk Hj. destruct (decide (j <= k)%nat) as [Hle|Hgt].
  - replace (j `min` k)%nat with j by lia. by apply (find_nul_insert _ k).
  - replace (j `min` k)%nat with k by lia.
    pose proof (find_nul_Some _ _ Hk) as (Hl & Hnot & Hlt).
    apply find_nul_intro.
    + rewrite list_lookup_insert_ne by lia. done.
    + rewrite take_insert_ge by lia. done.
Qed.

(** C6 (amended). For a sound string [x] whose [length()] is [n] and an offset
    [0 <= j < n]: after taking a reference with [operator[]] and writing the
    terminator through it at offset [j], [length()] returns the position of
    the first ['\0'] of the data, the smaller of [j] and the [strlen] of [x];
    that is [j] when no ['\0'] lies in front of offset [j], as in every
    string whose [used_] was [strlen() + 1]. *)
Theorem length_after_indexed_write (x x0 : STRING_old.t) (n j : Z) (h : heap)
    (Hx : sound x)
    (Hn : STRING_old.length x h = Done ((n, x0), h))
    (Hj : 0 <= j < n) :
  STRING_old.operator_index j x h = Done ((j, STRING_old.set_used (-1) x), h)
  /\ exists x',
    ('(r, x1) ← STRING_old.operator_index j x;
     x2 ← STRING_old.ref_write r NUL x1;
     STRING_old.length x2) h
    = Done ((Z.min j (Z.of_nat (length (text x))), x'), h)
    /\ used x' = Z.min j (Z.of_nat (length (text x))) + 1
    /\ STRING_old.cstr x' = <[Z.to_nat j := NUL]> (STRING_old.cstr x)
    /\ (NUL ∉ take (Z.to_nat j) (STRING_old.cstr x) ->
        Z.min j (Z.of_nat (length (text x))) = j).
Proof.
  split; [reflexivity|].
  rewrite sound_length in Hn by done. injection Hn as Hn _.
  destruct (sound_take x Hx) as (a & Hu & Hlen & _ & _ & Hc & Hb & Hr).
  destruct (sound_has_terminator x Hx) as [k Hk].
  pose proof (find_nul_Some _ _ Hk) as (Hkl & Hknot & Hklt).
  assert (Htext : length (text x) = k) by (unfold text; by apply chars_length).
  rewrite Htext.
  set (m := <[Z.to_nat j := NUL]> (STRING_old.cstr x)).
  set (p := (Z.to_nat j `min` k)%nat).
  assert (Hp : find_nul m = Some p)
    by (apply find_nul_insert_min; [done|lia]).
  replace (Z.min j (Z.of_nat k)) with (Z.of_nat p) by (unfold p; lia).
  set (x2 := STRING_old.set_cstr m (STRING_old.set_used (-1) x)).
  assert (Hx2 : sound x2).
  { destruct Hx as (Hxb & Hxr & _). split; [|split; [done|]].
    - unfold block_ok, x2, m. autorewrite with obj. rewrite length_insert. done.
    - right. split; [unfold x2; by autorewrite with obj|].
      unfold x2. rewrite cstr_set_cstr. by exists p. }
  assert (Hfx : fixed x2 = STRING_old.set_used (Z.of_nat p + 1) x2).
  { apply fixed_dirty; [unfold x2; by autorewrite with obj|].
    unfold x2. by rewrite cstr_set_cstr. }
  assert (Hcont : length (content x2) = p).
  { unfold content. rewrite Hfx, used_set_used.
    replace (Z.to_nat (Z.of_nat p + 1 - 1)) with p by lia.
    rewrite length_take. unfold x2. rewrite cstr_set_cstr. unfold m.
    rewrite length_insert. unfold p. lia. }
  exists (fixed x2). split; [|split; [|split]].
  - unfold STRING_old.operator_index.
    erewrite bind_done by reflexivity. cbn beta iota.
    unfold STRING_old.ref_write. rewrite cstr_set_used.
    erewrite bind_done.
    2:{ erewrite bind_done by (apply store_done; lia). reflexivity. }
    fold m. fold x2. rewrite sound_length by done. by rewrite Hcont.
  - by rewrite Hfx, used_set_used.
  - by rewrite fixed_cstr.
  - intros Hnot. unfold p.
    destruct (decide (k < Z.to_nat j)%nat) as [Hlt|Hge]; [|lia].
    exfalso. apply Hnot. apply list_elem_of_lookup. exists k.
    by rewrite lookup_take_lt by lia.
Qed.

Lemma length_after_indexed_write_witness :
  STRING_old.operator_index 2 a0b_string heap0
  = Done ((2, STRING_old.set_used (-1) a0b_string), heap0)
  /\ exists x',
    ('(r, x1) ← STRING_old.operator_index 2 a0b_string;
     x2 ← STRING_old.ref_write r NUL x1;
     STRING_old.length x2) heap0
    = Done ((Z.min 2 (Z.of_nat (length (text a0b_string))), x'), heap0)
    /\ used x' = Z.min 2 (Z.of_nat (length (text a0b_string))) + 1
    /\ STRING_old.cstr x' = <[Z.to_nat 2 := NUL]> (STRING_old.cstr a0b_string)
    /\ (NUL ∉ take (Z.to_nat 2) (STRING_old.cstr a0b_string) ->
        Z.min 2 (Z.of_nat (length (text a0b_string))) = 2).
Proof.
  apply (length_after_indexed_write a0b_string a0b_string 3 2 heap0).
  - split; [reflexivity|]. split; [vm_compute; congruence|].
    left. split; [vm_compute; split; congruence|reflexivity].
  - reflexivity.
  - lia.
Defined.

(** [STRING_old("a\0b", 3)] has [length()] 3; a terminator written at offset
    2 leaves [length()] at 1, the position of the ['\0'] that was there, and
    not at 2. *)
Lemma indexed_write_behind_terminator :
  perform (ConstructData (Some a0b) 3) heap0 = Done (a0b_string, after_malloc heap0)
  /\ STRING_old.length a0b_string heap0 = Done ((3, a0b_string), heap0)
  /\ exists x',
       ('(r, x1) ← STRING_old.operator_index 2 a0b_string;
        x2 ← STRING_old.ref_write r NUL x1;
        STRING_old.length x2) heap0
       = Done ((1, x'), heap0)
       /\ 1 <> 2.
Proof.
  split; [vm_compute; reflexivity|]. split; [reflexivity|].
  eexists. split; [vm_compute; reflexivity|lia].
Qed.

(** ** C1: the terminator and the length *)

(** C1 (amended). Every constructor, assignment, append, [operator+] on
    strings and [truncate_at], applied to a receiver that the interface has
    produced by any sequence of such operations and to arguments that are in
    order (sound strings, terminated C strings, another object than the
    receiver for [operator+=], sizes within [int]), returns a string that is
    produced in turn and holds the bytes the operation [yields]; when its
    [used_] is positive the byte at offset [used_ - 1] is the terminator and
    [length()] is [used_ - 1]; and [used_] is [strlen() + 1] exactly when
    those bytes hold no ['\0'], while with a ['\0'] among them (after a
    truncation beyond the length, or data that holds one) [strlen] stops
    short of [length()]. *)
Theorem operations_keep_invariant (op : operation) (h : heap)
    (Hrec : forall this, receiver op = Some this -> produced this)
    (Hargs : arguments_ok op) :
  exists r h',
    perform op h = Done (r, h')
    /\ produced r
    /\ yields op (content r)
    /\ (0 < used r ->
        STRING_old.cstr r !! Z.to_nat (used r - 1) = Some NUL
        /\ exists n : nat,
             strlen (STRING_old.cstr r) h' = Done (Z.of_nat n, h')
             /\ STRING_old.length r h' = Done ((used r - 1, r), h')
             /\ (NUL ∉ content r -> used r = Z.of_nat n + 1)
             /\ (NUL ∈ content r -> Z.of_nat n + 1 < used r)).
Proof.
  destruct (perform_sound op h (fun this H => produced_sound this (Hrec this H))
              Hargs) as (r & h' & Hrun & Hs & Hy & _).
  exists r, h'. split; [exact Hrun|].
  split; [exact (produced_by op h h' r Hrec Hargs Hrun)|].
  split; [exact Hy|]. intros Hu. by apply sound_positive.
Qed.

Lemma operations_keep_invariant_witness :
  exists r h',
    perform (AppendChar "d" a0b_string) heap0 = Done (r, h')
    /\ produced r
    /\ yields (AppendChar "d" a0b_string) (content r)
    /\ (0 < used r ->
        STRING_old.cstr r !! Z.to_nat (used r - 1) = Some NUL
        /\ exists n : nat,
             strlen (STRING_old.cstr r) h' = Done (Z.of_nat n, h')
             /\ STRING_old.length r h' = Done ((used r - 1, r), h')
             /\ (NUL ∉ content r -> used r = Z.of_nat n + 1)
             /\ (NUL ∈ content r -> Z.of_nat n + 1 < used r)).
Proof.
  apply (operations_keep_invariant (AppendChar "d" a0b_string) heap0).
  - intros this [= <-]. exact a0b_string_produced.
  - right. right. vm_compute. congruence.
Defined.

(** [truncate_at(5)] on ["abc"]: [used_] becomes 6 and [length()] 5, while
    the first terminator, and so [strlen], stays at 3.  [STRING_old("a\0b", 3)]:
    [used_] is 4 and [length()] 3, while [strlen] is 1. *)
Lemma strlen_differs_after_truncate_and_data :
  (exists r h',
     perform (Truncate 5 abc) heap0 = Done (r, h')
     /\ produced abc
     /\ arguments_ok (Truncate 5 abc)
     /\ 0 < used r
     /\ strlen (STRING_old.cstr r) h' = Done (3, h')
     /\ used r <> 3 + 1
     /\ STRING_old.length r h' = Done ((5, r), h'))
  /\ (exists r h',
        perform (ConstructData (Some a0b) 3) heap0 = Done (r, h')
        /\ arguments_ok (ConstructData (Some a0b) 3)
        /\ 0 < used r
        /\ strlen (STRING_old.cstr r) h' = Done (1, h')
        /\ used r <> 1 + 1
        /\ STRING_old.length r h' = Done ((3, r), h')).
Proof.
  split.
  - eexists _, _. split; [vm_compute; reflexivity|].
    split; [exact abc_produced|].
    split; [split; [lia|right; vm_compute; congruence]|].
    repeat split; vm_compute; congruence.
  - eexists _, _. split; [vm_compute; reflexivity|].
    split; [right; split; vm_compute; [split|]; congruence|].
    repeat split; vm_compute; congruence.
Qed.

(** ** C9: the capacity *)

(** C9 (amended). After every operation on a produced receiver and arguments
    that are in order the capacity is at least [capacity_floor]:
    [kMinCapacity] after default construction, construction from a null
    pointer and assignment of a null C string; [used_] of the source after
    copy construction; [strlen + 1] after construction from a C string and
    [length + 1] from data, and in these cases exactly that; the capacity of
    the receiver after every other mutator, and [used_] of [this] after
    [operator+].  So a mutator keeps a capacity of [kMinCapacity] or more
    once the receiver has it. *)
Theorem capacity_after_operation (op : operation) (h : heap)
    (Hrec : forall this, receiver op = Some this -> produced this)
    (Hargs : arguments_ok op) :
  exists r h',
    perform op h = Done (r, h')
    /\ capacity_floor op <= capacity r
    /\ (allocates_exactly op = true -> capacity r = capacity_floor op)
    /\ (forall this, receiver op = Some this ->
        kMinCapacity <= capacity this -> kMinCapacity <= capacity r).
Proof.
  destruct (perform_sound op h (fun this H => produced_sound this (Hrec this H))
              Hargs) as (r & h' & Hrun & _ & _ & Hfl & Hex).
  exists r, h'. split; [exact Hrun|]. split; [exact Hfl|]. split; [exact Hex|].
  intros this Hthis Hmin.
  destruct op as [|str|p|p len|str this'|[src|] this'|p len this'|str this'
                  |p this'|ch this'|this' str|k this'];
    cbn [receiver] in Hthis; try discriminate Hthis;
    injection Hthis as <-; cbn [capacity_floor] in Hfl; lia.
Qed.

Lemma capacity_after_operation_witness :
  exists r h',
    perform (AppendChar "d" a0b_string) heap0 = Done (r, h')
    /\ capacity_floor (AppendChar "d" a0b_string) <= capacity r
    /\ (allocates_exactly (AppendChar "d" a0b_string) = true
        -> capacity r = capacity_floor (AppendChar "d" a0b_string))
    /\ (forall this, receiver (AppendChar "d" a0b_string) = Some this ->
        kMinCapacity <= capacity this -> kMinCapacity <= capacity r).
Proof.
  apply (capacity_after_operation (AppendChar "d" a0b_string) heap0).
  - intros this [= <-]. exact a0b_string_produced.
  - right. right. vm_compute. congruence.
Defined.

(** [STRING_old("abc")] allocates exactly the four bytes it needs, fewer than
    [kMinCapacity]. *)
Lemma short_cstring_capacity_below_minimum :
  exists r h',
    perform (ConstructCStr (Some (literal "abc"))) heap0 = Done (r, h')
    /\ arguments_ok (ConstructCStr (Some (literal "abc")))
    /\ capacity r = 4
    /\ capacity r < kMinCapacity.
Proof.
  eexists _, _. split; [vm_compute; reflexivity|].
  split; [|split; vm_compute; reflexivity].
  exists 3%nat. split; [reflexivity|]. vm_compute. congruence.
Qed.
